(** * BusTub buffer pool: LRU-K replacer and buffer pool manager instance

    A shallow embedding of [src/buffer/lru_k_replacer.cpp] and
    [src/buffer/buffer_pool_manager_instance.cpp], and the properties of the
    natural-language specification established on it.

    Conventions of the embedding.
    - [frame_id_t] and [page_id_t] are 32-bit signed integers, [size_t] is a
      64-bit unsigned integer; all are carried in [Z].  An unsigned increment
      wraps around modulo [2^64]; a signed increment past [INT_MAX] and an
      access outside the frame array are undefined behaviour in C++, which the
      embedding renders as [None] in the option monad.
    - [std::unordered_map] is a [gmap]; a range-for over it is a left fold over
      [map_to_list].  The iteration order of an unordered map is unspecified,
      so nothing below depends on the order of [map_to_list].
    - [std::list<size_t>] is a [list Z], [front()] its head, [pop_front()] its
      tail, [push_back] an append.
    - The mutexes are not modelled: every operation runs atomically. *)

From Stdlib Require Import ZArith Strings.Byte.
From stdpp Require Import base option list sorting gmap fin_maps.

Local Open Scope Z_scope.

(** ** Machine integers *)

Definition SIZE_MAX : Z := 2 ^ 64 - 1.
Definition INT_MAX : Z := 2 ^ 31 - 1.

(** [x++] on a [size_t]. *)
Definition size_incr (x : Z) : Z := (x + 1) mod 2 ^ 64.

(** [static_cast<int>(x)] of a [size_t]: the low 32 bits, read as a signed
    two's-complement number. *)
Definition static_cast_int (x : Z) : Z :=
  let lo := x mod 2 ^ 32 in
  if lo <? 2 ^ 31 then lo else lo - 2 ^ 32.

(** ** The LRU-K replacer *)

Module Replacer.

(** The access history of one frame: timestamps, oldest first. *)
Abbreviation access_history_t := (list Z) (only parsing).

(** [h.front()]; the source only calls it on histories that hold at least
    one timestamp (see [wf] below). *)
Definition front (h : access_history_t) : Z := hd 0 h.

(** [h.pop_front()]. *)
Definition pop_front (h : access_history_t) : access_history_t := tl h.

(** The fields of [LRUKReplacer], as the member functions use them (the
    class declaration is in a header that is not part of the sources).
    [evictable_] is only ever assigned [true] and queried by [find]; a frame
    is marked evictable when it is a key. *)
Record LRUKReplacer : Type := mkReplacer {
  replacer_size_ : Z;
  k_ : Z;
  clock_ : Z;
  preliminary_queue_ : gmap Z (list Z);
  lru_cache_queue_ : gmap Z (list Z);
  evictable_ : gmap Z bool
}.

(** The constructor.  Modelled from the spec: the logical clock, whose
    initialiser is in the header, starts at zero. *)
Definition new (num_frames k : Z) : LRUKReplacer :=
  mkReplacer num_frames k 0 ∅ ∅ ∅.

Definition set_clock (c : Z) (r : LRUKReplacer) : LRUKReplacer :=
  mkReplacer (replacer_size_ r) (k_ r) c
             (preliminary_queue_ r) (lru_cache_queue_ r) (evictable_ r).
Definition set_preliminary (q : gmap Z (list Z)) (r : LRUKReplacer) : LRUKReplacer :=
  mkReplacer (replacer_size_ r) (k_ r) (clock_ r)
             q (lru_cache_queue_ r) (evictable_ r).
Definition set_cache (q : gmap Z (list Z)) (r : LRUKReplacer) : LRUKReplacer :=
  mkReplacer (replacer_size_ r) (k_ r) (clock_ r)
             (preliminary_queue_ r) q (evictable_ r).
Definition set_evictable (e : gmap Z bool) (r : LRUKReplacer) : LRUKReplacer :=
  mkReplacer (replacer_size_ r) (k_ r) (clock_ r)
             (preliminary_queue_ r) (lru_cache_queue_ r) e.

(** [clock_++] as a statement. *)
Definition tick (r : LRUKReplacer) : LRUKReplacer :=
  set_clock (size_incr (clock_ r)) r.

(** [evictable_.find(f) != evictable_.end()]. *)
Definition can_evict (e : gmap Z bool) (f : Z) : bool :=
  bool_decide (is_Some (e !! f)).

(** [q.find(f) != q.end()]. *)
Definition contains (q : gmap Z (list Z)) (f : Z) : bool :=
  bool_decide (is_Some (q !! f)).

(** The body of the two range-for loops of [Evict]: the accumulator is the
    pair of [*frame_id] and [reference_clock]. *)
Definition scan_step (ev : gmap Z bool) (acc : Z * Z) (e : Z * list Z) : Z * Z :=
  let oldest_time := front e.2 in
  if can_evict ev e.1 && (oldest_time <? acc.2)
  then (e.1, oldest_time)
  else acc.

Definition scan (ev : gmap Z bool) (q : gmap Z (list Z)) (acc : Z * Z) : Z * Z :=
  foldl (scan_step ev) acc (map_to_list q).

(** [Evict(frame_id_t *frame_id) -> bool]: the new state, the value left in
    [*frame_id], and the returned flag. *)
Definition Evict (r : LRUKReplacer) : LRUKReplacer * Z * bool :=
  let r := tick r in
  if bool_decide (preliminary_queue_ r = ∅) && bool_decide (lru_cache_queue_ r = ∅)
  then (r, -1, false)
  else
    let acc := (-1, clock_ r) in
    let acc := if bool_decide (preliminary_queue_ r = ∅) then acc
               else scan (evictable_ r) (preliminary_queue_ r) acc in
    if contains (preliminary_queue_ r) acc.1
    then (set_evictable (delete acc.1 (evictable_ r))
            (set_preliminary (delete acc.1 (preliminary_queue_ r)) r),
          acc.1, true)
    else
      let acc := scan (evictable_ r) (lru_cache_queue_ r) acc in
      if bool_decide (acc.1 ≠ -1)
      then (set_evictable (delete acc.1 (evictable_ r))
              (set_cache (delete acc.1 (lru_cache_queue_ r)) r),
            acc.1, true)
      else (r, acc.1, false).

(** [RecordAccess(frame_id_t frame_id)]. *)
Definition RecordAccess (r : LRUKReplacer) (frame_id : Z) : LRUKReplacer :=
  if (static_cast_int (replacer_size_ r) <=? frame_id) || (frame_id =? -1)
  then r
  else
    match lru_cache_queue_ r !! frame_id with
    | Some access_history =>
        tick (set_cache (<[frame_id := pop_front access_history ++ [clock_ r]]>
                           (lru_cache_queue_ r)) r)
    | None =>
        let access_history :=
          default [] (preliminary_queue_ r !! frame_id) ++ [clock_ r] in
        if k_ r <=? Z.of_nat (length access_history)
        then tick (set_preliminary (delete frame_id (preliminary_queue_ r))
                     (set_cache (<[frame_id := access_history]> (lru_cache_queue_ r)) r))
        else tick (set_preliminary (<[frame_id := access_history]> (preliminary_queue_ r)) r)
    end.

(** [SetEvictable(frame_id_t frame_id, bool set_evictable)]. *)
Definition SetEvictable (r : LRUKReplacer) (frame_id : Z) (set_evictable_flag : bool)
  : LRUKReplacer :=
  let r := tick r in
  if negb (contains (preliminary_queue_ r) frame_id)
     && negb (contains (lru_cache_queue_ r) frame_id)
  then r
  else if set_evictable_flag
       then set_evictable (<[frame_id := true]> (evictable_ r)) r
       else set_evictable (delete frame_id (evictable_ r)) r.

(** [Remove(frame_id_t frame_id)]. *)
Definition Remove (r : LRUKReplacer) (frame_id : Z) : LRUKReplacer :=
  let r := tick r in
  set_evictable (delete frame_id (evictable_ r))
    (set_cache (delete frame_id (lru_cache_queue_ r))
       (set_preliminary (delete frame_id (preliminary_queue_ r)) r)).

(** [Size()]. *)
Definition Size (r : LRUKReplacer) : nat := size (evictable_ r).

(** A frame is tracked when it has an access history in either partition. *)
Definition tracked (r : LRUKReplacer) (f : Z) : Prop :=
  is_Some (preliminary_queue_ r !! f) ∨ is_Some (lru_cache_queue_ r !! f).

Definition marked_evictable (r : LRUKReplacer) (f : Z) : Prop :=
  is_Some (evictable_ r !! f).

(** *** Well-formed replacer states *)

(** Timestamps of a history are appended in increasing clock order and lie
    in the past of the clock. *)
Definition history_ok (clock : Z) (h : list Z) : Prop :=
  h ≠ [] ∧ StronglySorted Z.lt h ∧ ∀ t, t ∈ h → 0 ≤ t < clock.

(** The history the replacer keeps for a frame, in either partition. *)
Definition history_of (r : LRUKReplacer) (f : Z) (h : list Z) : Prop :=
  preliminary_queue_ r !! f = Some h ∨ lru_cache_queue_ r !! f = Some h.

(** What every run of the replacer maintains as long as the clock has not
    wrapped around: the two partitions are disjoint, the sentinel [-1] is
    never tracked, a preliminary frame has fewer than [k_] timestamps and a
    mature one retains exactly [k_] of them (one when [k_] is zero), no
    timestamp is shared by two frames, and only tracked frames are marked
    evictable. *)
Record wf (r : LRUKReplacer) : Prop := mk_wf {
  wf_clock : 0 ≤ clock_ r < SIZE_MAX;
  wf_disjoint : ∀ f, is_Some (preliminary_queue_ r !! f) → lru_cache_queue_ r !! f = None;
  wf_sentinel : preliminary_queue_ r !! (-1) = None ∧ lru_cache_queue_ r !! (-1) = None;
  wf_preliminary : ∀ f h, preliminary_queue_ r !! f = Some h →
      history_ok (clock_ r) h ∧ Z.of_nat (length h) < k_ r;
  wf_mature : ∀ f h, lru_cache_queue_ r !! f = Some h →
      history_ok (clock_ r) h ∧ k_ r ≤ Z.of_nat (length h) ≤ Z.max (k_ r) 1;
  wf_distinct : ∀ f g hf hg t,
      history_of r f hf → history_of r g hg → t ∈ hf → t ∈ hg → f = g;
  wf_evictable : ∀ f, marked_evictable r f → tracked r f
}.

(** The earliest timestamp a history retains. *)
Definition earliest (h : list Z) : Z := foldr Z.min (front h) h.

Definition evictable_preliminary (r : LRUKReplacer) (f : Z) (h : list Z) : Prop :=
  preliminary_queue_ r !! f = Some h ∧ marked_evictable r f.

Definition evictable_mature (r : LRUKReplacer) (f : Z) (h : list Z) : Prop :=
  lru_cache_queue_ r !! f = Some h ∧ marked_evictable r f.

(** No replacer state is left for the frame. *)
Definition forgotten (r : LRUKReplacer) (f : Z) : Prop :=
  preliminary_queue_ r !! f = None ∧ lru_cache_queue_ r !! f = None
  ∧ evictable_ r !! f = None.

(** The oldest of the frames that satisfy [P]: the earliest timestamp of
    its history is smaller than that of every other such frame. *)
Definition oldest_among (P : Z → list Z → Prop) (f : Z) : Prop :=
  ∃ h, P f h
       ∧ ∀ g hg, P g hg →
           earliest h ≤ earliest hg ∧ (g ≠ f → earliest h < earliest hg).

(** The frame the LRU-K policy designates: the oldest evictable preliminary
    frame, or, when no preliminary frame is evictable, the oldest evictable
    mature frame. *)
Definition lru_k_victim (r : LRUKReplacer) (f : Z) : Prop :=
  oldest_among (evictable_preliminary r) f
  ∨ ((∀ g hg, ¬ evictable_preliminary r g hg)
     ∧ oldest_among (evictable_mature r) f).

(** Every other frame keeps its replacer state. *)
Definition others_kept (r r' : LRUKReplacer) (f : Z) : Prop :=
  ∀ g, g ≠ f →
    preliminary_queue_ r' !! g = preliminary_queue_ r !! g
    ∧ lru_cache_queue_ r' !! g = lru_cache_queue_ r !! g
    ∧ evictable_ r' !! g = evictable_ r !! g.

(** The frame ids [RecordAccess] does not turn away. *)
Definition accepted (r : LRUKReplacer) (f : Z) : Prop :=
  f < static_cast_int (replacer_size_ r) ∧ f ≠ -1.

(** Runs of the replacer on its own. *)
Inductive ReplacerOp : Type :=
  | DoEvict
  | DoRecordAccess (frame_id : Z)
  | DoSetEvictable (frame_id : Z) (flag : bool)
  | DoRemove (frame_id : Z).

Definition apply_op (r : LRUKReplacer) (o : ReplacerOp) : LRUKReplacer :=
  match o with
  | DoEvict => (Evict r).1.1
  | DoRecordAccess f => RecordAccess r f
  | DoSetEvictable f b => SetEvictable r f b
  | DoRemove f => Remove r f
  end.

Definition replay (r : LRUKReplacer) (ops : list ReplacerOp) : LRUKReplacer :=
  foldl apply_op r ops.

(** The partition follows the number of recorded accesses: a preliminary
    frame has between one and [k_ - 1] timestamps, a mature frame retains
    [k_] of them (a single one when [k_] is zero). *)
Definition partitioned (r : LRUKReplacer) : Prop :=
  (∀ f h, preliminary_queue_ r !! f = Some h →
          0 < Z.of_nat (length h) < k_ r)
  ∧ (∀ f h, lru_cache_queue_ r !! f = Some h →
            Z.of_nat (length h) = Z.max (k_ r) 1).

(** What the specification asks of one call of [Evict] in state [r]: the
    victim is the oldest evictable preliminary frame if there is one, else the
    oldest evictable mature frame if there is one, else there is no victim;
    a victim was tracked and evictable and leaves the replacer altogether,
    the other frames keeping their state. *)
Definition Evict_contract (r : LRUKReplacer) : Prop :=
  ∃ r' f b, Evict r = (r', f, b)
    ∧ ((∃ g hg, evictable_preliminary r g hg) →
         b = true ∧ oldest_among (evictable_preliminary r) f)
    ∧ ((∀ g hg, ¬ evictable_preliminary r g hg) →
       (∃ g hg, evictable_mature r g hg) →
         b = true ∧ oldest_among (evictable_mature r) f)
    ∧ ((∀ g, ¬ (tracked r g ∧ marked_evictable r g)) → b = false ∧ f = -1)
    ∧ (b = true →
         tracked r f ∧ marked_evictable r f ∧ forgotten r' f ∧ others_kept r r' f)
    ∧ (b = false → r' = tick r ∧ ∀ g, ¬ (tracked r g ∧ marked_evictable r g)).

(** The timestamps [c], [c + 1], ..., [c + n - 1]. *)
Definition stamps (c : Z) (n : nat) : list Z := (λ i : nat, c + Z.of_nat i) <$> seq 0 n.

(** The number of timestamps a mature history retains. *)
Definition window (r : LRUKReplacer) : nat := Z.to_nat (Z.max (k_ r) 1).

(** The state of frame [f] after [n] accesses in a row that began at clock
    [c] with [f] untracked. *)
Definition accessed (r : LRUKReplacer) (f : Z) (c : Z) (n : nat) : Prop :=
  match n with
  | O => preliminary_queue_ r !! f = None ∧ lru_cache_queue_ r !! f = None
  | S _ =>
      if decide (Z.of_nat n < k_ r)
      then preliminary_queue_ r !! f = Some (stamps c n)
           ∧ lru_cache_queue_ r !! f = None
      else preliminary_queue_ r !! f = None
           ∧ lru_cache_queue_ r !! f = Some (drop (n - window r) (stamps c n))
  end.

(** The accesses of scenario 3 of the specification, every frame unpinned:
    frame 0 is mature, frames 1 and 2 are preliminary. *)
Definition scenario_3 : list ReplacerOp :=
  [DoRecordAccess 0; DoRecordAccess 1; DoRecordAccess 2; DoRecordAccess 0;
   DoSetEvictable 0 true; DoSetEvictable 1 true; DoSetEvictable 2 true].

End Replacer.

Import Replacer.

(** ** The buffer pool manager instance *)

Module Pool.

(** Modelled from the spec: the reserved page id ("conventionally -1");
    [FlushPgImp] compares against the literal [-1]. *)
Definition INVALID_PAGE_ID : Z := -1.

(** Modelled from the spec: the page size constant of the configuration
    header, which is not part of the sources ("typically 4096 bytes"). *)
Definition BUSTUB_PAGE_SIZE : nat := 4096.

(** Modelled from the spec: the [Page] class, whose declaration is not part
    of the sources.  A frame holds a byte buffer of [BUSTUB_PAGE_SIZE] bytes,
    the resident page id, the pin count and the dirty bit. *)
Record Page : Type := mkPage {
  data_ : list byte;
  page_id_ : Z;
  pin_count_ : Z;
  is_dirty_ : bool
}.

(** A byte buffer of one page, all zero. *)
Definition zeroed : list byte := replicate BUSTUB_PAGE_SIZE x00.

(** Modelled from the spec: [Page::ResetMemory] zeroes the byte buffer. *)
Definition ResetMemory (p : Page) : Page :=
  mkPage zeroed (page_id_ p) (pin_count_ p) (is_dirty_ p).

(** Modelled from the spec: a freshly constructed frame is empty. *)
Definition empty_page : Page := mkPage zeroed INVALID_PAGE_ID 0 false.

Definition set_page_id (x : Z) (p : Page) : Page :=
  mkPage (data_ p) x (pin_count_ p) (is_dirty_ p).
Definition set_pin_count (x : Z) (p : Page) : Page :=
  mkPage (data_ p) (page_id_ p) x (is_dirty_ p).
Definition set_is_dirty (x : bool) (p : Page) : Page :=
  mkPage (data_ p) (page_id_ p) (pin_count_ p) x.
Definition set_data (x : list byte) (p : Page) : Page :=
  mkPage x (page_id_ p) (pin_count_ p) (is_dirty_ p).

(** Modelled from the spec: the calls the pool makes on the external
    [DiskManager], which is not part of the sources. *)
Inductive DiskCall : Type :=
  | WritePageCall (page_id : Z) (bytes : list byte)
  | ReadPageCall (page_id : Z)
  | DeallocatePageCall (page_id : Z).

(** Modelled from the spec: the external [DiskManager] keeps the bytes last
    written under each page id; the embedding also keeps the sequence of
    calls it received. *)
Record DiskManager : Type := mkDisk {
  stored : gmap Z (list byte);
  calls : list DiskCall
}.

(** A disk on which nothing was written. *)
Definition new_disk : DiskManager := mkDisk ∅ [].

(** Modelled from the spec: [WritePage] persists the frame bytes. *)
Definition WritePage (d : DiskManager) (page_id : Z) (bytes : list byte) : DiskManager :=
  mkDisk (<[page_id := bytes]> (stored d)) (calls d ++ [WritePageCall page_id bytes]).

(** Modelled from the spec: [ReadPage] copies the on-disk bytes into the
    buffer; the bytes of a page that was never written are unspecified, and
    the buffer is left as it is. *)
Definition ReadPage (d : DiskManager) (page_id : Z) (buffer : list byte)
  : DiskManager * list byte :=
  (mkDisk (stored d) (calls d ++ [ReadPageCall page_id]),
   default buffer (stored d !! page_id)).

(** Modelled from the spec: [DeallocatePage] is advisory; the call is only
    recorded. *)
Definition DeallocatePage (d : DiskManager) (page_id : Z) : DiskManager :=
  mkDisk (stored d) (calls d ++ [DeallocatePageCall page_id]).

(** The fields of [BufferPoolManagerInstance], as the member functions use
    them; [pool_size_] is the length of the frame array. *)
Record BufferPoolManagerInstance : Type := mkBPM {
  pages_ : list Page;
  replacer_ : LRUKReplacer;
  page_table_ : gmap Z Z;
  free_list_ : list Z;
  next_page_id_ : Z;
  disk_manager_ : DiskManager
}.

Definition pool_size_ (s : BufferPoolManagerInstance) : Z :=
  Z.of_nat (length (pages_ s)).

(** The constructor: every frame is empty and in the free list.  Modelled
    from the spec: the allocation counter, whose initialiser is in the
    header, starts at zero. *)
Definition new (pool_size : nat) (disk_manager : DiskManager) (replacer_k : Z)
  : BufferPoolManagerInstance :=
  mkBPM (replicate pool_size empty_page)
        (Replacer.new (Z.of_nat pool_size) replacer_k)
        ∅
        ((λ i : nat, static_cast_int (Z.of_nat i)) <$> seq 0 pool_size)
        0
        disk_manager.

(** [pages_[frame_id]], undefined outside the array. *)
Definition page_at (pages : list Page) (frame_id : Z) : option Page :=
  if frame_id <? 0 then None else pages !! Z.to_nat frame_id.

(** Assignment through [&pages_[frame_id]]. *)
Definition store_page (pages : list Page) (frame_id : Z) (p : Page) : list Page :=
  <[Z.to_nat frame_id := p]> pages.

(** The counting loop that opens [NewPgImp] and the miss path of
    [FetchPgImp]. *)
Definition num_free_pages (pages : list Page) : nat :=
  length (filter (λ p, pin_count_ p = 0) pages).

(** [page_table_.emplace(page_id, frame_id)]: no effect when the key is
    already present. *)
Definition emplace (page_id frame_id : Z) (t : gmap Z Z) : gmap Z Z :=
  match t !! page_id with
  | Some _ => t
  | None => <[page_id := frame_id]> t
  end.

(** [AllocatePage]: [next_page_id_++].  The increment of a [page_id_t] past
    [INT_MAX] is left undefined. *)
Definition AllocatePage (s : BufferPoolManagerInstance)
  : option (BufferPoolManagerInstance * Z) :=
  if bool_decide (next_page_id_ s = INT_MAX) then None
  else Some (mkBPM (pages_ s) (replacer_ s) (page_table_ s) (free_list_ s)
                   (next_page_id_ s + 1) (disk_manager_ s),
             next_page_id_ s).

(** The frame selection shared, line for line, by [NewPgImp] and the miss
    path of [FetchPgImp]: take the front of the free list, or else evict,
    write the victim back when it is dirty, reset its memory and drop its
    page-table entry. *)
Definition acquire_frame (s : BufferPoolManagerInstance)
  : option (BufferPoolManagerInstance * Z) :=
  match free_list_ s with
  | frame_id :: rest =>
      Some (mkBPM (pages_ s) (replacer_ s) (page_table_ s) rest
                  (next_page_id_ s) (disk_manager_ s),
            frame_id)
  | [] =>
      let '(r, frame_id, _) := Evict (replacer_ s) in
      evicted_page ← page_at (pages_ s) frame_id;
      let evicted_page_id := page_id_ evicted_page in
      let '(disk, evicted_page) :=
        if is_dirty_ evicted_page
        then (WritePage (disk_manager_ s) evicted_page_id (data_ evicted_page),
              set_is_dirty false evicted_page)
        else (disk_manager_ s, evicted_page) in
      let evicted_page := ResetMemory evicted_page in
      Some (mkBPM (store_page (pages_ s) frame_id evicted_page) r
                  (delete evicted_page_id (page_table_ s)) []
                  (next_page_id_ s) disk,
            frame_id)
  end.

(** [NewPgImp(page_id_t *page_id) -> Page *]: the result is [None] for
    [nullptr], and otherwise the allocated page id with the index of the
    frame the returned pointer designates. *)
Definition NewPgImp (s : BufferPoolManagerInstance)
  : option (BufferPoolManagerInstance * option (Z * Z)) :=
  if bool_decide (num_free_pages (pages_ s) = 0%nat) then Some (s, None)
  else
    '(s, page_id) ← AllocatePage s;
    '(s, frame_id) ← acquire_frame s;
    let table := emplace page_id frame_id (page_table_ s) in
    page ← page_at (pages_ s) frame_id;
    let page := set_pin_count 1 (set_page_id page_id page) in
    let r := RecordAccess (replacer_ s) frame_id in
    let r := SetEvictable r frame_id false in
    Some (mkBPM (store_page (pages_ s) frame_id page) r table (free_list_ s)
                (next_page_id_ s) (disk_manager_ s),
          Some (page_id, frame_id)).

(** [FetchPgImp(page_id_t page_id) -> Page *]. *)
Definition FetchPgImp (s : BufferPoolManagerInstance) (page_id : Z)
  : option (BufferPoolManagerInstance * option Z) :=
  match page_table_ s !! page_id with
  | Some frame_id =>
      page ← page_at (pages_ s) frame_id;
      if bool_decide (pin_count_ page = INT_MAX) then None
      else
        let page := set_pin_count (pin_count_ page + 1) page in
        let r := RecordAccess (replacer_ s) frame_id in
        let r := SetEvictable r frame_id false in
        Some (mkBPM (store_page (pages_ s) frame_id page) r (page_table_ s)
                    (free_list_ s) (next_page_id_ s) (disk_manager_ s),
              Some frame_id)
  | None =>
      if bool_decide (num_free_pages (pages_ s) = 0%nat) then Some (s, None)
      else
        '(s, frame_id) ← acquire_frame s;
        let table := emplace page_id frame_id (page_table_ s) in
        page ← page_at (pages_ s) frame_id;
        let page := set_pin_count 1 (set_page_id page_id page) in
        let '(disk, bytes) := ReadPage (disk_manager_ s) page_id (data_ page) in
        let page := set_data bytes page in
        let r := RecordAccess (replacer_ s) frame_id in
        let r := SetEvictable r frame_id false in
        Some (mkBPM (store_page (pages_ s) frame_id page) r table (free_list_ s)
                    (next_page_id_ s) disk,
              Some frame_id)
  end.

(** [UnpinPgImp(page_id_t page_id, bool is_dirty) -> bool]. *)
Definition UnpinPgImp (s : BufferPoolManagerInstance) (page_id : Z) (is_dirty : bool)
  : option (BufferPoolManagerInstance * bool) :=
  match page_table_ s !! page_id with
  | None => Some (s, false)
  | Some frame_id =>
      page ← page_at (pages_ s) frame_id;
      if pin_count_ page <=? 0 then Some (s, false)
      else
        let page := if is_dirty then set_is_dirty is_dirty page else page in
        let page := set_pin_count (pin_count_ page - 1) page in
        let r := if pin_count_ page =? 0
                 then SetEvictable (replacer_ s) frame_id true
                 else replacer_ s in
        Some (mkBPM (store_page (pages_ s) frame_id page) r (page_table_ s)
                    (free_list_ s) (next_page_id_ s) (disk_manager_ s),
              true)
  end.

(** [FlushPgImp(page_id_t page_id) -> bool]. *)
Definition FlushPgImp (s : BufferPoolManagerInstance) (page_id : Z)
  : option (BufferPoolManagerInstance * bool) :=
  if page_id =? -1 then Some (s, false)
  else
    match page_table_ s !! page_id with
    | None => Some (s, false)
    | Some frame_id =>
        page ← page_at (pages_ s) frame_id;
        Some (mkBPM (pages_ s) (replacer_ s) (page_table_ s) (free_list_ s)
                    (next_page_id_ s)
                    (WritePage (disk_manager_ s) page_id (data_ page)),
              true)
    end.

(** [FlushAllPgsImp()]: one [FlushPgImp] per frame, in index order. *)
Definition FlushAllPgsImp (s : BufferPoolManagerInstance)
  : option BufferPoolManagerInstance :=
  foldl (λ acc (frame_id : nat),
           s ← acc;
           page ← page_at (pages_ s) (Z.of_nat frame_id);
           fst <$> FlushPgImp s (page_id_ page))
        (Some s) (seq 0 (length (pages_ s))).

(** [DeletePgImp(page_id_t page_id) -> bool]. *)
Definition DeletePgImp (s : BufferPoolManagerInstance) (page_id : Z)
  : option (BufferPoolManagerInstance * bool) :=
  match page_table_ s !! page_id with
  | None => Some (s, true)
  | Some frame_id =>
      page ← page_at (pages_ s) frame_id;
      if 0 <? pin_count_ page then Some (s, false)
      else
        let r := Remove (replacer_ s) frame_id in
        let page := ResetMemory page in
        let page := set_page_id INVALID_PAGE_ID page in
        let page := set_pin_count 0 page in
        let page := set_is_dirty false page in
        Some (mkBPM (store_page (pages_ s) frame_id page) r
                    (delete page_id (page_table_ s))
                    (free_list_ s ++ [frame_id])
                    (next_page_id_ s)
                    (DeallocatePage (disk_manager_ s) page_id),
              true)
  end.

(** A holder of a pin writes through the pointer it was handed: the byte
    buffer of a pinned frame is overwritten. *)
Definition write_bytes (s : BufferPoolManagerInstance) (frame_id : Z) (bytes : list byte)
  : option BufferPoolManagerInstance :=
  page ← page_at (pages_ s) frame_id;
  if (0 <? pin_count_ page) && bool_decide (length bytes = BUSTUB_PAGE_SIZE)
  then Some (mkBPM (store_page (pages_ s) frame_id (set_data bytes page))
                   (replacer_ s) (page_table_ s) (free_list_ s)
                   (next_page_id_ s) (disk_manager_ s))
  else None.

(** *** Runs of the pool *)

Inductive Op : Type :=
  | NewPage
  | FetchPage (page_id : Z)
  | UnpinPage (page_id : Z) (is_dirty : bool)
  | FlushPage (page_id : Z)
  | FlushAllPages
  | DeletePage (page_id : Z)
  | WriteBytes (frame_id : Z) (bytes : list byte).

(** One operation, keeping only the state it leaves. *)
Definition exec (s : BufferPoolManagerInstance) (o : Op)
  : option BufferPoolManagerInstance :=
  match o with
  | NewPage => fst <$> NewPgImp s
  | FetchPage p => fst <$> FetchPgImp s p
  | UnpinPage p d => fst <$> UnpinPgImp s p d
  | FlushPage p => fst <$> FlushPgImp s p
  | FlushAllPages => FlushAllPgsImp s
  | DeletePage p => fst <$> DeletePgImp s p
  | WriteBytes f b => write_bytes s f b
  end.

Definition run (s : BufferPoolManagerInstance) (ops : list Op)
  : option BufferPoolManagerInstance :=
  foldl (λ acc o, s ← acc; exec s o) (Some s) ops.

(** The states a pool of [pool_size] frames can be in, when every operation
    of the run satisfies [allowed] in the state it is called in.  Frame ids
    are [int]s, so the pool has at most [INT_MAX] frames. *)
Inductive reachable_by (allowed : BufferPoolManagerInstance → Op → Prop)
    (pool_size : nat) (k : Z) : BufferPoolManagerInstance → Prop :=
  | reachable_new d :
      Z.of_nat pool_size ≤ INT_MAX →
      reachable_by allowed pool_size k (new pool_size d k)
  | reachable_exec s o s' :
      reachable_by allowed pool_size k s → allowed s o → exec s o = Some s' →
      reachable_by allowed pool_size k s'.

(** Any sequence of operations, with any arguments. *)
Definition reachable : nat → Z → BufferPoolManagerInstance → Prop :=
  reachable_by (λ _ _, True).

(** The discipline under which page ids are only produced by [NewPgImp]:
    [FetchPgImp] is called with ids the allocator has already handed out. *)
Definition fetch_allocated (s : BufferPoolManagerInstance) (o : Op) : Prop :=
  match o with
  | FetchPage p => 0 ≤ p < next_page_id_ s
  | _ => True
  end.

Definition reachable_allocated : nat → Z → BufferPoolManagerInstance → Prop :=
  reachable_by fetch_allocated.

(** The state after [AllocatePage]. *)
Definition bump (s : BufferPoolManagerInstance) : BufferPoolManagerInstance :=
  mkBPM (pages_ s) (replacer_ s) (page_table_ s) (free_list_ s)
        (next_page_id_ s + 1) (disk_manager_ s).

(** Two states that differ at most in the disk manager. *)
Definition same_memory (s s' : BufferPoolManagerInstance) : Prop :=
  pages_ s' = pages_ s ∧ replacer_ s' = replacer_ s
  ∧ page_table_ s' = page_table_ s ∧ free_list_ s' = free_list_ s
  ∧ next_page_id_ s' = next_page_id_ s.

(** The state a fresh pool over an empty disk is in after [ops]; the fresh
    pool itself if the run is undefined. *)
Definition state_after (pool_size : nat) (k : Z) (ops : list Op)
  : BufferPoolManagerInstance :=
  default (new pool_size new_disk k) (run (new pool_size new_disk k) ops).

(** The frame holds no pin. *)
Definition unpinned (s : BufferPoolManagerInstance) (f : Z) : Prop :=
  ∃ pg, page_at (pages_ s) f = Some pg ∧ pin_count_ pg = 0.

(** The disk calls an eviction of page [pg] makes: one write-back of its
    bytes under its page id when it is dirty, none when it is clean. *)
Definition write_back (pg : Page) : list DiskCall :=
  if is_dirty_ pg then [WritePageCall (page_id_ pg) (data_ pg)] else [].

(** The executable form of [fetch_allocated]. *)
Definition fetch_allocated_b (s : BufferPoolManagerInstance) (o : Op) : bool :=
  match o with
  | FetchPage p => (0 <=? p) && (p <? next_page_id_ s)
  | _ => true
  end.

Definition run_allocated (s : BufferPoolManagerInstance) (ops : list Op)
  : option BufferPoolManagerInstance :=
  foldl (λ acc o, s ← acc; if fetch_allocated_b s o then exec s o else None)
        (Some s) ops.

(** *** Invariants of the pool *)

(** Maintained by every operation, whatever its arguments. *)
Record pool_inv (n : nat) (s : BufferPoolManagerInstance) : Prop := mk_pool_inv {
  inv_length : length (pages_ s) = n;
  inv_bound : Z.of_nat n ≤ INT_MAX;
  inv_size : replacer_size_ (replacer_ s) = Z.of_nat n;
  inv_pin : ∀ f pg, page_at (pages_ s) f = Some pg → 0 ≤ pin_count_ pg;
  inv_evictable : ∀ f, marked_evictable (replacer_ s) f →
      tracked (replacer_ s) f
      ∧ ∃ pg, page_at (pages_ s) f = Some pg ∧ pin_count_ pg = 0;
  inv_sentinel : ¬ tracked (replacer_ s) (-1);
  inv_table : ∀ p f, page_table_ s !! p = Some f →
      (f ∉ free_list_ s) ∧ tracked (replacer_ s) f
      ∧ ∃ pg, page_at (pages_ s) f = Some pg ∧ page_id_ pg = p;
  inv_free_nodup : NoDup (free_list_ s);
  inv_free : ∀ f, f ∈ free_list_ s → page_at (pages_ s) f = Some empty_page
}.

(** Maintained when [FetchPgImp] is only called on allocated page ids. *)
Record allocated_inv (s : BufferPoolManagerInstance) : Prop := mk_allocated_inv {
  ainv_next : 0 ≤ next_page_id_ s;
  ainv_keys : ∀ p f, page_table_ s !! p = Some f → 0 ≤ p < next_page_id_ s;
  ainv_resident : ∀ f pg, page_at (pages_ s) f = Some pg →
      page_id_ pg ≠ INVALID_PAGE_ID → page_table_ s !! page_id_ pg = Some f
}.

(** An unpinned frame is at hand: it is in the free list or marked
    evictable in the replacer. *)
Definition unpinned_at_hand (s : BufferPoolManagerInstance) : Prop :=
  ∀ f pg, page_at (pages_ s) f = Some pg → pin_count_ pg = 0 →
    f ∈ free_list_ s ∨ marked_evictable (replacer_ s) f.

(** The free list holds exactly the frames the replacer does not track, and
    a frame marked evictable is the frame of its page in the page table. *)
Record tracking_inv (n : nat) (s : BufferPoolManagerInstance) : Prop := mk_tracking_inv {
  tinv_free : ∀ f, f ∈ free_list_ s ↔
      0 ≤ f < Z.of_nat n ∧ ¬ tracked (replacer_ s) f;
  tinv_evictable : ∀ f, marked_evictable (replacer_ s) f →
      ∃ pg, page_at (pages_ s) f = Some pg ∧ page_table_ s !! page_id_ pg = Some f
}.

(** The indices of the frames that hold no pin, in index order. *)
Definition unpinned_frames (pages : list Page) : list Z :=
  (filter (λ x : Z * Page, pin_count_ x.2 = 0)
          (imap (λ (i : nat) (pg : Page), (Z.of_nat i, pg)) pages)).*1.

(** A frame taken out of circulation, ready to receive a page: unpinned,
    clean, zeroed, absent from the page table and from the free list. *)
Definition detached (s : BufferPoolManagerInstance) (f : Z) : Prop :=
  (∃ pg, page_at (pages_ s) f = Some pg
         ∧ pin_count_ pg = 0 ∧ is_dirty_ pg = false ∧ data_ pg = zeroed)
  ∧ (∀ p, page_table_ s !! p ≠ Some f)
  ∧ f ∉ free_list_ s.

End Pool.

Import Pool.

(** * Properties *)

(** ** Machine integers *)

Lemma size_incr_small (x : Z) : 0 ≤ x < SIZE_MAX → size_incr x = x + 1.
Proof.
  unfold size_incr, SIZE_MAX. intros H. apply Z.mod_small. lia.
Qed.

Lemma static_cast_int_small (x : Z) : 0 ≤ x ≤ INT_MAX → static_cast_int x = x.
Proof.
  unfold static_cast_int, INT_MAX. intros H.
  rewrite Z.mod_small by lia.
  destruct (Z.ltb_spec x (2 ^ 31)); lia.
Qed.

(** ** The replacer *)

Section scan.
Variable ev : gmap Z bool.

Lemma scan_step_cases (acc : Z * Z) (e : Z * list Z) :
  (can_evict ev e.1 = true ∧ front e.2 < acc.2
   ∧ scan_step ev acc e = (e.1, front e.2))
  ∨ ((can_evict ev e.1 = false ∨ acc.2 ≤ front e.2) ∧ scan_step ev acc e = acc).
Proof.
  unfold scan_step.
  destruct (can_evict ev e.1); simpl; [|right; auto].
  destruct (Z.ltb_spec (front e.2) acc.2); [left|right]; auto.
Qed.

(** The loop keeps the accumulator, or ends on an evictable entry older
    than the initial reference clock and no younger than any other
    evictable entry. *)
Lemma scan_list_spec (l : list (Z * list Z)) (acc : Z * Z) :
  (foldl (scan_step ev) acc l = acc
   ∧ ∀ e, e ∈ l → can_evict ev e.1 = true → acc.2 ≤ front e.2)
  ∨ (∃ e, e ∈ l ∧ can_evict ev e.1 = true
          ∧ foldl (scan_step ev) acc l = (e.1, front e.2)
          ∧ front e.2 < acc.2
          ∧ ∀ e', e' ∈ l → can_evict ev e'.1 = true → front e.2 ≤ front e'.2).
Proof.
  revert acc. induction l as [|e l IH]; intros acc; simpl.
  - left. split; [done|]. intros e He. by apply elem_of_nil in He.
  - destruct (scan_step_cases acc e) as [(Hc & Hlt & ->)|[Hno ->]].
    + right.
      destruct (IH (e.1, front e.2))
        as [[Hres Hall]|(e2 & He2 & Hc2 & Hres & Hlt2 & Hmin)]; simpl in *.
      * exists e. split_and!; [apply elem_of_cons; by left|done..|].
        intros e' [->|He']%elem_of_cons Hc'; [lia|]. by apply Hall.
      * exists e2. split_and!; [apply elem_of_cons; by right|done|done|lia|].
        intros e' [->|He']%elem_of_cons Hc'; [lia|]. by apply Hmin.
    + destruct (IH acc) as [[Hres Hall]|(e2 & He2 & Hc2 & Hres & Hlt2 & Hmin)].
      * left. split; [done|].
        intros e' [->|He']%elem_of_cons Hc'; [|by apply Hall].
        destruct Hno; [congruence|lia].
      * right. exists e2. split_and!; [apply elem_of_cons; by right|done..|].
        intros e' [->|He']%elem_of_cons Hc'; [|by apply Hmin].
        destruct Hno; [congruence|lia].
Qed.

Lemma scan_spec (q : gmap Z (list Z)) (acc : Z * Z) :
  (scan ev q acc = acc
   ∧ ∀ f h, q !! f = Some h → is_Some (ev !! f) → acc.2 ≤ front h)
  ∨ (∃ f h, q !! f = Some h ∧ is_Some (ev !! f)
            ∧ scan ev q acc = (f, front h)
            ∧ front h < acc.2
            ∧ ∀ g hg, q !! g = Some hg → is_Some (ev !! g) → front h ≤ front hg).
Proof.
  unfold scan.
  destruct (scan_list_spec (map_to_list q) acc)
    as [[Hres Hall]|([f h] & He & Hc & Hres & Hlt & Hmin)].
  - left. split; [done|]. intros f h Hq Hev.
    apply (Hall (f, h)); [by apply elem_of_map_to_list|].
    by apply bool_decide_eq_true.
  - right. exists f, h. simpl in *.
    apply elem_of_map_to_list in He. apply bool_decide_eq_true in Hc.
    split_and!; try done.
    intros g hg Hq Hev.
    apply (Hmin (g, hg)); [by apply elem_of_map_to_list|].
    by apply bool_decide_eq_true.
Qed.
End scan.

Lemma foldr_min_id (x : Z) (l : list Z) :
  Forall (λ y, x ≤ y) l → foldr Z.min x l = x.
Proof.
  induction 1 as [|y l Hy Hl IH]; simpl; [done|]. rewrite IH. lia.
Qed.

Lemma front_in (h : list Z) : h ≠ [] → front h ∈ h.
Proof. destruct h; [done|]. intros _. simpl. apply elem_of_cons. by left. Qed.

Lemma earliest_front (c : Z) (h : list Z) : history_ok c h → earliest h = front h.
Proof.
  intros (Hne & Hs & _). unfold earliest.
  destruct h as [|x t]; [done|]. simpl.
  apply StronglySorted_inv in Hs as [_ Hall].
  rewrite foldr_min_id; [lia|].
  eapply Forall_impl; [exact Hall|]. simpl. intros; lia.
Qed.

Lemma history_front_lt (c : Z) (h : list Z) : history_ok c h → 0 ≤ front h < c.
Proof. intros (Hne & _ & Hb). apply Hb. by apply front_in. Qed.

Lemma scan_empty ev acc : scan ev ∅ acc = acc.
Proof. unfold scan. by rewrite map_to_list_empty. Qed.


Lemma RecordAccess_rejected (r : LRUKReplacer) (f : Z) :
  ¬ accepted r f → RecordAccess r f = r.
Proof.
  unfold accepted, RecordAccess. intros H.
  destruct (Z.leb_spec (static_cast_int (replacer_size_ r)) f); [done|].
  destruct (Z.eqb_spec f (-1)); [done|]. simpl. lia.
Qed.

Lemma RecordAccess_evictable (r : LRUKReplacer) (f : Z) :
  evictable_ (RecordAccess r f) = evictable_ r.
Proof.
  unfold RecordAccess. repeat case_match; done.
Qed.

Lemma RecordAccess_size (r : LRUKReplacer) (f : Z) :
  replacer_size_ (RecordAccess r f) = replacer_size_ r.
Proof.
  unfold RecordAccess. repeat case_match; done.
Qed.

Lemma RecordAccess_tracked (r : LRUKReplacer) (f g : Z) :
  tracked (RecordAccess r f) g ↔ tracked r g ∨ (g = f ∧ accepted r f).
Proof.
  destruct (decide (accepted r f)) as [Ha|Hn].
  2:{ rewrite RecordAccess_rejected by done. tauto. }
  unfold RecordAccess, tracked.
  destruct Ha as [Ha1 Ha2].
  destruct (Z.leb_spec (static_cast_int (replacer_size_ r)) f); [lia|].
  destruct (Z.eqb_spec f (-1)); [done|]. simpl.
  destruct (lru_cache_queue_ r !! f) eqn:Hc; [|case_match]; simpl;
    destruct (decide (g = f)) as [->|Hne];
    rewrite ?lookup_insert_eq, ?lookup_delete_eq, ?Hc;
    rewrite ?lookup_insert_ne, ?lookup_delete_ne by done;
    unfold accepted; split; intros; try tauto; eauto.
Qed.

Lemma SetEvictable_queues (r : LRUKReplacer) (f : Z) (b : bool) :
  preliminary_queue_ (SetEvictable r f b) = preliminary_queue_ r
  ∧ lru_cache_queue_ (SetEvictable r f b) = lru_cache_queue_ r
  ∧ replacer_size_ (SetEvictable r f b) = replacer_size_ r.
Proof. unfold SetEvictable. repeat case_match; done. Qed.

Lemma SetEvictable_tracked (r : LRUKReplacer) (f g : Z) (b : bool) :
  tracked (SetEvictable r f b) g ↔ tracked r g.
Proof.
  unfold tracked. destruct (SetEvictable_queues r f b) as (-> & -> & _). done.
Qed.

Lemma contains_tracked (r : LRUKReplacer) (f : Z) :
  negb (contains (preliminary_queue_ r) f) && negb (contains (lru_cache_queue_ r) f) = false
  ↔ tracked r f.
Proof.
  unfold contains, tracked.
  repeat case_bool_decide; simpl; split; intros; try done; tauto.
Qed.

Lemma SetEvictable_marked (r : LRUKReplacer) (f g : Z) (b : bool) :
  marked_evictable (SetEvictable r f b) g ↔
    if decide (g = f ∧ tracked r f) then b = true else marked_evictable r g.
Proof.
  unfold SetEvictable, marked_evictable.
  change (preliminary_queue_ (tick r)) with (preliminary_queue_ r).
  change (lru_cache_queue_ (tick r)) with (lru_cache_queue_ r).
  destruct (negb (contains (preliminary_queue_ r) f) && negb (contains (lru_cache_queue_ r) f)) eqn:Hc.
  - assert (¬ tracked r f) by (rewrite <- contains_tracked; congruence).
    case_decide; [tauto|]. done.
  - apply contains_tracked in Hc.
    destruct b; simpl; case_decide as Hd.
    + destruct Hd as [-> _]. rewrite lookup_insert_eq. split; eauto.
    + rewrite lookup_insert_ne; [done|]. intros ->. tauto.
    + destruct Hd as [-> _]. rewrite lookup_delete_eq. split; [intros [? ?]|]; done.
    + rewrite lookup_delete_ne; [done|]. intros ->. tauto.
Qed.

Lemma Remove_tracked (r : LRUKReplacer) (f g : Z) :
  tracked (Remove r f) g ↔ tracked r g ∧ g ≠ f.
Proof.
  unfold Remove, tracked; simpl.
  destruct (decide (g = f)) as [->|Hne].
  - rewrite !lookup_delete_eq. split; [intros [[? ?]|[? ?]]; done|tauto].
  - rewrite !lookup_delete_ne by done. tauto.
Qed.

Lemma Remove_marked (r : LRUKReplacer) (f g : Z) :
  marked_evictable (Remove r f) g ↔ marked_evictable r g ∧ g ≠ f.
Proof.
  unfold Remove, marked_evictable; simpl.
  destruct (decide (g = f)) as [->|Hne].
  - rewrite !lookup_delete_eq. split; [intros [? ?]; done|tauto].
  - rewrite !lookup_delete_ne by done. tauto.
Qed.

Lemma scan_result (ev : gmap Z bool) (q : gmap Z (list Z)) (acc : Z * Z) :
  scan ev q acc = acc
  ∨ (is_Some (q !! (scan ev q acc).1) ∧ is_Some (ev !! (scan ev q acc).1)).
Proof.
  destruct (scan_spec ev q acc) as [[-> _]|(f & h & Hq & Hev & -> & _)];
    [by left|right]. simpl. split; [by eexists|done].
Qed.

(** What [Evict] does to the replacer, whatever the state. *)
Lemma Evict_shape (r r' : LRUKReplacer) (f : Z) (b : bool) :
  Evict r = (r', f, b) →
  replacer_size_ r' = replacer_size_ r
  ∧ (b = false → f = -1 ∧ r' = tick r)
  ∧ (b = true →
       evictable_ r' = delete f (evictable_ r)
       ∧ tracked r f
       ∧ (marked_evictable r f ∨ (f = -1 ∧ tracked r (-1)))
       ∧ ∀ g, g ≠ f →
           preliminary_queue_ r' !! g = preliminary_queue_ r !! g
           ∧ lru_cache_queue_ r' !! g = lru_cache_queue_ r !! g).
Proof.
  unfold Evict.
  change (preliminary_queue_ (tick r)) with (preliminary_queue_ r).
  change (lru_cache_queue_ (tick r)) with (lru_cache_queue_ r).
  change (evictable_ (tick r)) with (evictable_ r).
  case_match; [intros [= <- <- <-]; split_and!; done|].
  set (acc0 := (-1, clock_ (tick r))).
  set (acc1 := if bool_decide (preliminary_queue_ r = ∅) then acc0
               else scan (evictable_ r) (preliminary_queue_ r) acc0).
  assert (Hacc1 : acc1 = acc0
                  ∨ (is_Some (preliminary_queue_ r !! acc1.1) ∧ is_Some (evictable_ r !! acc1.1))).
  { unfold acc1. case_bool_decide; [by left|]. apply scan_result. }
  unfold contains.
  destruct (bool_decide (is_Some (preliminary_queue_ r !! acc1.1))) eqn:Hin;
    [apply bool_decide_eq_true in Hin|apply bool_decide_eq_false in Hin].
  - intros [= <- <- <-]. simpl. split_and!; try done. intros _. split_and!; try done.
    + by left.
    + destruct Hacc1 as [Heq|[_ ?]]; [right|by left].
      rewrite Heq in Hin |- *. simpl in *. split; [done|by left].
    + intros g Hg. by rewrite lookup_delete_ne.
  - set (acc2 := scan (evictable_ r) (lru_cache_queue_ r) acc1).
    assert (Hacc2 : acc2 = acc1
                    ∨ (is_Some (lru_cache_queue_ r !! acc2.1) ∧ is_Some (evictable_ r !! acc2.1)))
      by apply scan_result.
    assert (acc1 = acc0) as Ha1 by (destruct Hacc1 as [?|[? _]]; done).
    destruct (bool_decide (acc2.1 ≠ -1)) eqn:Hne;
      [apply bool_decide_eq_true in Hne|apply bool_decide_eq_false in Hne].
    + intros [= <- <- <-]. simpl. split_and!; try done. intros _.
      destruct Hacc2 as [Heq|[? ?]].
      { rewrite Heq, Ha1 in Hne. done. }
      split_and!; try done.
      * by right.
      * by left.
      * intros g Hg. by rewrite lookup_delete_ne.
    + intros [= <- <- <-]. split_and!; try done. intros _.
      split; [|done]. destruct (decide (acc2.1 = -1)); [done|]. done.
Qed.

Lemma wf_history_ok (r : LRUKReplacer) (f : Z) (h : list Z) :
  wf r → history_of r f h → history_ok (clock_ r) h.
Proof.
  intros Hwf [Hp|Hc].
  - by destruct (wf_preliminary r Hwf f h Hp).
  - by destruct (wf_mature r Hwf f h Hc).
Qed.

Lemma wf_partitioned (r : LRUKReplacer) : wf r → partitioned r.
Proof.
  intros Hwf. split; intros f h Hq.
  - destruct (wf_preliminary r Hwf f h Hq) as [(Hne & _) Hlen].
    split; [|done]. destruct h; [done|]. simpl. lia.
  - destruct (wf_mature r Hwf f h Hq) as [(Hne & _) Hlen].
    destruct h; [done|]. simpl in *. lia.
Qed.

(** Two frames never share their oldest timestamp. *)
Lemma distinct_fronts (r : LRUKReplacer) (f g : Z) (hf hg : list Z) :
  wf r → history_of r f hf → history_of r g hg → g ≠ f → front hf ≠ front hg.
Proof.
  intros Hwf Hf Hg Hne Heq. apply Hne. symmetry.
  apply (wf_distinct r Hwf f g hf hg (front hf)); [done..| |].
  - apply front_in. by destruct (wf_history_ok r f hf Hwf Hf).
  - rewrite Heq. apply front_in. by destruct (wf_history_ok r g hg Hwf Hg).
Qed.

(** [Evict] on a well-formed state. *)
Lemma Evict_wf_spec (r : LRUKReplacer) :
  wf r →
  ∃ r' f b, Evict r = (r', f, b)
    ∧ (clock_ r' = clock_ r + 1 ∧ k_ r' = k_ r
       ∧ replacer_size_ r' = replacer_size_ r)
    ∧ if b
      then lru_k_victim r f ∧ forgotten r' f ∧ others_kept r r' f
      else f = -1 ∧ r' = tick r ∧ ∀ g, marked_evictable r g → ¬ tracked r g.
Proof.
  intros Hwf.
  pose proof (λ f g hf hg, distinct_fronts r f g hf hg Hwf) as Hfronts.
  destruct Hwf as [Hclk Hdis [Hs1 Hs2] Hpre Hmat Hdist Hev].
  assert (Hc1 : size_incr (clock_ r) = clock_ r + 1) by (by apply size_incr_small).
  assert (Hnop : ∀ f h, preliminary_queue_ r !! f = Some h → front h < clock_ r).
  { intros f h Hq. apply Hpre in Hq as [Hh _]. apply history_front_lt in Hh. lia. }
  assert (Hnom : ∀ f h, lru_cache_queue_ r !! f = Some h → front h < clock_ r).
  { intros f h Hq. apply Hmat in Hq as [Hh _]. apply history_front_lt in Hh. lia. }
  unfold Evict.
  set (r1 := tick r).
  change (preliminary_queue_ r1) with (preliminary_queue_ r).
  change (lru_cache_queue_ r1) with (lru_cache_queue_ r).
  change (evictable_ r1) with (evictable_ r).
  change (clock_ r1) with (size_incr (clock_ r)). rewrite Hc1.
  destruct (bool_decide (preliminary_queue_ r = ∅) && bool_decide (lru_cache_queue_ r = ∅)) eqn:Hempty.
  { apply andb_true_iff in Hempty as [He1%bool_decide_eq_true He2%bool_decide_eq_true].
    exists r1, (-1), false. split_and!; try done.
    intros g _ [[h Hg]|[h Hg]]; [rewrite He1 in Hg|rewrite He2 in Hg]; by rewrite lookup_empty in Hg. }
  assert (Hscan1 : (if bool_decide (preliminary_queue_ r = ∅) then (-1, clock_ r + 1)
                    else scan (evictable_ r) (preliminary_queue_ r) (-1, clock_ r + 1))
                   = scan (evictable_ r) (preliminary_queue_ r) (-1, clock_ r + 1)).
  { case_bool_decide as He; [|done]. rewrite He. by rewrite scan_empty. }
  rewrite Hscan1. clear Hscan1.
  destruct (scan_spec (evictable_ r) (preliminary_queue_ r) (-1, clock_ r + 1))
    as [[-> Hnone]|(f & h & Hq & Hevf & -> & Hlt & Hmin)]; simpl.
  - (* no evictable preliminary frame *)
    assert (Hnoprel : ∀ g hg, ¬ evictable_preliminary r g hg).
    { intros g hg [Hg Hevg]. specialize (Hnone g hg Hg Hevg). simpl in Hnone.
      specialize (Hnop g hg Hg). lia. }
    unfold contains. rewrite Hs1. rewrite bool_decide_eq_false_2 by (by intros [? ?]).
    destruct (scan_spec (evictable_ r) (lru_cache_queue_ r) (-1, clock_ r + 1))
      as [[-> Hnone2]|(f & h & Hq & Hevf & -> & Hlt & Hmin)]; simpl.
    + exists r1, (-1), false.
      split_and!; try done.
      intros g Hevg [[hg Hg]|[hg Hg]].
      * by eapply Hnoprel.
      * specialize (Hnone2 g hg Hg Hevg). simpl in Hnone2.
        specialize (Hnom g hg Hg). lia.
    + assert (f ≠ -1) by (intros ->; congruence).
      rewrite bool_decide_eq_true_2 by done.
      eexists _, f, true. split; [reflexivity|]. split; [by split_and!|].
      split_and!.
      * right. split; [done|]. exists h. split; [done|].
        intros g hg [Hg Hevg].
        rewrite (earliest_front (clock_ r) h) by (by apply (Hmat f)).
        rewrite (earliest_front (clock_ r) hg) by (by apply (Hmat g)).
        pose proof (Hmin g hg Hg Hevg). split; [done|]. intros Hne.
        assert (front h ≠ front hg) by (apply (Hfronts f g); [by right..|done]).
        lia.
      * unfold forgotten; simpl. rewrite !lookup_delete_eq. split_and!; try done.
        destruct (preliminary_queue_ r !! f) eqn:Hp; [|done].
        exfalso. assert (lru_cache_queue_ r !! f = None) by (apply Hdis; rewrite Hp; by eexists).
        congruence.
      * intros g Hg; simpl. by rewrite !lookup_delete_ne.
  - unfold contains. rewrite bool_decide_eq_true_2 by (by eexists).
    eexists _, f, true. split; [reflexivity|]. split; [by split_and!|].
    split_and!.
    + left. exists h. split; [done|].
      intros g hg [Hg Hevg].
      rewrite (earliest_front (clock_ r) h) by (by apply (Hpre f)).
      rewrite (earliest_front (clock_ r) hg) by (by apply (Hpre g)).
      pose proof (Hmin g hg Hg Hevg). split; [done|]. intros Hne.
      assert (front h ≠ front hg) by (apply (Hfronts f g); [by left..|done]).
      lia.
    + unfold forgotten; simpl. rewrite !lookup_delete_eq. split_and!; try done.
      apply Hdis. by eexists.
    + intros g Hg; simpl. by rewrite !lookup_delete_ne.
Qed.

(** ** Runs of the replacer stay well formed *)

Lemma history_ok_mono (c c' : Z) (h : list Z) :
  c ≤ c' → history_ok c h → history_ok c' h.
Proof.
  intros Hc (Hne & Hs & Hb). split_and!; [done..|].
  intros t Ht. specialize (Hb t Ht). lia.
Qed.

(** A history that was in order at the old clock, with its length bound, is
    in order at the advanced clock. *)
Ltac older :=
  match goal with
  | H : history_ok ?c ?h |- history_ok _ ?h ∧ _ =>
      split; [eapply history_ok_mono; [|exact H]; lia|assumption]
  end.


Lemma history_ok_push (c : Z) (h : list Z) :
  0 ≤ c → (h = [] ∨ history_ok c h) → history_ok (c + 1) (h ++ [c]).
Proof.
  intros Hc Hh. split_and!.
  - by destruct h.
  - destruct Hh as [->|(_ & Hs & Hb)]; simpl.
    + repeat constructor.
    + apply StronglySorted_app; split_and!; [|done|repeat constructor].
      intros x y Hx Hy%list_elem_of_singleton. specialize (Hb x Hx). lia.
  - intros t [Ht|Hs%list_elem_of_singleton]%elem_of_app; [|lia].
    destruct Hh as [->|(_ & _ & Hb)]; [by apply elem_of_nil in Ht|].
    specialize (Hb t Ht). lia.
Qed.

Lemma history_ok_pop (c : Z) (h : list Z) :
  history_ok c h → pop_front h = [] ∨ history_ok c (pop_front h).
Proof.
  intros (Hne & Hs & Hb). destruct h as [|x t]; [done|]. simpl.
  destruct t as [|y t]; [by left|right].
  split_and!; [done| |].
  - by apply StronglySorted_inv in Hs as [? _].
  - intros z Hz. apply Hb. by right.
Qed.

Lemma length_pop_push (h : list Z) (c : Z) :
  h ≠ [] → length (pop_front h ++ [c]) = length h.
Proof. destruct h; [done|]. intros _. simpl. rewrite length_app. simpl. lia. Qed.

Lemma history_bound (r : LRUKReplacer) (f : Z) (h : list Z) (t : Z) :
  wf r → history_of r f h → t ∈ h → 0 ≤ t < clock_ r.
Proof.
  intros Hwf Hf Ht. destruct (wf_history_ok r f h Hwf Hf) as (_ & _ & Hb). by apply Hb.
Qed.

(** Recording an access at the current clock keeps timestamps apart: the
    history of the frame gains the clock value and may lose old timestamps,
    the other histories stay. *)
Lemma distinct_push (r r' : LRUKReplacer) (f : Z) (h' : list Z) :
  wf r →
  (∀ g hg, history_of r' g hg → (g = f ∧ hg = h') ∨ (g ≠ f ∧ history_of r g hg)) →
  (∀ t, t ∈ h' → t = clock_ r ∨ ∃ h0, history_of r f h0 ∧ t ∈ h0) →
  ∀ a b ha hb t, history_of r' a ha → history_of r' b hb → t ∈ ha → t ∈ hb → a = b.
Proof.
  intros Hwf Hhist Hnew.
  assert (Hmixed : ∀ b hb t, b ≠ f → history_of r b hb → t ∈ h' → t ∈ hb → False).
  { intros b hb t Hne Hb Ht Htb. destruct (Hnew t Ht) as [->|(h0 & Hf & Ht0)].
    - pose proof (history_bound r b hb _ Hwf Hb Htb). lia.
    - apply Hne. symmetry. by apply (wf_distinct r Hwf f b h0 hb t). }
  intros a b ha hb t Ha Hb Hta Htb.
  destruct (Hhist a ha Ha) as [[-> ->]|[Hna Ha']],
           (Hhist b hb Hb) as [[-> ->]|[Hnb Hb']].
  - done.
  - by destruct (Hmixed b hb t).
  - by destruct (Hmixed a ha t).
  - by apply (wf_distinct r Hwf a b ha hb t).
Qed.

(** Dropping histories keeps timestamps apart. *)
Lemma distinct_subset (r r' : LRUKReplacer) :
  wf r →
  (∀ g hg, history_of r' g hg → history_of r g hg) →
  ∀ a b ha hb t, history_of r' a ha → history_of r' b hb → t ∈ ha → t ∈ hb → a = b.
Proof.
  intros Hwf Hsub a b ha hb t Ha%Hsub Hb%Hsub. by apply (wf_distinct r Hwf).
Qed.

Lemma wf_RecordAccess (r : LRUKReplacer) (f : Z) :
  wf r → clock_ r + 1 < SIZE_MAX → wf (RecordAccess r f).
Proof.
  intros Hwf Hroom.
  destruct (decide (accepted r f)) as [[Ha1 Ha2]|Hn];
    [|by rewrite RecordAccess_rejected].
  pose proof Hwf as Hwf0.
  destruct Hwf as [Hclk Hdis [Hs1 Hs2] Hpre Hmat Hdist Hev].
  assert (Hc1 : size_incr (clock_ r) = clock_ r + 1) by (by apply size_incr_small).
  assert (Htr : ∀ g, marked_evictable (RecordAccess r f) g → tracked (RecordAccess r f) g).
  { intros g Hg. apply RecordAccess_tracked. left. apply Hev.
    unfold marked_evictable in *. by rewrite RecordAccess_evictable in Hg. }
  revert Htr. unfold RecordAccess.
  destruct (Z.leb_spec (static_cast_int (replacer_size_ r)) f); [lia|].
  destruct (Z.eqb_spec f (-1)); [done|]. simpl.
  destruct (lru_cache_queue_ r !! f) as [h|] eqn:Hc.
  - (* the frame is mature *)
    destruct (Hmat f h Hc) as [Hok Hlen].
    intros Htr. split; simpl; rewrite ?Hc1; try done.
    + lia.
    + intros g Hg. destruct (decide (g = f)) as [->|Hne].
      * rewrite (Hdis f Hg) in Hc. done.
      * rewrite lookup_insert_ne by done. by apply Hdis.
    + split; [done|]. by rewrite lookup_insert_ne.
    + intros g hg Hg. destruct (Hpre g hg Hg) as [? ?].
      by older.
    + intros g hg. destruct (decide (g = f)) as [->|Hne].
      * rewrite lookup_insert_eq. intros [= <-]. split.
        -- apply history_ok_push; [lia|]. by apply history_ok_pop.
        -- rewrite length_pop_push; [done|]. by destruct Hok.
      * rewrite lookup_insert_ne by done. intros Hg.
        destruct (Hmat g hg Hg) as [? ?].
        by older.
    + apply (distinct_push r _ f (pop_front h ++ [clock_ r]) Hwf0).
      * intros g hg [Hg|Hg]; simpl in Hg.
        -- right. split; [|by left]. intros ->.
           rewrite (Hdis f) in Hc; [done|by eexists].
        -- destruct (decide (g = f)) as [->|Hne].
           ++ rewrite lookup_insert_eq in Hg. left. split; [done|congruence].
           ++ rewrite lookup_insert_ne in Hg by done. right. split; [done|by right].
      * intros t [Ht|Ht%list_elem_of_singleton]%elem_of_app; [right|by left].
        exists h. split; [by right|]. destruct h; [done|]. simpl in Ht. by right.
  - (* the frame is preliminary or new *)
    set (h' := default [] (preliminary_queue_ r !! f) ++ [clock_ r]).
    assert (Hok' : history_ok (clock_ r + 1) h').
    { apply history_ok_push; [lia|].
      destruct (preliminary_queue_ r !! f) as [h0|] eqn:Hp; simpl; [right|by left].
      by apply (Hpre f). }
    assert (Hnew' : ∀ t, t ∈ h' → t = clock_ r ∨ ∃ h0, history_of r f h0 ∧ t ∈ h0).
    { intros t [Ht|Ht%list_elem_of_singleton]%elem_of_app; [right|by left].
      destruct (preliminary_queue_ r !! f) as [h0|] eqn:Hp; simpl in Ht;
        [|by apply elem_of_nil in Ht].
      exists h0. split; [by left|done]. }
    assert (Hlen' : Z.of_nat (length h') ≤ Z.max (k_ r) 1).
    { unfold h'. rewrite length_app. simpl.
      destruct (preliminary_queue_ r !! f) as [h0|] eqn:Hp; simpl; [|lia].
      destruct (Hpre f h0 Hp) as [_ ?]. lia. }
    destruct (Z.leb_spec (k_ r) (Z.of_nat (length h'))) as [Hk|Hk];
      intros Htr; split; simpl; rewrite ?Hc1; try done.
    + lia.
    + intros g Hg. destruct (decide (g = f)) as [->|Hne].
      * rewrite lookup_delete_eq in Hg. by destruct Hg.
      * rewrite lookup_delete_ne in Hg by done.
        rewrite lookup_insert_ne by done. by apply Hdis.
    + split; [by rewrite lookup_delete_ne|by rewrite lookup_insert_ne].
    + intros g hg. destruct (decide (g = f)) as [->|Hne].
      * by rewrite lookup_delete_eq.
      * rewrite lookup_delete_ne by done. intros Hg.
        destruct (Hpre g hg Hg) as [? ?].
        by older.
    + intros g hg. destruct (decide (g = f)) as [->|Hne].
      * rewrite lookup_insert_eq. intros [= <-]. done.
      * rewrite lookup_insert_ne by done. intros Hg.
        destruct (Hmat g hg Hg) as [? ?].
        by older.
    + apply (distinct_push r _ f h' Hwf0); [|done].
      intros g hg [Hg|Hg]; simpl in Hg.
      * destruct (decide (g = f)) as [->|Hne]; [by rewrite lookup_delete_eq in Hg|].
        rewrite lookup_delete_ne in Hg by done. right. split; [done|by left].
      * destruct (decide (g = f)) as [->|Hne].
        -- rewrite lookup_insert_eq in Hg. left. split; [done|congruence].
        -- rewrite lookup_insert_ne in Hg by done. right. split; [done|by right].
    + lia.
    + intros g Hg. destruct (decide (g = f)) as [->|Hne]; [done|].
      rewrite lookup_insert_ne in Hg by done. by apply Hdis.
    + split; [by rewrite lookup_insert_ne|done].
    + intros g hg. destruct (decide (g = f)) as [->|Hne].
      * rewrite lookup_insert_eq. intros [= <-]. done.
      * rewrite lookup_insert_ne by done. intros Hg.
        destruct (Hpre g hg Hg) as [? ?].
        by older.
    + intros g hg Hg. destruct (Hmat g hg Hg) as [? ?].
      by older.
    + apply (distinct_push r _ f h' Hwf0); [|done].
      intros g hg [Hg|Hg]; simpl in Hg.
      * destruct (decide (g = f)) as [->|Hne].
        -- rewrite lookup_insert_eq in Hg. left. split; [done|congruence].
        -- rewrite lookup_insert_ne in Hg by done. right. split; [done|by left].
      * right. split; [|by right]. intros ->. congruence.
Qed.

Lemma wf_SetEvictable (r : LRUKReplacer) (f : Z) (b : bool) :
  wf r → clock_ r + 1 < SIZE_MAX → wf (SetEvictable r f b).
Proof.
  intros Hwf Hroom.
  assert (Htr : ∀ g, marked_evictable (SetEvictable r f b) g → tracked (SetEvictable r f b) g).
  { intros g Hg. apply SetEvictable_tracked. apply SetEvictable_marked in Hg.
    case_decide as Hd; [by destruct Hd as [-> ?]|]. by apply Hwf. }
  pose proof Hwf as Hwf0.
  destruct Hwf as [Hclk Hdis [Hs1 Hs2] Hpre Hmat Hdist Hev].
  assert (Hc1 : size_incr (clock_ r) = clock_ r + 1) by (by apply size_incr_small).
  assert (Hclock : clock_ (SetEvictable r f b) = clock_ r + 1 ∧ k_ (SetEvictable r f b) = k_ r).
  { unfold SetEvictable. repeat case_match; done. }
  destruct Hclock as [Hclock Hk].
  destruct (SetEvictable_queues r f b) as (Hq1 & Hq2 & _).
  split; rewrite ?Hq1, ?Hq2, ?Hclock, ?Hk; try done.
  - lia.
  - intros g hg Hg. destruct (Hpre g hg Hg) as [? ?].
    by older.
  - intros g hg Hg. destruct (Hmat g hg Hg) as [? ?].
    by older.
  - apply (distinct_subset r _ Hwf0). intros g hg. unfold history_of.
    by rewrite Hq1, Hq2.
Qed.

Lemma wf_Remove (r : LRUKReplacer) (f : Z) :
  wf r → clock_ r + 1 < SIZE_MAX → wf (Remove r f).
Proof.
  intros Hwf Hroom.
  assert (Htr : ∀ g, marked_evictable (Remove r f) g → tracked (Remove r f) g).
  { intros g [Hg ?]%Remove_marked. apply Remove_tracked. split; [|done]. by apply Hwf. }
  pose proof Hwf as Hwf0.
  destruct Hwf as [Hclk Hdis [Hs1 Hs2] Hpre Hmat Hdist Hev].
  assert (Hc1 : size_incr (clock_ r) = clock_ r + 1) by (by apply size_incr_small).
  split; simpl; rewrite ?Hc1; try done.
  - lia.
  - intros g Hg. destruct (decide (g = f)) as [->|Hne].
    + by rewrite lookup_delete_eq.
    + rewrite lookup_delete_ne in Hg |- * by done. by apply Hdis.
  - split.
    + destruct (decide (-1 = f)) as [<-|Hne];
        [by rewrite lookup_delete_eq|by rewrite lookup_delete_ne].
    + destruct (decide (-1 = f)) as [<-|Hne];
        [by rewrite lookup_delete_eq|by rewrite lookup_delete_ne].
  - intros g hg. destruct (decide (g = f)) as [->|Hne]; [by rewrite lookup_delete_eq|].
    rewrite lookup_delete_ne by done. intros Hg. destruct (Hpre g hg Hg) as [? ?].
    by older.
  - intros g hg. destruct (decide (g = f)) as [->|Hne]; [by rewrite lookup_delete_eq|].
    rewrite lookup_delete_ne by done. intros Hg. destruct (Hmat g hg Hg) as [? ?].
    by older.
  - apply (distinct_subset r _ Hwf0).
    intros g hg [Hg|Hg]; simpl in Hg;
      (destruct (decide (g = f)) as [->|Hne];
       [by rewrite lookup_delete_eq in Hg|rewrite lookup_delete_ne in Hg by done]);
      [by left|by right].
Qed.

Lemma wf_tick (r : LRUKReplacer) :
  wf r → clock_ r + 1 < SIZE_MAX → wf (tick r).
Proof.
  intros Hwf Hroom. pose proof Hwf as Hwf0.
  destruct Hwf as [Hclk Hdis [Hs1 Hs2] Hpre Hmat Hdist Hev].
  assert (Hc1 : size_incr (clock_ r) = clock_ r + 1) by (by apply size_incr_small).
  split; simpl; rewrite ?Hc1; try done.
  - lia.
  - intros g hg Hg. destruct (Hpre g hg Hg) as [? ?].
    by older.
  - intros g hg Hg. destruct (Hmat g hg Hg) as [? ?].
    by older.
Qed.

Lemma wf_Evict (r : LRUKReplacer) :
  wf r → clock_ r + 1 < SIZE_MAX → wf (Evict r).1.1.
Proof.
  intros Hwf Hroom.
  destruct (Evict_wf_spec r Hwf) as (r' & f & b & -> & (Hclock & Hk & _) & Hb). simpl.
  destruct b; [|destruct Hb as (_ & -> & _); by apply wf_tick].
  destruct Hb as (_ & (Hf1 & Hf2 & Hf3) & Hoth).
  pose proof Hwf as Hwf0.
  destruct Hwf as [Hclk Hdis [Hs1 Hs2] Hpre Hmat Hdist Hev].
  split; rewrite ?Hclock, ?Hk.
  - lia.
  - intros g Hg. destruct (decide (g = f)) as [->|Hne]; [done|].
    destruct (Hoth g Hne) as (Ho1 & Ho2 & _). rewrite Ho1 in Hg. rewrite Ho2. by apply Hdis.
  - destruct (decide (-1 = f)) as [<-|Hne]; [done|].
    destruct (Hoth (-1) Hne) as (-> & -> & _). done.
  - intros g hg. destruct (decide (g = f)) as [->|Hne]; [by rewrite Hf1|].
    destruct (Hoth g Hne) as (-> & _ & _). intros Hg. destruct (Hpre g hg Hg) as [? ?].
    by older.
  - intros g hg. destruct (decide (g = f)) as [->|Hne]; [by rewrite Hf2|].
    destruct (Hoth g Hne) as (_ & -> & _). intros Hg. destruct (Hmat g hg Hg) as [? ?].
    by older.
  - apply (distinct_subset r _ Hwf0). intros g hg. unfold history_of.
    destruct (decide (g = f)) as [->|Hne]; [rewrite Hf1, Hf2; by intros [?|?]|].
    destruct (Hoth g Hne) as (-> & -> & _). done.
  - intros g [x Hg]. destruct (decide (g = f)) as [->|Hne]; [congruence|].
    destruct (Hoth g Hne) as (Ho1 & Ho2 & Ho3).
    unfold tracked. rewrite Ho1, Ho2. apply Hev. exists x. by rewrite <- Ho3.
Qed.

Lemma wf_new (num_frames k : Z) : wf (Replacer.new num_frames k).
Proof.
  split; simpl; try done.
  - intros f g hf hg t [Hf|Hf]; simpl in Hf; by rewrite lookup_empty in Hf.
  - intros f [x Hf]. simpl in Hf. by rewrite lookup_empty in Hf.
Qed.

Lemma apply_op_clock (r : LRUKReplacer) (o : ReplacerOp) :
  0 ≤ clock_ r < SIZE_MAX → clock_ (apply_op r o) ≤ clock_ r + 1.
Proof.
  intros Hc.
  assert (Hc1 : size_incr (clock_ r) = clock_ r + 1) by (by apply size_incr_small).
  destruct o; simpl.
  - unfold Evict. repeat case_match; simpl; lia.
  - unfold RecordAccess. repeat case_match; simpl; lia.
  - unfold SetEvictable. repeat case_match; simpl; lia.
  - lia.
Qed.

Lemma wf_apply_op (r : LRUKReplacer) (o : ReplacerOp) :
  wf r → clock_ r + 1 < SIZE_MAX → wf (apply_op r o).
Proof.
  intros Hwf Hroom. destruct o; simpl.
  - by apply wf_Evict.
  - by apply wf_RecordAccess.
  - by apply wf_SetEvictable.
  - by apply wf_Remove.
Qed.

(** A run keeps a well-formed state well formed as long as the clock has
    room for it. *)
Lemma wf_replay_from (r : LRUKReplacer) (ops : list ReplacerOp) :
  wf r → clock_ r + Z.of_nat (length ops) < SIZE_MAX →
  wf (replay r ops)
  ∧ clock_ (replay r ops) ≤ clock_ r + Z.of_nat (length ops).
Proof.
  intros Hwf. unfold replay. induction ops as [|o ops IH] using rev_ind; intros Hlen.
  - split; [done|simpl; lia].
  - rewrite length_app in Hlen. simpl in Hlen.
    rewrite foldl_app. simpl.
    destruct IH as [IH1 IH2]; [lia|].
    split.
    + apply wf_apply_op; [done|lia].
    + rewrite length_app. simpl.
      pose proof (apply_op_clock _ o (wf_clock _ IH1)). lia.
Qed.

(** As long as fewer than [SIZE_MAX] operations have run, the clock has not
    wrapped around and the state is well formed. *)
Lemma wf_replay (num_frames k : Z) (ops : list ReplacerOp) :
  Z.of_nat (length ops) < SIZE_MAX →
  wf (replay (Replacer.new num_frames k) ops)
  ∧ clock_ (replay (Replacer.new num_frames k) ops) ≤ Z.of_nat (length ops).
Proof.
  intros Hlen. apply (wf_replay_from (Replacer.new num_frames k) ops); [apply wf_new|done].
Qed.

(** ** The frame array *)

Lemma page_at_range (pages : list Page) (f : Z) (pg : Page) :
  page_at pages f = Some pg → 0 ≤ f < Z.of_nat (length pages).
Proof.
  unfold page_at. destruct (Z.ltb_spec f 0); [done|].
  intros Hl%lookup_lt_Some. lia.
Qed.

Lemma page_at_in_range (pages : list Page) (f : Z) :
  0 ≤ f < Z.of_nat (length pages) → is_Some (page_at pages f).
Proof.
  unfold page_at. intros Hr. destruct (Z.ltb_spec f 0); [lia|].
  apply lookup_lt_is_Some. lia.
Qed.

Lemma page_at_store_eq (pages : list Page) (f : Z) (pg : Page) :
  is_Some (page_at pages f) → page_at (store_page pages f pg) f = Some pg.
Proof.
  intros [old Hold]. pose proof (page_at_range _ _ _ Hold).
  unfold page_at, store_page in *. destruct (Z.ltb_spec f 0); [lia|].
  apply list_lookup_insert_eq. lia.
Qed.

Lemma page_at_store_ne (pages : list Page) (f g : Z) (pg : Page) :
  is_Some (page_at pages f) → g ≠ f →
  page_at (store_page pages f pg) g = page_at pages g.
Proof.
  intros [old Hold] Hne. pose proof (page_at_range _ _ _ Hold).
  unfold page_at, store_page in *. destruct (Z.ltb_spec g 0); [done|].
  apply list_lookup_insert_ne. lia.
Qed.

Lemma page_at_store (pages : list Page) (f g : Z) (pg : Page) :
  is_Some (page_at pages f) →
  page_at (store_page pages f pg) g = if decide (g = f) then Some pg else page_at pages g.
Proof.
  intros H. case_decide as Hd.
  - subst. by apply page_at_store_eq.
  - by apply page_at_store_ne.
Qed.

Lemma length_store_page (pages : list Page) (f : Z) (pg : Page) :
  length (store_page pages f pg) = length pages.
Proof. apply length_insert. Qed.

(** ** The invariant holds initially *)

Lemma new_free_list (n : nat) :
  Z.of_nat n ≤ INT_MAX →
  (λ i : nat, static_cast_int (Z.of_nat i)) <$> seq 0 n = Z.of_nat <$> seq 0 n.
Proof.
  intros Hn. apply list_fmap_ext. intros i x Hx.
  apply lookup_seq in Hx as [-> ?]. apply static_cast_int_small. lia.
Qed.

Lemma pool_inv_new (n : nat) (d : DiskManager) (k : Z) :
  Z.of_nat n ≤ INT_MAX → pool_inv n (Pool.new n d k).
Proof.
  intros Hn. split; simpl; try done.
  - apply length_replicate.
  - intros f pg Hf. unfold page_at in Hf. case_match; [done|].
    apply lookup_replicate in Hf as [-> _]. done.
  - intros f [? Hf]. simpl in Hf. by rewrite lookup_empty in Hf.
  - intros [[? Hf]|[? Hf]]; simpl in Hf; by rewrite lookup_empty in Hf.
  - rewrite new_free_list by done.
    apply NoDup_fmap; [intros ?? ?; lia|]. apply NoDup_seq.
  - rewrite new_free_list by done.
    intros f (i & -> & Hi)%list_elem_of_fmap.
    apply elem_of_seq in Hi.
    unfold page_at. destruct (Z.ltb_spec (Z.of_nat i) 0); [lia|].
    rewrite Nat2Z.id. apply lookup_replicate. split; [done|lia].
Qed.

Lemma allocated_inv_new (n : nat) (d : DiskManager) (k : Z) :
  allocated_inv (Pool.new n d k).
Proof.
  split; simpl; try done.
  intros f pg Hf. unfold page_at in Hf. case_match; [done|].
  apply lookup_replicate in Hf as [-> _]. done.
Qed.
(** ** Frame selection *)

(** The two ways [acquire_frame] succeeds. *)
Lemma acquire_frame_cases (s s1 : BufferPoolManagerInstance) (f : Z) :
  acquire_frame s = Some (s1, f) →
  (∃ rest, free_list_ s = f :: rest
     ∧ s1 = mkBPM (pages_ s) (replacer_ s) (page_table_ s) rest
                  (next_page_id_ s) (disk_manager_ s))
  ∨ (free_list_ s = []
     ∧ ∃ r' b pg, Evict (replacer_ s) = (r', f, b)
         ∧ page_at (pages_ s) f = Some pg
         ∧ s1 = mkBPM (store_page (pages_ s) f
                         (mkPage zeroed (page_id_ pg) (pin_count_ pg) false))
                      r' (delete (page_id_ pg) (page_table_ s)) []
                      (next_page_id_ s)
                      (if is_dirty_ pg
                       then WritePage (disk_manager_ s) (page_id_ pg) (data_ pg)
                       else disk_manager_ s)).
Proof.
  unfold acquire_frame. destruct (free_list_ s) as [|f0 rest] eqn:Hfl.
  - destruct (Evict (replacer_ s)) as [[r' fe] b] eqn:HE.
    destruct (page_at (pages_ s) fe) as [pg|] eqn:Hpg; simpl; [|done].
    intros Heq. right. split; [done|]. exists r', b, pg.
    destruct (is_dirty_ pg) eqn:Hd; unfold ResetMemory, set_is_dirty in Heq;
      simpl in Heq; injection Heq as <- <-; rewrite ?Hd; done.
  - intros [= <- <-]. left. by exists rest.
Qed.

Lemma acquire_frame_inv (n : nat) (s s1 : BufferPoolManagerInstance) (f : Z) :
  pool_inv n s → acquire_frame s = Some (s1, f) →
  pool_inv n s1 ∧ detached s1 f.
Proof.
  intros [Hlen Hb Hsz Hpin Hev Hsent Htab Hnd Hfree] Hacq.
  apply acquire_frame_cases in Hacq
    as [(rest & Hfl & ->)|(Hfl & r' & b & pg & HE & Hpg & ->)].
  - rewrite Hfl in *.
    apply NoDup_cons in Hnd as [Hnotin Hnd'].
    split; [split; simpl; try done|].
    + intros p g Hp. destruct (Htab p g Hp) as (Hg & ? & ?).
      split; [|done]. intros ?. apply Hg. by right.
    + intros g Hg. apply Hfree. by right.
    + split_and!; simpl; [|intros p Hp|done].
      * exists empty_page. split; [|done]. apply Hfree. by left.
      * destruct (Htab p f Hp) as (Hg & _). apply Hg. by left.
  - pose proof (page_at_range _ _ _ Hpg) as Hrange.
    destruct (Evict_shape _ _ _ _ HE) as (Hsz' & Hfalse & Htrue).
    destruct b; [|destruct Hfalse as [-> _]; [done|lia]].
    destruct Htrue as (Hevd & Htr & Hmk & Hoth); [done|].
    destruct Hmk as [Hmk|[-> _]]; [|lia].
    destruct (Hev f Hmk) as (_ & pg0 & Hpg0 & Hpin0).
    assert (pg0 = pg) as -> by congruence.
    assert (Hsome : is_Some (page_at (pages_ s) f)) by (by eexists).
    assert (Htr' : ∀ g, g ≠ f → tracked r' g ↔ tracked (replacer_ s) g).
    { intros g Hg. unfold tracked. destruct (Hoth g Hg) as [-> ->]. done. }
    split; [split; simpl; try done|].
    + by rewrite length_store_page.
    + congruence.
    + intros g pg'. rewrite page_at_store by done. case_decide.
      * intros [= <-]. simpl. lia.
      * apply Hpin.
    + intros g [x Hg]. rewrite Hevd in Hg.
      destruct (decide (g = f)) as [->|Hne]; [by rewrite lookup_delete_eq in Hg|].
      rewrite lookup_delete_ne in Hg by done.
      destruct (Hev g) as (? & pg' & ? & ?); [by eexists|].
      split; [by apply Htr'|]. exists pg'. by rewrite page_at_store_ne.
    + intros Ht. apply Hsent. apply Htr'; [lia|done].
    + intros p g Hp.
      destruct (decide (p = page_id_ pg)) as [->|Hne]; [by rewrite lookup_delete_eq in Hp|].
      rewrite lookup_delete_ne in Hp by done.
      destruct (Htab p g Hp) as (_ & ? & pg' & Hpg' & Hid).
      assert (g ≠ f) by (intros ->; congruence).
      split_and!; [by intros ?%elem_of_nil|by apply Htr'|].
      exists pg'. by rewrite page_at_store_ne.
    + apply NoDup_nil_2.
    + intros g ?%elem_of_nil. done.
    + split_and!; simpl; [|intros p Hp|by intros ?%elem_of_nil].
      * eexists. rewrite page_at_store_eq by done. done.
      * destruct (decide (p = page_id_ pg)) as [->|Hne]; [by rewrite lookup_delete_eq in Hp|].
        rewrite lookup_delete_ne in Hp by done.
        destruct (Htab p f Hp) as (_ & ? & pg' & Hpg' & Hid). congruence.
Qed.

(** Installing a page into a detached frame, as [NewPgImp] and the miss
    path of [FetchPgImp] do. *)
Lemma install_inv (n : nat) (s : BufferPoolManagerInstance) (f p : Z) (pg : Page)
    (nx : Z) (d : DiskManager) :
  pool_inv n s → detached s f → page_id_ pg = p → pin_count_ pg = 1 →
  pool_inv n (mkBPM (store_page (pages_ s) f pg)
                    (SetEvictable (RecordAccess (replacer_ s) f) f false)
                    (emplace p f (page_table_ s)) (free_list_ s) nx d).
Proof.
  intros [Hlen Hb Hsz Hpin Hev Hsent Htab Hnd Hfree]
         ((pg0 & Hpg0 & _) & Hnotab & Hnofree) Hid Hpc.
  assert (Hsome : is_Some (page_at (pages_ s) f)) by (by eexists).
  pose proof (page_at_range _ _ _ Hpg0) as Hrange.
  assert (Hacc : accepted (replacer_ s) f).
  { unfold accepted. rewrite Hsz, static_cast_int_small by lia. lia. }
  split; simpl; try done.
  - by rewrite length_store_page.
  - destruct (SetEvictable_queues (RecordAccess (replacer_ s) f) f false) as (_ & _ & ->).
    by rewrite RecordAccess_size.
  - intros g pg'. rewrite page_at_store by done. case_decide.
    + intros [= <-]. lia.
    + apply Hpin.
  - intros g Hg. apply SetEvictable_marked in Hg.
    rewrite SetEvictable_tracked, RecordAccess_tracked.
    case_decide as Hd; [done|].
    assert (g ≠ f) as Hne.
    { intros ->. apply Hd. split; [done|]. apply RecordAccess_tracked. by right. }
    unfold marked_evictable in Hg. rewrite RecordAccess_evictable in Hg.
    destruct (Hev g Hg) as (? & pg' & ? & ?).
    split; [by left|]. exists pg'. by rewrite page_at_store_ne.
  - rewrite SetEvictable_tracked, RecordAccess_tracked.
    intros [?|[Heq _]]; [done|lia].
  - intros q g Hq. rewrite SetEvictable_tracked, RecordAccess_tracked.
    unfold emplace in Hq. destruct (page_table_ s !! p) eqn:Hp.
    + destruct (Htab q g Hq) as (? & ? & pg' & ? & ?).
      assert (g ≠ f) by (intros ->; by apply (Hnotab q)).
      split_and!; [done|by left|]. exists pg'. by rewrite page_at_store_ne.
    + destruct (decide (q = p)) as [->|Hne].
      * rewrite lookup_insert_eq in Hq. injection Hq as <-.
        split_and!; [done|by right|]. exists pg. by rewrite page_at_store_eq.
      * rewrite lookup_insert_ne in Hq by done.
        destruct (Htab q g Hq) as (? & ? & pg' & ? & ?).
        assert (g ≠ f) by (intros ->; by apply (Hnotab q)).
        split_and!; [done|by left|]. exists pg'. by rewrite page_at_store_ne.
  - intros g Hg. rewrite page_at_store_ne; [by apply Hfree|done|].
    intros ->. done.
Qed.

(** ** The shape of each pool operation *)

Lemma NewPgImp_cases (s s' : BufferPoolManagerInstance) (res : option (Z * Z)) :
  NewPgImp s = Some (s', res) →
  (num_free_pages (pages_ s) = 0%nat ∧ s' = s ∧ res = None)
  ∨ (num_free_pages (pages_ s) ≠ 0%nat ∧ next_page_id_ s ≠ INT_MAX
     ∧ ∃ s1 f pg,
         acquire_frame (bump s) = Some (s1, f)
         ∧ page_at (pages_ s1) f = Some pg
         ∧ res = Some (next_page_id_ s, f)
         ∧ s' = mkBPM (store_page (pages_ s1) f
                         (mkPage (data_ pg) (next_page_id_ s) 1 (is_dirty_ pg)))
                      (SetEvictable (RecordAccess (replacer_ s1) f) f false)
                      (emplace (next_page_id_ s) f (page_table_ s1))
                      (free_list_ s1) (next_page_id_ s1) (disk_manager_ s1)).
Proof.
  unfold NewPgImp. case_bool_decide as Hfree.
  { intros [= <- <-]. by left. }
  unfold AllocatePage. case_bool_decide as Hmax; [done|]. simpl.
  fold (bump s).
  destruct (acquire_frame (bump s)) as [[s1 f]|] eqn:Hacq; simpl; [|done].
  destruct (page_at (pages_ s1) f) as [pg|] eqn:Hpg; simpl; [|done].
  intros [= <- <-]. right. split_and!; [done..|].
  exists s1, f, pg. done.
Qed.

Lemma FetchPgImp_cases (s s' : BufferPoolManagerInstance) (p : Z) (res : option Z) :
  FetchPgImp s p = Some (s', res) →
  (∃ f pg, page_table_ s !! p = Some f ∧ page_at (pages_ s) f = Some pg
     ∧ pin_count_ pg ≠ INT_MAX ∧ res = Some f
     ∧ s' = mkBPM (store_page (pages_ s) f (set_pin_count (pin_count_ pg + 1) pg))
                  (SetEvictable (RecordAccess (replacer_ s) f) f false)
                  (page_table_ s) (free_list_ s) (next_page_id_ s) (disk_manager_ s))
  ∨ (page_table_ s !! p = None ∧ num_free_pages (pages_ s) = 0%nat
     ∧ s' = s ∧ res = None)
  ∨ (page_table_ s !! p = None ∧ num_free_pages (pages_ s) ≠ 0%nat
     ∧ ∃ s1 f pg,
         acquire_frame s = Some (s1, f)
         ∧ page_at (pages_ s1) f = Some pg
         ∧ res = Some f
         ∧ s' = mkBPM (store_page (pages_ s1) f
                         (mkPage (ReadPage (disk_manager_ s1) p (data_ pg)).2
                                 p 1 (is_dirty_ pg)))
                      (SetEvictable (RecordAccess (replacer_ s1) f) f false)
                      (emplace p f (page_table_ s1))
                      (free_list_ s1) (next_page_id_ s1)
                      (ReadPage (disk_manager_ s1) p (data_ pg)).1).
Proof.
  unfold FetchPgImp. destruct (page_table_ s !! p) as [f|] eqn:Hp.
  - destruct (page_at (pages_ s) f) as [pg|] eqn:Hpg; simpl; [|done].
    case_bool_decide as Hmax; [done|].
    intros [= <- <-]. left. exists f, pg. done.
  - case_bool_decide as Hfree.
    { intros [= <- <-]. right. by left. }
    destruct (acquire_frame s) as [[s1 f]|] eqn:Hacq; simpl; [|done].
    destruct (page_at (pages_ s1) f) as [pg|] eqn:Hpg; simpl; [|done].
    intros [= <- <-]. right. right. split_and!; [done..|].
    exists s1, f, pg. done.
Qed.

Lemma UnpinPgImp_cases (s s' : BufferPoolManagerInstance) (p : Z) (d b : bool) :
  UnpinPgImp s p d = Some (s', b) →
  (page_table_ s !! p = None ∧ s' = s ∧ b = false)
  ∨ (∃ f pg, page_table_ s !! p = Some f ∧ page_at (pages_ s) f = Some pg
       ∧ ((pin_count_ pg ≤ 0 ∧ s' = s ∧ b = false)
          ∨ (0 < pin_count_ pg ∧ b = true
             ∧ s' = mkBPM (store_page (pages_ s) f
                             (mkPage (data_ pg) (page_id_ pg) (pin_count_ pg - 1)
                                     (if d then true else is_dirty_ pg)))
                          (if pin_count_ pg - 1 =? 0
                           then SetEvictable (replacer_ s) f true
                           else replacer_ s)
                          (page_table_ s) (free_list_ s) (next_page_id_ s)
                          (disk_manager_ s)))).
Proof.
  unfold UnpinPgImp. destruct (page_table_ s !! p) as [f|] eqn:Hp.
  2:{ intros [= <- <-]. by left. }
  destruct (page_at (pages_ s) f) as [pg|] eqn:Hpg; simpl; [|done].
  right. exists f, pg. split_and!; [done..|].
  destruct (Z.leb_spec (pin_count_ pg) 0).
  - injection H as <- <-. by left.
  - injection H as <- <-. right. split_and!; [done..|].
    destruct d; done.
Qed.

Lemma FlushPgImp_cases (s s' : BufferPoolManagerInstance) (p : Z) (b : bool) :
  FlushPgImp s p = Some (s', b) →
  ((p = -1 ∨ page_table_ s !! p = None) ∧ s' = s ∧ b = false)
  ∨ (p ≠ -1 ∧ b = true
     ∧ ∃ f pg, page_table_ s !! p = Some f ∧ page_at (pages_ s) f = Some pg
         ∧ s' = mkBPM (pages_ s) (replacer_ s) (page_table_ s) (free_list_ s)
                      (next_page_id_ s)
                      (WritePage (disk_manager_ s) p (data_ pg))).
Proof.
  unfold FlushPgImp. destruct (Z.eqb_spec p (-1)).
  { intros [= <- <-]. left. auto. }
  destruct (page_table_ s !! p) as [f|] eqn:Hp.
  2:{ intros [= <- <-]. left. auto. }
  destruct (page_at (pages_ s) f) as [pg|] eqn:Hpg; simpl; [|done].
  intros [= <- <-]. right. split_and!; [done..|]. by exists f, pg.
Qed.

Lemma DeletePgImp_cases (s s' : BufferPoolManagerInstance) (p : Z) (b : bool) :
  DeletePgImp s p = Some (s', b) →
  (page_table_ s !! p = None ∧ s' = s ∧ b = true)
  ∨ (∃ f pg, page_table_ s !! p = Some f ∧ page_at (pages_ s) f = Some pg
       ∧ ((0 < pin_count_ pg ∧ s' = s ∧ b = false)
          ∨ (pin_count_ pg ≤ 0 ∧ b = true
             ∧ s' = mkBPM (store_page (pages_ s) f empty_page)
                          (Remove (replacer_ s) f)
                          (delete p (page_table_ s))
                          (free_list_ s ++ [f]) (next_page_id_ s)
                          (DeallocatePage (disk_manager_ s) p)))).
Proof.
  unfold DeletePgImp. destruct (page_table_ s !! p) as [f|] eqn:Hp.
  2:{ intros [= <- <-]. by left. }
  destruct (page_at (pages_ s) f) as [pg|] eqn:Hpg; simpl; [|done].
  right. exists f, pg. split_and!; [done..|].
  destruct (Z.ltb_spec 0 (pin_count_ pg)).
  - injection H as <- <-. by left.
  - injection H as <- <-. right. done.
Qed.

Lemma write_bytes_cases (s s' : BufferPoolManagerInstance) (f : Z) (bytes : list byte) :
  write_bytes s f bytes = Some s' →
  ∃ pg, page_at (pages_ s) f = Some pg ∧ 0 < pin_count_ pg
    ∧ length bytes = BUSTUB_PAGE_SIZE
    ∧ s' = mkBPM (store_page (pages_ s) f (set_data bytes pg))
                 (replacer_ s) (page_table_ s) (free_list_ s)
                 (next_page_id_ s) (disk_manager_ s).
Proof.
  unfold write_bytes.
  destruct (page_at (pages_ s) f) as [pg|] eqn:Hpg; simpl; [|done].
  destruct (Z.ltb_spec 0 (pin_count_ pg)); simpl; [|done].
  case_bool_decide; [|done]. intros [= <-]. by exists pg.
Qed.

Lemma FlushPgImp_same_memory (s s' : BufferPoolManagerInstance) (p : Z) (b : bool) :
  FlushPgImp s p = Some (s', b) → same_memory s s'.
Proof.
  intros [(_ & -> & _)|(_ & _ & f & pg & _ & _ & ->)]%FlushPgImp_cases;
    by repeat split.
Qed.

Lemma flush_fold_None (l : list nat) :
  foldl (λ acc (frame_id : nat),
           s ← acc;
           page ← page_at (pages_ s) (Z.of_nat frame_id);
           fst <$> FlushPgImp s (page_id_ page)) None l = None.
Proof. induction l; simpl; done. Qed.

Lemma flush_fold_same_memory (l : list nat) (s0 s' : BufferPoolManagerInstance) :
  foldl (λ acc (frame_id : nat),
           s ← acc;
           page ← page_at (pages_ s) (Z.of_nat frame_id);
           fst <$> FlushPgImp s (page_id_ page)) (Some s0) l = Some s' →
  same_memory s0 s'.
Proof.
  revert s0. induction l as [|i l IH]; intros s0; simpl.
  - intros [= <-]. by repeat split.
  - destruct (page_at (pages_ s0) (Z.of_nat i)) as [pg|]; simpl;
      [|by rewrite flush_fold_None].
    destruct (FlushPgImp s0 (page_id_ pg)) as [[s1 b]|] eqn:Hfl; simpl;
      [|by rewrite flush_fold_None].
    intros H1%IH. apply FlushPgImp_same_memory in Hfl.
    destruct H1 as (? & ? & ? & ? & ?), Hfl as (? & ? & ? & ? & ?).
    split_and!; congruence.
Qed.

Lemma FlushAllPgsImp_same_memory (s s' : BufferPoolManagerInstance) :
  FlushAllPgsImp s = Some s' → same_memory s s'.
Proof. apply flush_fold_same_memory. Qed.

Lemma pool_inv_same_memory (n : nat) (s s' : BufferPoolManagerInstance) :
  same_memory s s' → pool_inv n s → pool_inv n s'.
Proof.
  destruct s, s'. intros (? & ? & ? & ? & ?) [? ? ? ? ? ? ? ? ?]; simpl in *; subst.
  split; done.
Qed.
(** ** Every operation maintains the invariant *)

Section preservation.
Variable n : nat.

Lemma pool_inv_bump (s : BufferPoolManagerInstance) :
  pool_inv n s → pool_inv n (bump s).
Proof. intros [? ? ? ? ? ? ? ? ?]. split; done. Qed.

Lemma NewPgImp_inv (s s' : BufferPoolManagerInstance) (res : option (Z * Z)) :
  pool_inv n s → NewPgImp s = Some (s', res) → pool_inv n s'.
Proof.
  intros Hinv [(_ & -> & _)|(_ & _ & s1 & f & pg & Hacq & Hpg & _ & ->)]%NewPgImp_cases;
    [done|].
  apply pool_inv_bump in Hinv.
  destruct (acquire_frame_inv _ _ _ _ Hinv Hacq) as [Hinv1 Hdet].
  by apply install_inv.
Qed.

(** Touching a resident frame: the pin count goes up or the bytes change,
    and the replacer is told of an access or left alone. *)
Lemma FetchPgImp_inv (s s' : BufferPoolManagerInstance) (p : Z) (res : option Z) :
  pool_inv n s → FetchPgImp s p = Some (s', res) → pool_inv n s'.
Proof.
  intros Hinv
    [(f & pg & Hp & Hpg & _ & _ & ->)
    |[(_ & _ & -> & _)|(_ & _ & s1 & f & pg & Hacq & Hpg & _ & ->)]]%FetchPgImp_cases;
    [|done|].
  - destruct Hinv as [Hlen Hb Hsz Hpin Hev Hsent Htab Hnd Hfree].
    assert (Hsome : is_Some (page_at (pages_ s) f)) by (by eexists).
    pose proof (page_at_range _ _ _ Hpg) as Hrange.
    destruct (Htab p f Hp) as (Hnf & Htr & _).
    split; simpl; try done.
    + by rewrite length_store_page.
    + destruct (SetEvictable_queues (RecordAccess (replacer_ s) f) f false) as (_ & _ & ->).
      by rewrite RecordAccess_size.
    + intros g pg'. rewrite page_at_store by done. case_decide.
      * intros [= <-]. simpl. specialize (Hpin f pg Hpg). lia.
      * apply Hpin.
    + intros g Hg. apply SetEvictable_marked in Hg.
      rewrite SetEvictable_tracked, RecordAccess_tracked.
      case_decide as Hd; [done|].
      assert (g ≠ f) as Hne.
      { intros ->. apply Hd. split; [done|]. apply RecordAccess_tracked. by left. }
      unfold marked_evictable in Hg. rewrite RecordAccess_evictable in Hg.
      destruct (Hev g Hg) as (? & pg' & ? & ?).
      split; [by left|]. exists pg'. by rewrite page_at_store_ne.
    + rewrite SetEvictable_tracked, RecordAccess_tracked.
      intros [?|[Heq _]]; [done|lia].
    + intros q g Hq. rewrite SetEvictable_tracked, RecordAccess_tracked.
      destruct (Htab q g Hq) as (? & ? & pg' & Hpg' & Hid).
      split_and!; [done|by left|].
      rewrite page_at_store by done. case_decide as Hd; [|by exists pg'].
      subst g. eexists. split; [done|]. simpl. congruence.
    + intros g Hg. rewrite page_at_store_ne; [by apply Hfree|done|].
      intros ->. done.
  - destruct (acquire_frame_inv _ _ _ _ Hinv Hacq) as [Hinv1 Hdet].
    by apply install_inv.
Qed.

Lemma UnpinPgImp_inv (s s' : BufferPoolManagerInstance) (p : Z) (d b : bool) :
  pool_inv n s → UnpinPgImp s p d = Some (s', b) → pool_inv n s'.
Proof.
  intros Hinv
    [(_ & -> & _)|(f & pg & Hp & Hpg & [(_ & -> & _)|(Hpos & _ & ->)])]%UnpinPgImp_cases;
    [done..|].
  destruct Hinv as [Hlen Hb Hsz Hpin Hev Hsent Htab Hnd Hfree].
  assert (Hsome : is_Some (page_at (pages_ s) f)) by (by eexists).
  destruct (Htab p f Hp) as (Hnf & Htr & _).
  assert (Hnotev : ¬ marked_evictable (replacer_ s) f).
  { intros (_ & pg' & ? & ?)%Hev. assert (pg' = pg) by congruence. subst. lia. }
  split; simpl; try done.
  - by rewrite length_store_page.
  - case_match; [|done]. by destruct (SetEvictable_queues (replacer_ s) f true) as (_ & _ & ->).
  - intros g pg'. rewrite page_at_store by done. case_decide.
    + intros [= <-]. simpl. lia.
    + apply Hpin.
  - intros g Hg.
    assert (tracked (replacer_ s) g
            ∧ (g = f ∧ pin_count_ pg - 1 = 0 ∨ g ≠ f ∧ marked_evictable (replacer_ s) g))
      as [Htg Hcase].
    { destruct (Z.eqb_spec (pin_count_ pg - 1) 0).
      - apply SetEvictable_marked in Hg. case_decide as Hd.
        + destruct Hd as [-> ?]. split; [done|]. by left.
        + destruct (decide (g = f)) as [->|]; [done|].
          split; [by apply Hev|]. by right.
      - destruct (decide (g = f)) as [->|]; [done|].
        split; [by apply Hev|]. by right. }
    split.
    { case_match; [by apply SetEvictable_tracked|done]. }
    rewrite page_at_store by done. case_decide as Hd.
    + eexists. split; [done|]. simpl. destruct Hcase as [[_ ?]|[? _]]; done.
    + destruct Hcase as [[? _]|[_ Hm]]; [done|].
      by destruct (Hev g Hm) as (_ & ?).
  - case_match; [by rewrite SetEvictable_tracked|done].
  - intros q g Hq.
    destruct (Htab q g Hq) as (? & ? & pg' & Hpg' & Hid).
    split_and!; [done|case_match; [by apply SetEvictable_tracked|done]|].
    rewrite page_at_store by done. case_decide as Hd; [|by exists pg'].
    subst g. eexists. split; [done|]. simpl. congruence.
  - intros g Hg. rewrite page_at_store_ne; [by apply Hfree|done|].
    intros ->. done.
Qed.

Lemma DeletePgImp_inv (s s' : BufferPoolManagerInstance) (p : Z) (b : bool) :
  pool_inv n s → DeletePgImp s p = Some (s', b) → pool_inv n s'.
Proof.
  intros Hinv
    [(_ & -> & _)|(f & pg & Hp & Hpg & [(_ & -> & _)|(Hpos & _ & ->)])]%DeletePgImp_cases;
    [done..|].
  destruct Hinv as [Hlen Hb Hsz Hpin Hev Hsent Htab Hnd Hfree].
  assert (Hsome : is_Some (page_at (pages_ s) f)) by (by eexists).
  destruct (Htab p f Hp) as (Hnf & Htr & pg0 & Hpg0 & Hid0).
  assert (pg0 = pg) by congruence. subst pg0.
  split; simpl; try done.
  - by rewrite length_store_page.
  - intros g pg'. rewrite page_at_store by done. case_decide.
    + intros [= <-]. done.
    + apply Hpin.
  - intros g [Hg Hne]%Remove_marked.
    destruct (Hev g Hg) as (? & pg' & ? & ?).
    split; [by apply Remove_tracked|]. exists pg'. by rewrite page_at_store_ne.
  - intros [? _]%Remove_tracked. done.
  - intros q g Hq.
    destruct (decide (q = p)) as [->|Hne]; [by rewrite lookup_delete_eq in Hq|].
    rewrite lookup_delete_ne in Hq by done.
    destruct (Htab q g Hq) as (? & ? & pg' & Hpg' & Hid).
    assert (g ≠ f) by (intros ->; congruence).
    split_and!.
    + intros [?|?%list_elem_of_singleton]%elem_of_app; done.
    + by apply Remove_tracked.
    + exists pg'. by rewrite page_at_store_ne.
  - apply NoDup_app. split_and!; [done| |apply NoDup_singleton].
    intros g Hg ?%list_elem_of_singleton. by subst.
  - intros g [Hg|Hs%list_elem_of_singleton]%elem_of_app.
    + rewrite page_at_store_ne; [by apply Hfree|done|]. intros ->. done.
    + subst g. by rewrite page_at_store_eq.
Qed.

Lemma write_bytes_inv (s s' : BufferPoolManagerInstance) (f : Z) (bytes : list byte) :
  pool_inv n s → write_bytes s f bytes = Some s' → pool_inv n s'.
Proof.
  intros Hinv (pg & Hpg & Hpos & _ & ->)%write_bytes_cases.
  destruct Hinv as [Hlen Hb Hsz Hpin Hev Hsent Htab Hnd Hfree].
  assert (Hsome : is_Some (page_at (pages_ s) f)) by (by eexists).
  split; simpl; try done.
  - by rewrite length_store_page.
  - intros g pg'. rewrite page_at_store by done. case_decide.
    + intros [= <-]. simpl. lia.
    + apply Hpin.
  - intros g Hg. destruct (Hev g Hg) as (? & pg' & Hpg' & ?).
    split; [done|]. exists pg'. split; [|done].
    rewrite page_at_store_ne; [done..|]. intros ->.
    assert (pg' = pg) by congruence. subst. lia.
  - intros q g Hq.
    destruct (Htab q g Hq) as (? & ? & pg' & Hpg' & Hid).
    split_and!; [done..|].
    rewrite page_at_store by done. case_decide as Hd; [|by exists pg'].
    subst g. eexists. split; [done|]. simpl. congruence.
  - intros g Hg. pose proof (Hfree g Hg) as He.
    rewrite page_at_store_ne; [done..|]. intros ->.
    assert (pg = empty_page) by congruence. subst. simpl in Hpos. lia.
Qed.

Lemma exec_inv (s s' : BufferPoolManagerInstance) (o : Op) :
  pool_inv n s → exec s o = Some s' → pool_inv n s'.
Proof.
  intros Hinv. destruct o; simpl.
  - destruct (NewPgImp s) as [[s1 res]|] eqn:Hop; simpl; [|done].
    intros [= <-]. by eapply NewPgImp_inv.
  - destruct (FetchPgImp s page_id) as [[s1 res]|] eqn:Hop; simpl; [|done].
    intros [= <-]. by eapply FetchPgImp_inv.
  - destruct (UnpinPgImp s page_id is_dirty) as [[s1 res]|] eqn:Hop; simpl; [|done].
    intros [= <-]. by eapply UnpinPgImp_inv.
  - destruct (FlushPgImp s page_id) as [[s1 res]|] eqn:Hop; simpl; [|done].
    intros [= <-]. eapply pool_inv_same_memory; [|done].
    by eapply FlushPgImp_same_memory.
  - intros Hop. eapply pool_inv_same_memory; [|done].
    by eapply FlushAllPgsImp_same_memory.
  - destruct (DeletePgImp s page_id) as [[s1 res]|] eqn:Hop; simpl; [|done].
    intros [= <-]. by eapply DeletePgImp_inv.
  - by apply write_bytes_inv.
Qed.

Lemma reachable_by_inv (allowed : BufferPoolManagerInstance → Op → Prop)
    (k : Z) (s : BufferPoolManagerInstance) :
  reachable_by allowed n k s → pool_inv n s.
Proof.
  induction 1 as [d Hn|s o s' _ IH _ Hex].
  - by apply pool_inv_new.
  - by eapply exec_inv.
Qed.

End preservation.

(** ** Runs that only fetch allocated pages *)

Lemma acquire_frame_resident (n : nat) (s s1 : BufferPoolManagerInstance) (f : Z) :
  pool_inv n s →
  (∀ g pg, page_at (pages_ s) g = Some pg → page_id_ pg ≠ INVALID_PAGE_ID →
           page_table_ s !! page_id_ pg = Some g) →
  acquire_frame s = Some (s1, f) →
  next_page_id_ s1 = next_page_id_ s
  ∧ (∀ q g, page_table_ s1 !! q = Some g → page_table_ s !! q = Some g)
  ∧ (∀ g pg, g ≠ f → page_at (pages_ s1) g = Some pg →
             page_id_ pg ≠ INVALID_PAGE_ID → page_table_ s1 !! page_id_ pg = Some g).
Proof.
  intros Hinv Hres
    [(rest & Hfl & ->)|(Hfl & r' & b & pg & HE & Hpg & ->)]%acquire_frame_cases;
    simpl.
  - split_and!; [done..|]. intros g pg' _. apply Hres.
  - assert (Hsome : is_Some (page_at (pages_ s) f)) by (by eexists).
    split_and!; [done| |].
    + intros q g Hq. destruct (decide (q = page_id_ pg)) as [->|Hne];
        [by rewrite lookup_delete_eq in Hq|by rewrite lookup_delete_ne in Hq].
    + intros g pg' Hne. rewrite page_at_store_ne by done. intros Hpg' Hid.
      pose proof (Hres g pg' Hpg' Hid) as Hg.
      rewrite lookup_delete_ne; [done|]. intros Heq.
      rewrite <- Heq in Hg. rewrite (Hres f pg Hpg) in Hg; congruence.
Qed.

Lemma install_allocated (s1 : BufferPoolManagerInstance) (f p nx : Z) (pg : Page)
    (r : LRUKReplacer) (d : DiskManager) :
  is_Some (page_at (pages_ s1) f) →
  page_id_ pg = p → 0 ≤ p < nx → page_table_ s1 !! p = None →
  (∀ q g, page_table_ s1 !! q = Some g → 0 ≤ q < nx) →
  (∀ g pg', g ≠ f → page_at (pages_ s1) g = Some pg' →
            page_id_ pg' ≠ INVALID_PAGE_ID → page_table_ s1 !! page_id_ pg' = Some g) →
  allocated_inv (mkBPM (store_page (pages_ s1) f pg) r (emplace p f (page_table_ s1))
                       (free_list_ s1) nx d).
Proof.
  intros Hsome Hid Hp Hfresh Hkeys Hres.
  unfold emplace. rewrite Hfresh. split; simpl.
  - lia.
  - intros q g Hq. destruct (decide (q = p)) as [->|Hne]; [done|].
    rewrite lookup_insert_ne in Hq by done. by eapply Hkeys.
  - intros g pg'. rewrite page_at_store by done. case_decide as Hd.
    + intros [= <-] _. subst. by rewrite lookup_insert_eq.
    + intros Hpg' Hid'. pose proof (Hres g pg' Hd Hpg' Hid') as Hg.
      rewrite lookup_insert_ne; [done|]. intros Heq. congruence.
Qed.

Lemma allocated_inv_same_memory (s s' : BufferPoolManagerInstance) :
  same_memory s s' → allocated_inv s → allocated_inv s'.
Proof.
  destruct s, s'. intros (? & ? & ? & ? & ?) [? ? ?]; simpl in *; subst.
  split; done.
Qed.

Lemma exec_allocated_inv (n : nat) (s s' : BufferPoolManagerInstance) (o : Op) :
  pool_inv n s → allocated_inv s → fetch_allocated s o → exec s o = Some s' →
  allocated_inv s'.
Proof.
  intros Hinv [Hnext Hkeys Hres] Hallowed. destruct o; simpl.
  - destruct (NewPgImp s) as [[s0 res]|] eqn:Hop; simpl; [|done].
    intros [= <-].
    apply NewPgImp_cases in Hop
      as [(_ & -> & _)|(_ & _ & s1 & f & pg & Hacq & Hpg & _ & ->)]; [done|].
    destruct (acquire_frame_resident n (bump s) s1 f) as (Hnx & Hsub & Hres1);
      [by apply pool_inv_bump|done..|].
    rewrite Hnx. simpl in *. apply install_allocated.
    + by eexists.
    + done.
    + lia.
    + destruct (page_table_ s1 !! next_page_id_ s) eqn:Hq; [|done].
      apply Hsub, Hkeys in Hq. lia.
    + intros q g Hq%Hsub. apply Hkeys in Hq. lia.
    + done.
  - destruct (FetchPgImp s page_id) as [[s0 res]|] eqn:Hop; simpl; [|done].
    intros [= <-]. simpl in Hallowed.
    apply FetchPgImp_cases in Hop
      as [(f & pg & Hp & Hpg & _ & _ & ->)
         |[(_ & _ & -> & _)|(Hmiss & _ & s1 & f & pg & Hacq & Hpg & _ & ->)]];
      [|done|].
    + assert (Hsome : is_Some (page_at (pages_ s) f)) by (by eexists).
      split; simpl; [done..|].
      intros g pg'. rewrite page_at_store by done. case_decide as Hd.
      * intros [= <-]. subst g. simpl. by apply Hres.
      * apply Hres.
    + destruct (acquire_frame_resident n s s1 f) as (Hnx & Hsub & Hres1); [done..|].
      rewrite Hnx. apply install_allocated.
      * by eexists.
      * done.
      * lia.
      * destruct (page_table_ s1 !! page_id) eqn:Hq; [|done].
        apply Hsub in Hq. congruence.
      * intros q g Hq%Hsub. by apply Hkeys in Hq.
      * done.
  - destruct (UnpinPgImp s page_id is_dirty) as [[s0 res]|] eqn:Hop; simpl; [|done].
    intros [= <-].
    apply UnpinPgImp_cases in Hop
      as [(_ & -> & _)|(f & pg & Hp & Hpg & [(_ & -> & _)|(Hpos & _ & ->)])];
      [done..|].
    assert (Hsome : is_Some (page_at (pages_ s) f)) by (by eexists).
    split; simpl; [done..|].
    intros g pg'. rewrite page_at_store by done. case_decide as Hd.
    + intros [= <-]. subst g. simpl. by apply Hres.
    + apply Hres.
  - destruct (FlushPgImp s page_id) as [[s0 res]|] eqn:Hop; simpl; [|done].
    intros [= <-]. eapply allocated_inv_same_memory; [|done].
    by eapply FlushPgImp_same_memory.
  - intros Hop. eapply allocated_inv_same_memory; [|done].
    by eapply FlushAllPgsImp_same_memory.
  - destruct (DeletePgImp s page_id) as [[s0 res]|] eqn:Hop; simpl; [|done].
    intros [= <-].
    apply DeletePgImp_cases in Hop
      as [(_ & -> & _)|(f & pg & Hp & Hpg & [(_ & -> & _)|(Hpos & _ & ->)])];
      [done..|].
    assert (Hsome : is_Some (page_at (pages_ s) f)) by (by eexists).
    split; simpl; [done| |].
    + intros q g Hq. destruct (decide (q = page_id)) as [->|Hne];
        [by rewrite lookup_delete_eq in Hq|].
      rewrite lookup_delete_ne in Hq by done. by eapply Hkeys.
    + intros g pg'. rewrite page_at_store by done. case_decide as Hd.
      * intros [= <-]. done.
      * intros Hpg' Hid. pose proof (Hres g pg' Hpg' Hid) as Hg.
        rewrite lookup_delete_ne; [done|]. intros Heq. congruence.
  - intros (pg & Hpg & Hpos & _ & ->)%write_bytes_cases.
    assert (Hsome : is_Some (page_at (pages_ s) frame_id)) by (by eexists).
    split; simpl; [done..|].
    intros g pg'. rewrite page_at_store by done. case_decide as Hd.
    + intros [= <-]. subst g. simpl. by apply Hres.
    + apply Hres.
Qed.

Lemma reachable_allocated_inv (n : nat) (k : Z) (s : BufferPoolManagerInstance) :
  reachable_allocated n k s → pool_inv n s ∧ allocated_inv s.
Proof.
  induction 1 as [d Hn|s o s' _ [IH1 IH2] Hal Hex].
  - split; [by apply pool_inv_new|apply allocated_inv_new].
  - split; [by eapply exec_inv|by eapply exec_allocated_inv].
Qed.

(** ** Runs *)

Lemma reachable_by_weaken (P Q : BufferPoolManagerInstance → Op → Prop)
    (n : nat) (k : Z) (s : BufferPoolManagerInstance) :
  (∀ s o, P s o → Q s o) → reachable_by P n k s → reachable_by Q n k s.
Proof.
  intros HPQ. induction 1 as [d Hn|s o s' _ IH Hal Hex].
  - by constructor.
  - eapply reachable_exec; [done|by apply HPQ|done].
Qed.

Lemma reachable_allocated_reachable (n : nat) (k : Z) (s : BufferPoolManagerInstance) :
  reachable_allocated n k s → reachable n k s.
Proof. by apply reachable_by_weaken. Qed.

Lemma run_snoc (s : BufferPoolManagerInstance) (ops : list Op) (o : Op) :
  run s (ops ++ [o]) = s1 ← run s ops; exec s1 o.
Proof. unfold run. by rewrite foldl_app. Qed.

Lemma run_reachable (n : nat) (k : Z) (d : DiskManager) (ops : list Op)
    (s : BufferPoolManagerInstance) :
  Z.of_nat n ≤ INT_MAX → run (Pool.new n d k) ops = Some s → reachable n k s.
Proof.
  intros Hn. revert s. induction ops as [|o ops IH] using rev_ind; intros s.
  - intros [= <-]. by constructor.
  - rewrite run_snoc. destruct (run (Pool.new n d k) ops) as [s1|]; simpl; [|done].
    intros Hex. eapply reachable_exec; [by apply IH|done..].
Qed.

Lemma fetch_allocated_b_spec (s : BufferPoolManagerInstance) (o : Op) :
  fetch_allocated_b s o = true → fetch_allocated s o.
Proof.
  destruct o; simpl; try done.
  intros [?%Z.leb_le ?%Z.ltb_lt]%andb_true_iff. lia.
Qed.

Lemma run_allocated_reachable (n : nat) (k : Z) (d : DiskManager) (ops : list Op)
    (s : BufferPoolManagerInstance) :
  Z.of_nat n ≤ INT_MAX → run_allocated (Pool.new n d k) ops = Some s →
  reachable_allocated n k s.
Proof.
  intros Hn. revert s. unfold run_allocated.
  induction ops as [|o ops IH] using rev_ind; intros s.
  - intros [= <-]. by constructor.
  - rewrite foldl_app. simpl.
    match goal with |- context [foldl ?f ?a ops] => destruct (foldl f a ops) as [s1|] end;
      simpl; [|done].
    destruct (fetch_allocated_b s1 o) eqn:Hb; [|done].
    intros Hex. eapply reachable_exec; [by apply IH|by apply fetch_allocated_b_spec|done].
Qed.

Lemma exec_next_page_id (s s' : BufferPoolManagerInstance) (o : Op) :
  exec s o = Some s' → next_page_id_ s ≤ next_page_id_ s'.
Proof.
  destruct o; simpl.
  - destruct (NewPgImp s) as [[s0 res]|] eqn:Hop; simpl; [|done]. intros [= <-].
    apply NewPgImp_cases in Hop
      as [(_ & -> & _)|(_ & _ & s1 & f & pg & Hacq & Hpg & _ & ->)]; [done|]. simpl.
    apply acquire_frame_cases in Hacq as [(? & _ & ->)|(_ & ? & ? & ? & _ & _ & ->)];
      simpl; lia.
  - destruct (FetchPgImp s page_id) as [[s0 res]|] eqn:Hop; simpl; [|done]. intros [= <-].
    apply FetchPgImp_cases in Hop
      as [(f & pg & _ & _ & _ & _ & ->)
         |[(_ & _ & -> & _)|(_ & _ & s1 & f & pg & Hacq & _ & _ & ->)]];
      [done..|]. simpl.
    apply acquire_frame_cases in Hacq as [(? & _ & ->)|(_ & ? & ? & ? & _ & _ & ->)];
      simpl; lia.
  - destruct (UnpinPgImp s page_id is_dirty) as [[s0 res]|] eqn:Hop; simpl; [|done].
    intros [= <-].
    apply UnpinPgImp_cases in Hop
      as [(_ & -> & _)|(f & pg & _ & _ & [(_ & -> & _)|(_ & _ & ->)])]; done.
  - destruct (FlushPgImp s page_id) as [[s0 res]|] eqn:Hop; simpl; [|done].
    intros [= <-]. apply FlushPgImp_same_memory in Hop as (_ & _ & _ & _ & ->). done.
  - intros (_ & _ & _ & _ & ->)%FlushAllPgsImp_same_memory. done.
  - destruct (DeletePgImp s page_id) as [[s0 res]|] eqn:Hop; simpl; [|done].
    intros [= <-].
    apply DeletePgImp_cases in Hop
      as [(_ & -> & _)|(f & pg & _ & _ & [(_ & -> & _)|(_ & _ & ->)])]; done.
  - intros (pg & _ & _ & _ & ->)%write_bytes_cases. done.
Qed.

Lemma run_next_page_id (ops : list Op) (s s' : BufferPoolManagerInstance) :
  run s ops = Some s' → next_page_id_ s ≤ next_page_id_ s'.
Proof.
  revert s'. induction ops as [|o ops IH] using rev_ind; intros s'.
  - intros [= <-]. done.
  - rewrite run_snoc. destruct (run s ops) as [s1|]; simpl; [|done].
    intros Hex%exec_next_page_id. specialize (IH s1 eq_refl). lia.
Qed.

(** A frame [acquire_frame] obtains by eviction was marked evictable. *)
Lemma acquire_frame_evicts (s s1 : BufferPoolManagerInstance) (f : Z) :
  free_list_ s = [] → acquire_frame s = Some (s1, f) →
  ∃ r' pg, Evict (replacer_ s) = (r', f, true)
    ∧ marked_evictable (replacer_ s) f
    ∧ page_at (pages_ s) f = Some pg
    ∧ s1 = mkBPM (store_page (pages_ s) f
                    (mkPage zeroed (page_id_ pg) (pin_count_ pg) false))
                 r' (delete (page_id_ pg) (page_table_ s)) []
                 (next_page_id_ s)
                 (if is_dirty_ pg
                  then WritePage (disk_manager_ s) (page_id_ pg) (data_ pg)
                  else disk_manager_ s).
Proof.
  intros Hfl
    [(rest & Hfl' & _)|(_ & r' & b & pg & HE & Hpg & ->)]%acquire_frame_cases;
    [congruence|].
  pose proof (page_at_range _ _ _ Hpg) as Hrange.
  destruct (Evict_shape _ _ _ _ HE) as (_ & Hfalse & Htrue).
  destruct b; [|destruct Hfalse as [-> _]; [done|lia]].
  destruct Htrue as (_ & _ & [Hmk|[-> _]] & _); [done| |lia].
  by exists r', pg.
Qed.

(** ** Unpinned frames stay at hand *)

Section at_hand.
Variable n : nat.

Lemma unpinned_at_hand_new (d : DiskManager) (k : Z) :
  Z.of_nat n ≤ INT_MAX → unpinned_at_hand (Pool.new n d k).
Proof.
  intros Hn f pg Hpg _. left. simpl in *.
  pose proof (page_at_range _ _ _ Hpg) as Hr. rewrite length_replicate in Hr.
  rewrite new_free_list by done. apply list_elem_of_fmap.
  exists (Z.to_nat f). split; [lia|]. apply elem_of_seq. lia.
Qed.

(** After [acquire_frame], every unpinned frame but the acquired one is at
    hand. *)
Lemma acquire_frame_at_hand (s s1 : BufferPoolManagerInstance) (f : Z) :
  pool_inv n s → unpinned_at_hand s → acquire_frame s = Some (s1, f) →
  ∀ g pg, g ≠ f → page_at (pages_ s1) g = Some pg → pin_count_ pg = 0 →
    g ∈ free_list_ s1 ∨ marked_evictable (replacer_ s1) g.
Proof.
  intros Hinv Hat Hacq.
  destruct (decide (free_list_ s = [])) as [Hfl|Hfl].
  - apply acquire_frame_evicts in Hacq as (r' & pg0 & HE & _ & Hpg0 & ->); [|done].
    simpl. intros g pg Hne Hpg Hpin.
    rewrite page_at_store_ne in Hpg by (by eexists || done).
    destruct (Hat g pg Hpg Hpin) as [Hg|Hg]; [rewrite Hfl in Hg; by apply elem_of_nil in Hg|].
    right. destruct (Evict_shape _ _ _ _ HE) as (_ & _ & Htrue).
    destruct Htrue as (Hev & _); [done|].
    unfold marked_evictable. rewrite Hev. by rewrite lookup_delete_ne.
  - apply acquire_frame_cases in Hacq as [(rest & Hfl' & ->)|(? & _)]; [|done].
    simpl. intros g pg Hne Hpg Hpin.
    destruct (Hat g pg Hpg Hpin) as [Hg|Hg]; [left|by right].
    rewrite Hfl' in Hg. apply elem_of_cons in Hg as [?|?]; done.
Qed.

Lemma install_at_hand (s : BufferPoolManagerInstance) (f : Z) (pg : Page)
    (t : gmap Z Z) (nx : Z) (d : DiskManager) :
  is_Some (page_at (pages_ s) f) → pin_count_ pg ≠ 0 →
  (∀ g pg', g ≠ f → page_at (pages_ s) g = Some pg' → pin_count_ pg' = 0 →
     g ∈ free_list_ s ∨ marked_evictable (replacer_ s) g) →
  unpinned_at_hand (mkBPM (store_page (pages_ s) f pg)
                          (SetEvictable (RecordAccess (replacer_ s) f) f false)
                          t (free_list_ s) nx d).
Proof.
  intros Hsome Hpc Hat g pg'. simpl. rewrite page_at_store by done.
  case_decide as Hd; [intros [= <-]; done|]. intros Hpg' Hpin.
  destruct (Hat g pg' Hd Hpg' Hpin) as [?|Hm]; [by left|right].
  apply SetEvictable_marked. case_decide as Hd'; [by destruct Hd'|].
  unfold marked_evictable. by rewrite RecordAccess_evictable.
Qed.

Lemma unpinned_at_hand_same_memory (s s' : BufferPoolManagerInstance) :
  same_memory s s' → unpinned_at_hand s → unpinned_at_hand s'.
Proof.
  intros (Hp & Hr & _ & Hf & _) Hat f pg. rewrite Hp, Hr, Hf. apply Hat.
Qed.

Lemma exec_at_hand (s s' : BufferPoolManagerInstance) (o : Op) :
  pool_inv n s → unpinned_at_hand s → exec s o = Some s' → unpinned_at_hand s'.
Proof.
  intros Hinv Hat. destruct o; simpl.
  - destruct (NewPgImp s) as [[s0 res]|] eqn:Hop; simpl; [|done]. intros [= <-].
    apply NewPgImp_cases in Hop
      as [(_ & -> & _)|(_ & _ & s1 & f & pg & Hacq & Hpg & _ & ->)]; [done|].
    apply install_at_hand; [by eexists|done|].
    eapply acquire_frame_at_hand; [by apply pool_inv_bump| |done]. done.
  - destruct (FetchPgImp s page_id) as [[s0 res]|] eqn:Hop; simpl; [|done].
    intros [= <-].
    apply FetchPgImp_cases in Hop
      as [(f & pg & Hp & Hpg & _ & _ & ->)
         |[(_ & _ & -> & _)|(_ & _ & s1 & f & pg & Hacq & Hpg & _ & ->)]];
      [|done|].
    + apply install_at_hand; [by eexists| |by intros g pg' _; apply Hat].
      simpl. pose proof (inv_pin _ _ Hinv f pg Hpg). lia.
    + apply install_at_hand; [by eexists|done|].
      by eapply acquire_frame_at_hand.
  - destruct (UnpinPgImp s page_id is_dirty) as [[s0 res]|] eqn:Hop; simpl; [|done].
    intros [= <-].
    apply UnpinPgImp_cases in Hop
      as [(_ & -> & _)|(f & pg & Hp & Hpg & [(_ & -> & _)|(Hpos & _ & ->)])];
      [done..|].
    destruct (inv_table _ _ Hinv _ _ Hp) as (_ & Htr & _).
    intros g pg'. simpl. rewrite page_at_store by (by eexists).
    case_decide as Hd.
    + intros [= <-]. simpl. intros Hz. right. subst g.
      rewrite Hz. simpl. apply SetEvictable_marked. by rewrite decide_True.
    + intros Hpg' Hpin. destruct (Hat g pg' Hpg' Hpin) as [?|Hm]; [by left|right].
      case_match; [|done].
      apply SetEvictable_marked. case_decide as Hd'; [by destruct Hd'|done].
  - destruct (FlushPgImp s page_id) as [[s0 res]|] eqn:Hop; simpl; [|done].
    intros [= <-]. eapply unpinned_at_hand_same_memory; [|done].
    by eapply FlushPgImp_same_memory.
  - intros Hop. eapply unpinned_at_hand_same_memory; [|done].
    by eapply FlushAllPgsImp_same_memory.
  - destruct (DeletePgImp s page_id) as [[s0 res]|] eqn:Hop; simpl; [|done].
    intros [= <-].
    apply DeletePgImp_cases in Hop
      as [(_ & -> & _)|(f & pg & Hp & Hpg & [(_ & -> & _)|(Hpos & _ & ->)])];
      [done..|].
    intros g pg'. simpl. rewrite page_at_store by (by eexists).
    case_decide as Hd.
    + intros _ _. left. subst. apply elem_of_app. right. by apply list_elem_of_singleton.
    + intros Hpg' Hpin. destruct (Hat g pg' Hpg' Hpin) as [?|Hm].
      * left. apply elem_of_app. by left.
      * right. by apply Remove_marked.
  - intros (pg & Hpg & Hpos & _ & ->)%write_bytes_cases.
    intros g pg'. simpl. rewrite page_at_store by (by eexists).
    case_decide as Hd; [intros [= <-]; simpl; lia|apply Hat].
Qed.

End at_hand.

Lemma reachable_at_hand (allowed : BufferPoolManagerInstance → Op → Prop)
    (n : nat) (k : Z) (s : BufferPoolManagerInstance) :
  reachable_by allowed n k s → unpinned_at_hand s.
Proof.
  induction 1 as [d Hn|s o s' Hr IH _ Hex].
  - by apply unpinned_at_hand_new.
  - eapply exec_at_hand; [by eapply reachable_by_inv|done..].
Qed.

(** ** The operations of the pool are defined *)

(** On a well-formed replacer, [Evict] finds a victim as soon as a tracked
    frame is marked evictable, and the victim was marked evictable. *)
Lemma Evict_succeeds (r : LRUKReplacer) (g : Z) :
  wf r → marked_evictable r g →
  ∃ r' f, Evict r = (r', f, true) ∧ marked_evictable r f.
Proof.
  intros Hwf Hg.
  destruct (Evict_wf_spec r Hwf) as (r' & f & b & HE & _ & Hb).
  destruct b.
  - exists r', f. split; [done|].
    destruct Hb as ([(h & [_ Hm] & _)|(_ & h & [_ Hm] & _)] & _); done.
  - destruct Hb as (_ & _ & Hnone). destruct (Hnone g Hg). by apply (wf_evictable r Hwf).
Qed.

Lemma num_free_pages_pos (pages : list Page) :
  num_free_pages pages ≠ 0%nat →
  ∃ f pg, page_at pages f = Some pg ∧ pin_count_ pg = 0.
Proof.
  unfold num_free_pages. intros Hne.
  destruct (filter (λ p, pin_count_ p = 0) pages) as [|pg l] eqn:Hf; [done|].
  assert (Hin : pg ∈ filter (λ p, pin_count_ p = 0) pages) by (rewrite Hf; by left).
  apply list_elem_of_filter in Hin as [Hpin Hin].
  apply list_elem_of_lookup in Hin as [i Hi].
  exists (Z.of_nat i), pg. split; [|done].
  unfold page_at. destruct (Z.ltb_spec (Z.of_nat i) 0); [lia|]. by rewrite Nat2Z.id.
Qed.

Section defined.
Variables (n : nat) (s : BufferPoolManagerInstance).
Hypothesis Hinv : pool_inv n s.
Hypothesis Hat : unpinned_at_hand s.
Hypothesis Hwf : wf (replacer_ s).

Lemma acquire_frame_defined :
  num_free_pages (pages_ s) ≠ 0%nat →
  ∃ s1 f, acquire_frame s = Some (s1, f) ∧ is_Some (page_at (pages_ s1) f).
Proof.
  intros (g & pg & Hpg & Hpin)%num_free_pages_pos.
  unfold acquire_frame. destruct (free_list_ s) as [|f rest] eqn:Hfl.
  - destruct (Hat g pg Hpg Hpin) as [Hg|Hg]; [rewrite Hfl in Hg; by apply elem_of_nil in Hg|].
    destruct (Evict_succeeds _ g Hwf Hg) as (r' & f & -> & Hf).
    destruct (inv_evictable _ _ Hinv f Hf) as (_ & pgf & Hpgf & _).
    rewrite Hpgf. simpl.
    destruct (is_dirty_ pgf); eexists _, f; (split; [done|]); simpl;
      rewrite page_at_store_eq by (by eexists); by eexists.
  - eexists _, f. split; [done|]. simpl. exists empty_page.
    apply (inv_free _ _ Hinv). rewrite Hfl. by left.
Qed.

Lemma UnpinPgImp_defined (p : Z) (d : bool) : is_Some (UnpinPgImp s p d).
Proof.
  unfold UnpinPgImp. destruct (page_table_ s !! p) as [f|] eqn:Hp; [|by eexists].
  destruct (inv_table _ _ Hinv p f Hp) as (_ & _ & pg & -> & _). simpl.
  case_match; by eexists.
Qed.

Lemma FlushPgImp_defined (p : Z) : is_Some (FlushPgImp s p).
Proof.
  unfold FlushPgImp. case_match; [by eexists|].
  destruct (page_table_ s !! p) as [f|] eqn:Hp; [|by eexists].
  destruct (inv_table _ _ Hinv p f Hp) as (_ & _ & pg & -> & _). simpl. by eexists.
Qed.

Lemma DeletePgImp_defined (p : Z) : is_Some (DeletePgImp s p).
Proof.
  unfold DeletePgImp. destruct (page_table_ s !! p) as [f|] eqn:Hp; [|by eexists].
  destruct (inv_table _ _ Hinv p f Hp) as (_ & _ & pg & -> & _). simpl.
  case_match; by eexists.
Qed.

End defined.

(** In a reachable state whose replacer clock has not wrapped around and
    whose allocation counter has room, [NewPgImp] is defined: the frame it
    indexes exists, whether it comes from the free list or from [Evict]. *)
Lemma NewPgImp_defined (n : nat) (k : Z) (s : BufferPoolManagerInstance) :
  reachable n k s → wf (replacer_ s) → next_page_id_ s ≠ INT_MAX →
  is_Some (NewPgImp s).
Proof.
  intros Hreach Hwf Hnext.
  pose proof (reachable_by_inv _ _ _ _ Hreach) as Hinv.
  pose proof (reachable_at_hand _ _ _ _ Hreach) as Hat.
  unfold NewPgImp. case_bool_decide as Hfree; [by eexists|].
  unfold AllocatePage. rewrite bool_decide_eq_false_2 by done. simpl.
  fold (bump s).
  destruct (acquire_frame_defined n (bump s)) as (s1 & f & -> & pg & Hpg);
    [by apply pool_inv_bump|done..|].
  simpl. rewrite Hpg. simpl. by eexists.
Qed.

(** Likewise for [FetchPgImp], when the pin count of the fetched page has
    room. *)
Lemma FetchPgImp_defined (n : nat) (k : Z) (s : BufferPoolManagerInstance) (p : Z) :
  reachable n k s → wf (replacer_ s) →
  (∀ f pg, page_at (pages_ s) f = Some pg → pin_count_ pg ≠ INT_MAX) →
  is_Some (FetchPgImp s p).
Proof.
  intros Hreach Hwf Hpins.
  pose proof (reachable_by_inv _ _ _ _ Hreach) as Hinv.
  pose proof (reachable_at_hand _ _ _ _ Hreach) as Hat.
  unfold FetchPgImp. destruct (page_table_ s !! p) as [f|] eqn:Hp.
  - destruct (inv_table _ _ Hinv p f Hp) as (_ & _ & pg & Hpg & _).
    rewrite Hpg. simpl. rewrite bool_decide_eq_false_2 by (by eapply Hpins).
    by eexists.
  - case_bool_decide as Hfree; [by eexists|].
    destruct (acquire_frame_defined n s) as (s1 & f & -> & pg & Hpg); [done..|].
    simpl. rewrite Hpg. simpl. by eexists.
Qed.

(** ** The replacer of a running pool *)

Ltac by_replay l := exists l; split; [done|simpl; lia].

(** Each pool operation drives the replacer through at most three of its
    operations. *)
Lemma exec_replays (s s' : BufferPoolManagerInstance) (o : Op) :
  exec s o = Some s' →
  ∃ l, replacer_ s' = replay (replacer_ s) l ∧ (length l ≤ 3)%nat.
Proof.
  assert (Hacq : ∀ s0 s1 f, acquire_frame s0 = Some (s1, f) →
            ∃ l, replacer_ s1 = replay (replacer_ s0) l ∧ (length l ≤ 1)%nat).
  { intros s0 s1 f [(rest & _ & ->)|(_ & r' & b & pg & HE & _ & ->)]%acquire_frame_cases.
    - by_replay (@nil ReplacerOp).
    - exists [DoEvict]. split; [|simpl; lia]. simpl. by rewrite HE. }
  assert (Hinst : ∀ r0 r1 f l, r1 = replay r0 l → (length l ≤ 1)%nat →
            ∃ l', SetEvictable (RecordAccess r1 f) f false = replay r0 l'
                  ∧ (length l' ≤ 3)%nat).
  { intros r0 r1 f l -> Hl. exists (l ++ [DoRecordAccess f; DoSetEvictable f false]).
    split; [unfold replay; by rewrite foldl_app|]. rewrite length_app. simpl. lia. }
  destruct o; simpl.
  - destruct (NewPgImp s) as [[s0 res]|] eqn:Hop; simpl; [|done]. intros [= <-].
    apply NewPgImp_cases in Hop
      as [(_ & -> & _)|(_ & _ & s1 & f & pg & Hacq1 & Hpg & _ & ->)];
      [by_replay (@nil ReplacerOp)|].
    destruct (Hacq _ _ _ Hacq1) as (l & Hl & ?). simpl. by eapply Hinst.
  - destruct (FetchPgImp s page_id) as [[s0 res]|] eqn:Hop; simpl; [|done].
    intros [= <-].
    apply FetchPgImp_cases in Hop
      as [(f & pg & Hp & Hpg & _ & _ & ->)
         |[(_ & _ & -> & _)|(_ & _ & s1 & f & pg & Hacq1 & Hpg & _ & ->)]];
      [|by_replay (@nil ReplacerOp)|].
    + simpl. apply (Hinst _ _ f []); [done|simpl; lia].
    + destruct (Hacq _ _ _ Hacq1) as (l & Hl & ?). simpl. by eapply Hinst.
  - destruct (UnpinPgImp s page_id is_dirty) as [[s0 res]|] eqn:Hop; simpl; [|done].
    intros [= <-].
    apply UnpinPgImp_cases in Hop
      as [(_ & -> & _)|(f & pg & Hp & Hpg & [(_ & -> & _)|(Hpos & _ & ->)])];
      [by_replay (@nil ReplacerOp)..|].
    simpl. case_match; [by_replay [DoSetEvictable f true]|by_replay (@nil ReplacerOp)].
  - destruct (FlushPgImp s page_id) as [[s0 res]|] eqn:Hop; simpl; [|done].
    intros [= <-]. apply FlushPgImp_same_memory in Hop as (_ & -> & _). by_replay (@nil ReplacerOp).
  - intros (_ & -> & _)%FlushAllPgsImp_same_memory. by_replay (@nil ReplacerOp).
  - destruct (DeletePgImp s page_id) as [[s0 res]|] eqn:Hop; simpl; [|done].
    intros [= <-].
    apply DeletePgImp_cases in Hop
      as [(_ & -> & _)|(f & pg & Hp & Hpg & [(_ & -> & _)|(Hpos & _ & ->)])];
      [by_replay (@nil ReplacerOp)..|].
    simpl. by_replay [DoRemove f].
  - intros (pg & _ & _ & _ & ->)%write_bytes_cases. by_replay (@nil ReplacerOp).
Qed.

(** The replacer of a pool that has run fewer than a third of [SIZE_MAX]
    operations is well formed. *)
Lemma run_wf (n : nat) (k : Z) (d : DiskManager) (ops : list Op)
    (s : BufferPoolManagerInstance) :
  run (Pool.new n d k) ops = Some s → 3 * Z.of_nat (length ops) < SIZE_MAX →
  wf (replacer_ s) ∧ clock_ (replacer_ s) ≤ 3 * Z.of_nat (length ops).
Proof.
  revert s. induction ops as [|o ops IH] using rev_ind; intros s.
  - intros [= <-] _. split; [apply wf_new|done].
  - rewrite run_snoc, length_app. simpl.
    destruct (run (Pool.new n d k) ops) as [s1|]; simpl; [|done].
    intros (l & -> & Hl)%exec_replays Hlen.
    destruct (IH s1 eq_refl) as [IH1 IH2]; [lia|].
    destruct (wf_replay_from (replacer_ s1) l IH1) as [? ?]; [lia|].
    split; [done|lia].
Qed.

(** A pool that has run few enough operations never indexes outside its
    frame array in [NewPgImp]. *)
Lemma NewPgImp_defined_after_run (n : nat) (k : Z) (ops : list Op)
    (s : BufferPoolManagerInstance) :
  Z.of_nat n ≤ INT_MAX → run (Pool.new n new_disk k) ops = Some s →
  3 * Z.of_nat (length ops) < SIZE_MAX → next_page_id_ s ≠ INT_MAX →
  is_Some (NewPgImp s).
Proof.
  intros Hn Hrun Hlen Hnext.
  apply (NewPgImp_defined n k); [by eapply run_reachable| |done].
  by destruct (run_wf n k new_disk ops s Hrun Hlen).
Qed.

(** * The claims of the specification *)

(** C1.  In every state the replacer reaches before its clock wraps around,
    the preliminary frames are those with fewer than [k_] recorded accesses
    and the mature frames retain their last [k_] timestamps; [Evict] returns
    a frame only when a tracked frame is marked evictable, and then: the
    evictable preliminary frame whose earliest timestamp is smallest if an
    evictable preliminary frame exists; otherwise the evictable mature frame
    whose earliest retained timestamp is smallest if one exists; otherwise
    nothing.  The returned frame loses its history, its partition membership
    and its evictable flag, and no other frame is touched. *)
Theorem Evict_follows_lru_k (num_frames k : Z) (ops : list ReplacerOp) :
  Z.of_nat (length ops) < SIZE_MAX →
  partitioned (replay (Replacer.new num_frames k) ops)
  ∧ Evict_contract (replay (Replacer.new num_frames k) ops).
Proof.
  intros Hlen. destruct (wf_replay num_frames k ops Hlen) as [Hwf _].
  split; [by apply wf_partitioned|].
  set (r := replay (Replacer.new num_frames k) ops) in *.
  destruct (Evict_wf_spec r Hwf) as (r' & f & b & HE & _ & Hb).
  exists r', f, b. split; [done|]. destruct b.
  - destruct Hb as ([(h & [Hp Hm] & Hmin)|(Hno & h & [Hp Hm] & Hmin)] & Hforg & Hoth).
    + split_and!.
      * intros _. split; [done|]. exists h. by split.
      * intros Hno. by destruct (Hno f h).
      * intros Hnone. destruct (Hnone f). split; [left; by eexists|done].
      * intros _. split_and!; [left; by eexists|done..].
      * done.
    + split_and!.
      * intros (g & hg & Hg). by destruct (Hno g hg).
      * intros _ _. split; [done|]. exists h. by split.
      * intros Hnone. destruct (Hnone f). split; [right; by eexists|done].
      * intros _. split_and!; [right; by eexists|done..].
      * done.
  - destruct Hb as (-> & -> & Hnone). split_and!.
    + intros (g & hg & [Hg Hm]). destruct (Hnone g Hm). left. by eexists.
    + intros _ (g & hg & [Hg Hm]). destruct (Hnone g Hm). right. by eexists.
    + done.
    + done.
    + intros _. split; [done|]. intros g [Ht Hm]. by apply (Hnone g).
Qed.

Lemma Evict_follows_lru_k_witness :
  Z.of_nat (length scenario_3) < SIZE_MAX
  ∧ partitioned (replay (Replacer.new 3 2) scenario_3)
  ∧ Evict_contract (replay (Replacer.new 3 2) scenario_3).
Proof.
  split; [by vm_compute|].
  apply (Evict_follows_lru_k 3 2 scenario_3). by vm_compute.
Defined.

Example Evict_scenario_3 :
  (Evict (replay (Replacer.new 3 2) scenario_3)).1.2 = 1.
Proof. by vm_compute. Qed.
(** C2.  In every state the pool reaches, a frame marked evictable in the
    replacer has pin count zero; hence the frame [Evict] returns, and the
    frame [NewPgImp] or the miss path of [FetchPgImp] obtains by eviction,
    has pin count zero when it is evicted. *)
Theorem evictable_frames_unpinned (n : nat) (k : Z) (s : BufferPoolManagerInstance) :
  reachable n k s →
  (∀ f, marked_evictable (replacer_ s) f → unpinned s f)
  ∧ (∀ r' f, Evict (replacer_ s) = (r', f, true) → unpinned s f)
  ∧ (∀ s' p f, free_list_ s = [] → NewPgImp s = Some (s', Some (p, f)) →
       unpinned s f)
  ∧ (∀ s' p f, free_list_ s = [] → page_table_ s !! p = None →
       FetchPgImp s p = Some (s', Some f) → unpinned s f).
Proof.
  intros Hinv%reachable_by_inv.
  assert (Hmarked : ∀ f, marked_evictable (replacer_ s) f → unpinned s f).
  { intros f Hf. by destruct (inv_evictable _ _ Hinv f Hf) as [_ ?]. }
  split_and!; [done| | |].
  - intros r' f HE. apply Hmarked.
    destruct (Evict_shape _ _ _ _ HE) as (_ & _ & Htrue).
    destruct Htrue as (_ & _ & [Hmk|[-> Ht]] & _); [done..|].
    by destruct (inv_sentinel _ _ Hinv).
  - intros s' p f Hfl
      [(_ & _ & [=])|(_ & _ & s1 & f' & pg & Hacq & _ & [= _ <-] & _)]%NewPgImp_cases.
    apply acquire_frame_evicts in Hacq as (r' & pg' & _ & Hmk & _); [|done].
    by apply Hmarked.
  - intros s' p f Hfl Hmiss
      [(f' & pg & Hp & _)
      |[(_ & _ & _ & [=])|(_ & _ & s1 & f' & pg & Hacq & _ & [= <-] & _)]]%FetchPgImp_cases;
      [congruence|].
    apply acquire_frame_evicts in Hacq as (r' & pg' & _ & Hmk & _); [|done].
    by apply Hmarked.
Qed.

Lemma evictable_frames_unpinned_witness :
  let s := state_after 2 2 [NewPage; NewPage; UnpinPage 0 false] in
  reachable 2 2 s
  ∧ (∀ f, marked_evictable (replacer_ s) f → unpinned s f)
  ∧ (∀ r' f, Evict (replacer_ s) = (r', f, true) → unpinned s f)
  ∧ (∀ s' p f, free_list_ s = [] → NewPgImp s = Some (s', Some (p, f)) →
       unpinned s f)
  ∧ (∀ s' p f, free_list_ s = [] → page_table_ s !! p = None →
       FetchPgImp s p = Some (s', Some f) → unpinned s f).
Proof.
  intros s.
  assert (Hs : reachable 2 2 s).
  { apply (run_reachable 2 2 new_disk [NewPage; NewPage; UnpinPage 0 false]);
      by vm_compute. }
  split; [exact Hs|]. exact (evictable_frames_unpinned 2 2 s Hs).
Defined.

(** C3.  In every state the pool reaches with an empty free list and a
    frame without a pin (the replacer clock not having wrapped around),
    [NewPgImp] and the miss path of [FetchPgImp] do return a frame, and they
    take it by eviction: the frame is the victim [Evict] designates.  The
    disk calls of the operation begin with exactly one [WritePage] of the
    victim's page id and bytes when the victim is dirty, and with none when
    it is clean; the miss path then makes its single [ReadPage].  The dirty
    victim's bytes are on disk afterwards, and the frame holds the new page. *)
Theorem dirty_victim_written_back_once (n : nat) (k : Z)
    (s : BufferPoolManagerInstance) :
  reachable n k s → wf (replacer_ s) →
  free_list_ s = [] → num_free_pages (pages_ s) ≠ 0%nat →
  (next_page_id_ s ≠ INT_MAX →
   ∃ s' p f r' pg pg',
     NewPgImp s = Some (s', Some (p, f))
     ∧ Evict (replacer_ s) = (r', f, true)
     ∧ page_at (pages_ s) f = Some pg
     ∧ calls (disk_manager_ s') = calls (disk_manager_ s) ++ write_back pg
     ∧ (is_dirty_ pg = true →
          stored (disk_manager_ s') !! page_id_ pg = Some (data_ pg))
     ∧ page_at (pages_ s') f = Some pg' ∧ page_id_ pg' = p)
  ∧ (∀ p, page_table_ s !! p = None →
     ∃ s' f r' pg pg',
       FetchPgImp s p = Some (s', Some f)
       ∧ Evict (replacer_ s) = (r', f, true)
       ∧ page_at (pages_ s) f = Some pg
       ∧ calls (disk_manager_ s')
         = calls (disk_manager_ s) ++ write_back pg ++ [ReadPageCall p]
       ∧ (is_dirty_ pg = true →
            stored (disk_manager_ s') !! page_id_ pg = Some (data_ pg))
       ∧ page_at (pages_ s') f = Some pg' ∧ page_id_ pg' = p).
Proof.
  intros Hreach Hwf Hfl Hfree.
  pose proof (reachable_by_inv _ _ _ _ Hreach) as Hinv.
  pose proof (reachable_at_hand _ _ _ _ Hreach) as Hat.
  split.
  - intros Hnext.
    destruct (NewPgImp_defined n k s Hreach Hwf Hnext) as [[s' res] Hnew].
    pose proof Hnew as Hcases.
    apply NewPgImp_cases in Hcases
      as [(Hz & _)|(_ & _ & s1 & f & pg1 & Hacq & Hpg1 & -> & Hs')]; [done|].
    apply acquire_frame_evicts in Hacq as (r' & pg & HE & _ & Hpg & ->); [|done].
    exists s', (next_page_id_ s), f, r', pg.
    rewrite Hs'. simpl in *. eexists. split_and!.
    + by rewrite Hnew, Hs'.
    + done.
    + done.
    + unfold write_back. destruct (is_dirty_ pg); simpl; [done|by rewrite app_nil_r].
    + intros ->. simpl. by rewrite lookup_insert_eq.
    + apply page_at_store_eq. by eexists.
    + done.
  - intros p Hmiss.
    assert (Hdef : ∃ s' f, FetchPgImp s p = Some (s', Some f)).
    { unfold FetchPgImp. rewrite Hmiss.
      rewrite bool_decide_eq_false_2 by done.
      destruct (acquire_frame_defined n s Hinv Hat Hwf Hfree)
        as (s1 & f & -> & pg & Hpg).
      simpl. rewrite Hpg. simpl. by eexists _, _. }
    destruct Hdef as (s' & f & Hfetch). pose proof Hfetch as Hcases.
    apply FetchPgImp_cases in Hcases
      as [(f' & pg1 & Hp & _)
         |[(_ & _ & _ & [=])|(_ & _ & s1 & f' & pg1 & Hacq & Hpg1 & [= <-] & Hs')]];
      [congruence|].
    apply acquire_frame_evicts in Hacq as (r' & pg & HE & _ & Hpg & ->); [|done].
    exists s', f, r', pg.
    rewrite Hs'. simpl in *. eexists. split_and!.
    + by rewrite Hfetch, Hs'.
    + done.
    + done.
    + unfold write_back. destruct (is_dirty_ pg); simpl; [|done].
      by rewrite <- app_assoc.
    + intros ->. simpl. by rewrite lookup_insert_eq.
    + apply page_at_store_eq. by eexists.
    + done.
Qed.

Lemma dirty_victim_written_back_once_witness :
  let s := state_after 1 2 [NewPage; UnpinPage 0 true] in
  reachable 1 2 s ∧ wf (replacer_ s)
  ∧ free_list_ s = [] ∧ num_free_pages (pages_ s) ≠ 0%nat
  ∧ next_page_id_ s ≠ INT_MAX ∧ page_table_ s !! 7 = None
  ∧ (∃ s' p f r' pg pg',
       NewPgImp s = Some (s', Some (p, f))
       ∧ Evict (replacer_ s) = (r', f, true)
       ∧ page_at (pages_ s) f = Some pg
       ∧ calls (disk_manager_ s') = calls (disk_manager_ s) ++ write_back pg
       ∧ (is_dirty_ pg = true →
            stored (disk_manager_ s') !! page_id_ pg = Some (data_ pg))
       ∧ page_at (pages_ s') f = Some pg' ∧ page_id_ pg' = p)
  ∧ (∃ s' f r' pg pg',
       FetchPgImp s 7 = Some (s', Some f)
       ∧ Evict (replacer_ s) = (r', f, true)
       ∧ page_at (pages_ s) f = Some pg
       ∧ calls (disk_manager_ s')
         = calls (disk_manager_ s) ++ write_back pg ++ [ReadPageCall 7]
       ∧ (is_dirty_ pg = true →
            stored (disk_manager_ s') !! page_id_ pg = Some (data_ pg))
       ∧ page_at (pages_ s') f = Some pg' ∧ page_id_ pg' = 7).
Proof.
  intros s.
  assert (Hs : reachable 1 2 s).
  { apply (run_reachable 1 2 new_disk [NewPage; UnpinPage 0 true]); by vm_compute. }
  assert (Hwf : wf (replacer_ s)).
  { apply (run_wf 1 2 new_disk [NewPage; UnpinPage 0 true] s); by vm_compute. }
  assert (Hfl : free_list_ s = []) by (by vm_compute).
  assert (Hfree : num_free_pages (pages_ s) ≠ 0%nat) by (by vm_compute).
  assert (Hnext : next_page_id_ s ≠ INT_MAX) by (by vm_compute).
  assert (Hmiss : page_table_ s !! 7 = None) by (by vm_compute).
  split; [exact Hs|]. split; [exact Hwf|]. split; [exact Hfl|].
  split; [exact Hfree|]. split; [exact Hnext|]. split; [exact Hmiss|].
  exact (conj (proj1 (dirty_victim_written_back_once 1 2 s Hs Hwf Hfl Hfree) Hnext)
              (proj2 (dirty_victim_written_back_once 1 2 s Hs Hwf Hfl Hfree) 7 Hmiss)).
Defined.

(** Both calls in the state where the dirty page 0 sits unpinned in the only
    frame: frame 0 is the victim and its write-back is the first disk call. *)
Example dirty_victim_calls :
  let s := state_after 1 2 [NewPage; UnpinPage 0 true] in
  (disk_manager_ <$> (fst <$> NewPgImp s))
  = Some (mkDisk {[0 := zeroed]} [WritePageCall 0 zeroed])
  ∧ (disk_manager_ <$> (fst <$> FetchPgImp s 7))
    = Some (mkDisk {[0 := zeroed]} [WritePageCall 0 zeroed; ReadPageCall 7])
  ∧ (snd <$> NewPgImp s) = Some (Some (1, 0))
  ∧ (snd <$> FetchPgImp s 7) = Some (Some 0).
Proof. by vm_compute. Qed.

(** Scenario 2 of the specification: the dirty page 0 is written back,
    once, when the second [NewPgImp] evicts it. *)
Example dirty_write_back_scenario :
  calls (disk_manager_ (state_after 1 2 [NewPage; UnpinPage 0 true; NewPage]))
  = [WritePageCall 0 zeroed].
Proof. by vm_compute. Qed.

(** Scenario 1 of the specification: a clean victim is not written. *)
Example clean_eviction_scenario :
  calls (disk_manager_ (state_after 1 2 [NewPage; UnpinPage 0 false; NewPage])) = [].
Proof. by vm_compute. Qed.

(** C4.  Unpinning with [is_dirty = false] never clears a dirty bit: if the
    frame of a resident page is dirty it is still dirty afterwards; so after
    a successful [UnpinPgImp p true], [UnpinPgImp p false] leaves the frame
    dirty. *)
Theorem unpin_clean_keeps_dirty (s : BufferPoolManagerInstance) (p : Z) :
  (∀ f pg, page_table_ s !! p = Some f → page_at (pages_ s) f = Some pg →
     is_dirty_ pg = true →
     ∃ s' b pg', UnpinPgImp s p false = Some (s', b)
       ∧ page_table_ s' !! p = Some f
       ∧ page_at (pages_ s') f = Some pg' ∧ is_dirty_ pg' = true)
  ∧ (∀ s1, UnpinPgImp s p true = Some (s1, true) →
     ∃ f s2 b pg2, page_table_ s1 !! p = Some f
       ∧ UnpinPgImp s1 p false = Some (s2, b)
       ∧ page_at (pages_ s2) f = Some pg2 ∧ is_dirty_ pg2 = true).
Proof.
  assert (Hfirst : ∀ s f pg, page_table_ s !! p = Some f →
            page_at (pages_ s) f = Some pg → is_dirty_ pg = true →
            ∃ s' b pg', UnpinPgImp s p false = Some (s', b)
              ∧ page_table_ s' !! p = Some f
              ∧ page_at (pages_ s') f = Some pg' ∧ is_dirty_ pg' = true).
  { clear s. intros s f pg Hp Hpg Hd. unfold UnpinPgImp. rewrite Hp, Hpg. simpl.
    destruct (Z.leb_spec (pin_count_ pg) 0).
    - by exists s, false, pg.
    - eexists _, true, _. split; [done|]. simpl. split; [done|].
      split; [apply page_at_store_eq; by eexists|done]. }
  split; [apply Hfirst|].
  intros s1 [(_ & _ & [=])|(f & pg & Hp & Hpg & [(_ & _ & [=])|(Hpos & _ & Hs1)])]%UnpinPgImp_cases.
  assert (Ht : page_table_ s1 !! p = Some f) by (by rewrite Hs1).
  assert (Hpg1 : page_at (pages_ s1) f
                 = Some (mkPage (data_ pg) (page_id_ pg) (pin_count_ pg - 1) true)).
  { rewrite Hs1. simpl. apply page_at_store_eq. by eexists. }
  destruct (Hfirst s1 f _ Ht Hpg1 eq_refl) as (s2 & b & pg2 & ? & _ & ? & ?).
  by exists f, s2, b, pg2.
Qed.

Lemma unpin_clean_keeps_dirty_witness :
  let s := state_after 1 2 [NewPage; UnpinPage 0 true; FetchPage 0] in
  page_table_ s !! 0 = Some 0
  ∧ page_at (pages_ s) 0 = Some (mkPage zeroed 0 1 true)
  ∧ ∃ s' b pg', UnpinPgImp s 0 false = Some (s', b)
      ∧ page_table_ s' !! 0 = Some 0
      ∧ page_at (pages_ s') 0 = Some pg' ∧ is_dirty_ pg' = true.
Proof.
  intros s.
  assert (H1 : page_table_ s !! 0 = Some 0) by (by vm_compute).
  assert (H2 : page_at (pages_ s) 0 = Some (mkPage zeroed 0 1 true)) by (by vm_compute).
  split; [exact H1|]. split; [exact H2|].
  exact (proj1 (unpin_clean_keeps_dirty s 0) 0 _ H1 H2 eq_refl).
Defined.

(** C10.  [FlushPgImp] changes nothing in memory — frames, dirty bits, page
    table, free list, replacer — and returns [false] without touching the
    disk when the page id is invalid or not resident; otherwise it makes one
    [WritePage] call with the frame's bytes and returns [true]. *)
Theorem FlushPgImp_only_writes (s : BufferPoolManagerInstance) (p : Z) :
  ((p = INVALID_PAGE_ID ∨ page_table_ s !! p = None) →
     FlushPgImp s p = Some (s, false))
  ∧ (∀ f pg, p ≠ INVALID_PAGE_ID → page_table_ s !! p = Some f →
       page_at (pages_ s) f = Some pg →
       ∃ s', FlushPgImp s p = Some (s', true)
         ∧ same_memory s s'
         ∧ calls (disk_manager_ s')
           = calls (disk_manager_ s) ++ [WritePageCall p (data_ pg)]
         ∧ stored (disk_manager_ s') = <[p := data_ pg]> (stored (disk_manager_ s))).
Proof.
  unfold FlushPgImp, INVALID_PAGE_ID. split.
  - intros [->|Hp]; [done|]. rewrite Hp. by destruct (p =? -1).
  - intros f pg Hne Hp Hpg. rewrite Hp, Hpg.
    destruct (Z.eqb_spec p (-1)); [done|]. simpl.
    eexists. split; [done|]. by repeat split.
Qed.

Lemma FlushPgImp_only_writes_witness :
  let s := state_after 1 2 [NewPage; UnpinPage 0 true] in
  0 ≠ INVALID_PAGE_ID
  ∧ page_table_ s !! 0 = Some 0
  ∧ page_at (pages_ s) 0 = Some (mkPage zeroed 0 0 true)
  ∧ ∃ s', FlushPgImp s 0 = Some (s', true)
      ∧ same_memory s s'
      ∧ calls (disk_manager_ s') = calls (disk_manager_ s) ++ [WritePageCall 0 zeroed]
      ∧ stored (disk_manager_ s') = <[0 := zeroed]> (stored (disk_manager_ s)).
Proof.
  intros s.
  assert (H0 : 0 ≠ INVALID_PAGE_ID) by done.
  assert (H1 : page_table_ s !! 0 = Some 0) by (by vm_compute).
  assert (H2 : page_at (pages_ s) 0 = Some (mkPage zeroed 0 0 true)) by (by vm_compute).
  split; [exact H0|]. split; [exact H1|]. split; [exact H2|].
  exact (proj2 (FlushPgImp_only_writes s 0) 0 _ H0 H1 H2).
Defined.

(** C7.  [DeletePgImp] returns [true] and does nothing when the page is not
    resident; returns [false] and does nothing when it is resident and
    pinned; and otherwise drops the frame from the replacer, resets it to the
    empty frame, removes the page-table entry, appends the frame to the free
    list, tells the disk manager the page id is deallocated and returns
    [true]. *)
Theorem DeletePgImp_contract (s : BufferPoolManagerInstance) (p : Z) :
  (page_table_ s !! p = None → DeletePgImp s p = Some (s, true))
  ∧ (∀ f pg, page_table_ s !! p = Some f → page_at (pages_ s) f = Some pg →
       (0 < pin_count_ pg → DeletePgImp s p = Some (s, false))
       ∧ (pin_count_ pg ≤ 0 →
          ∃ s', DeletePgImp s p = Some (s', true)
            ∧ replacer_ s' = Remove (replacer_ s) f
            ∧ forgotten (replacer_ s') f
            ∧ page_at (pages_ s') f = Some (mkPage zeroed INVALID_PAGE_ID 0 false)
            ∧ (∀ g, g ≠ f → page_at (pages_ s') g = page_at (pages_ s) g)
            ∧ page_table_ s' = delete p (page_table_ s)
            ∧ free_list_ s' = free_list_ s ++ [f]
            ∧ calls (disk_manager_ s')
              = calls (disk_manager_ s) ++ [DeallocatePageCall p]
            ∧ next_page_id_ s' = next_page_id_ s)).
Proof.
  unfold DeletePgImp. split.
  - by intros ->.
  - intros f pg Hp Hpg. rewrite Hp, Hpg. simpl.
    assert (Hsome : is_Some (page_at (pages_ s) f)) by (by eexists).
    split; intros Hpin.
    + destruct (Z.ltb_spec 0 (pin_count_ pg)); [done|lia].
    + destruct (Z.ltb_spec 0 (pin_count_ pg)); [lia|].
      eexists. split; [done|]. simpl. split_and!; try done.
      * unfold forgotten, Remove. simpl. by rewrite !lookup_delete_eq.
      * by apply page_at_store_eq.
      * intros g Hg. by apply page_at_store_ne.
Qed.

Lemma DeletePgImp_contract_witness :
  let s := state_after 2 2 [NewPage; UnpinPage 0 true] in
  page_table_ s !! 0 = Some 0
  ∧ page_at (pages_ s) 0 = Some (mkPage zeroed 0 0 true)
  ∧ (0 < 0 → DeletePgImp s 0 = Some (s, false))
  ∧ (0 ≤ 0 →
     ∃ s', DeletePgImp s 0 = Some (s', true)
       ∧ replacer_ s' = Remove (replacer_ s) 0
       ∧ forgotten (replacer_ s') 0
       ∧ page_at (pages_ s') 0 = Some (mkPage zeroed INVALID_PAGE_ID 0 false)
       ∧ (∀ g, g ≠ 0 → page_at (pages_ s') g = page_at (pages_ s) g)
       ∧ page_table_ s' = delete 0 (page_table_ s)
       ∧ free_list_ s' = free_list_ s ++ [0]
       ∧ calls (disk_manager_ s') = calls (disk_manager_ s) ++ [DeallocatePageCall 0]
       ∧ next_page_id_ s' = next_page_id_ s).
Proof.
  intros s.
  assert (H1 : page_table_ s !! 0 = Some 0) by (by vm_compute).
  assert (H2 : page_at (pages_ s) 0 = Some (mkPage zeroed 0 0 true)) by (by vm_compute).
  split; [exact H1|]. split; [exact H2|].
  exact (proj2 (DeletePgImp_contract s 0) 0 _ H1 H2).
Defined.
Lemma UnpinPgImp_success (s : BufferPoolManagerInstance) (p f : Z) (pg : Page) (d : bool) :
  page_table_ s !! p = Some f → page_at (pages_ s) f = Some pg → 0 < pin_count_ pg →
  UnpinPgImp s p d
  = Some (mkBPM (store_page (pages_ s) f
                   (mkPage (data_ pg) (page_id_ pg) (pin_count_ pg - 1)
                           (if d then true else is_dirty_ pg)))
                (if pin_count_ pg - 1 =? 0
                 then SetEvictable (replacer_ s) f true
                 else replacer_ s)
                (page_table_ s) (free_list_ s) (next_page_id_ s) (disk_manager_ s),
          true).
Proof.
  intros Hp Hpg Hpos. unfold UnpinPgImp. rewrite Hp, Hpg. simpl.
  destruct (Z.leb_spec (pin_count_ pg) 0); [lia|]. by destruct d.
Qed.

(** C6.  In every state the pool reaches, [UnpinPgImp] returns [false] and
    changes nothing when the page is not in the page table or the pin count of
    its frame is already zero; otherwise it returns [true] and decrements the
    pin count by one, and afterwards the frame is marked evictable in the
    replacer exactly when the pin count has reached zero.  The pin count is
    never negative. *)
Theorem UnpinPgImp_contract (n : nat) (k : Z) (s : BufferPoolManagerInstance)
    (p : Z) (d : bool) :
  reachable n k s →
  (page_table_ s !! p = None → UnpinPgImp s p d = Some (s, false))
  ∧ (∀ f, page_table_ s !! p = Some f →
       ∃ pg, page_at (pages_ s) f = Some pg ∧ 0 ≤ pin_count_ pg
         ∧ (pin_count_ pg = 0 → UnpinPgImp s p d = Some (s, false))
         ∧ (0 < pin_count_ pg →
            ∃ s' pg', UnpinPgImp s p d = Some (s', true)
              ∧ page_at (pages_ s') f = Some pg'
              ∧ pin_count_ pg' = pin_count_ pg - 1
              ∧ 0 ≤ pin_count_ pg'
              ∧ (marked_evictable (replacer_ s') f ↔ pin_count_ pg' = 0)
              ∧ (∀ g, g ≠ f →
                   page_at (pages_ s') g = page_at (pages_ s) g
                   ∧ (marked_evictable (replacer_ s') g
                      ↔ marked_evictable (replacer_ s) g))
              ∧ page_table_ s' = page_table_ s
              ∧ free_list_ s' = free_list_ s)).
Proof.
  intros Hinv%reachable_by_inv. split.
  - unfold UnpinPgImp. by intros ->.
  - intros f Hp.
    destruct (inv_table _ _ Hinv p f Hp) as (_ & Htr & pg & Hpg & _).
    pose proof (inv_pin _ _ Hinv f pg Hpg) as Hpin.
    assert (Hsome : is_Some (page_at (pages_ s) f)) by (by eexists).
    exists pg. split_and!; [done..| |].
    + intros Hz. unfold UnpinPgImp. rewrite Hp, Hpg. simpl. by rewrite Hz.
    + intros Hpos. rewrite (UnpinPgImp_success s p f pg d) by done.
      eexists _, _. split; [done|]. simpl.
      split; [by apply page_at_store_eq|]. simpl.
      split_and!; [done|lia| | |done..].
      * destruct (Z.eqb_spec (pin_count_ pg - 1) 0) as [Hz|Hnz].
        -- rewrite SetEvictable_marked. case_decide as Hd; [done|].
           destruct Hd. done.
        -- split; [|done]. intros Hm.
           destruct (inv_evictable _ _ Hinv f Hm) as (_ & pg0 & ? & ?).
           assert (pg0 = pg) by congruence. subst. lia.
      * intros g Hg. split; [by apply page_at_store_ne|].
        destruct (pin_count_ pg - 1 =? 0); [|done].
        rewrite SetEvictable_marked. case_decide as Hd; [by destruct Hd|done].
Qed.

Lemma UnpinPgImp_contract_witness :
  let s := state_after 2 2 [NewPage; FetchPage 0] in
  reachable 2 2 s
  ∧ (page_table_ s !! 0 = None → UnpinPgImp s 0 true = Some (s, false))
  ∧ (∀ f, page_table_ s !! 0 = Some f →
       ∃ pg, page_at (pages_ s) f = Some pg ∧ 0 ≤ pin_count_ pg
         ∧ (pin_count_ pg = 0 → UnpinPgImp s 0 true = Some (s, false))
         ∧ (0 < pin_count_ pg →
            ∃ s' pg', UnpinPgImp s 0 true = Some (s', true)
              ∧ page_at (pages_ s') f = Some pg'
              ∧ pin_count_ pg' = pin_count_ pg - 1
              ∧ 0 ≤ pin_count_ pg'
              ∧ (marked_evictable (replacer_ s') f ↔ pin_count_ pg' = 0)
              ∧ (∀ g, g ≠ f →
                   page_at (pages_ s') g = page_at (pages_ s) g
                   ∧ (marked_evictable (replacer_ s') g
                      ↔ marked_evictable (replacer_ s) g))
              ∧ page_table_ s' = page_table_ s
              ∧ free_list_ s' = free_list_ s)).
Proof.
  intros s.
  assert (Hs : reachable 2 2 s).
  { apply (run_reachable 2 2 new_disk [NewPage; FetchPage 0]); by vm_compute. }
  split; [exact Hs|]. exact (UnpinPgImp_contract 2 2 s 0 true Hs).
Defined.

(** Unpinning page 0 twice after it was pinned twice: the second unpin
    brings the pin count to zero and marks frame 0 evictable; a third is
    refused. *)
Example unpin_to_zero_scenario :
  let s := state_after 2 2 [NewPage; FetchPage 0; UnpinPage 0 false; UnpinPage 0 false] in
  (pin_count_ <$> page_at (pages_ s) 0) = Some 0
  ∧ evictable_ (replacer_ s) !! 0 = Some true
  ∧ UnpinPgImp s 0 false = Some (s, false).
Proof. by vm_compute. Qed.
(** C8, as stated: in every reachable state the page table contains [(p, f)]
    if and only if frame [f] holds page [p] and [p] is not the invalid id.
    It fails after [FetchPgImp 0] on a fresh pool followed by [NewPgImp]: the
    allocator hands out page id 0 again, frame 1 receives it, and the page
    table still sends 0 to frame 0. *)
Lemma page_table_iff_frames_fails :
  ¬ (∀ s, reachable 2 2 s →
       ∀ p f, page_table_ s !! p = Some f
              ↔ (∃ pg, page_at (pages_ s) f = Some pg ∧ page_id_ pg = p)
                ∧ p ≠ INVALID_PAGE_ID).
Proof.
  intros Hclaim.
  assert (Hs : reachable 2 2 (state_after 2 2 [FetchPage 0; NewPage])).
  { apply (run_reachable 2 2 new_disk [FetchPage 0; NewPage]); by vm_compute. }
  destruct (Hclaim _ Hs 0 1) as [_ Hback].
  assert (Hno : page_table_ (state_after 2 2 [FetchPage 0; NewPage]) !! 0 = Some 0)
    by (by vm_compute).
  rewrite Hno in Hback.
  assert (Some 0 = Some 1) as [=]. apply Hback. split; [|done].
  exists (mkPage zeroed 0 1 false). by vm_compute.
Qed.

(** C8, amended.  In every reachable state a page-table entry [(p, f)] names
    a frame that holds page [p], so a page id is mapped to one frame and two
    entries never share a frame; and when [FetchPgImp] has only been called
    on page ids the allocator had handed out, the page table contains
    [(p, f)] if and only if frame [f] holds page [p] and [p] is not the
    invalid id. *)
Theorem page_table_matches_frames (n : nat) (k : Z) (s : BufferPoolManagerInstance) :
  reachable n k s →
  (∀ p f, page_table_ s !! p = Some f →
          ∃ pg, page_at (pages_ s) f = Some pg ∧ page_id_ pg = p)
  ∧ (∀ p q f, page_table_ s !! p = Some f → page_table_ s !! q = Some f → p = q)
  ∧ (reachable_allocated n k s →
     ∀ p f, page_table_ s !! p = Some f
            ↔ (∃ pg, page_at (pages_ s) f = Some pg ∧ page_id_ pg = p)
              ∧ p ≠ INVALID_PAGE_ID).
Proof.
  intros Hinv%reachable_by_inv.
  assert (Hfwd : ∀ p f, page_table_ s !! p = Some f →
                        ∃ pg, page_at (pages_ s) f = Some pg ∧ page_id_ pg = p).
  { intros p f Hp. by destruct (inv_table _ _ Hinv p f Hp) as (_ & _ & ?). }
  split_and!; [done| |].
  - intros p q f (pg & Hpg & <-)%Hfwd (pg' & Hpg' & <-)%Hfwd. congruence.
  - intros [_ [Hnext Hkeys Hres]]%reachable_allocated_inv p f. split.
    + intros Hp. split; [by apply Hfwd|].
      apply Hkeys in Hp. unfold INVALID_PAGE_ID. lia.
    + intros [(pg & Hpg & <-) Hne]. by apply Hres.
Qed.

Lemma page_table_matches_frames_witness :
  let s := state_after 2 2 [NewPage; UnpinPage 0 true; NewPage; FetchPage 0] in
  reachable 2 2 s
  ∧ (∀ p f, page_table_ s !! p = Some f →
            ∃ pg, page_at (pages_ s) f = Some pg ∧ page_id_ pg = p)
  ∧ (∀ p q f, page_table_ s !! p = Some f → page_table_ s !! q = Some f → p = q)
  ∧ (reachable_allocated 2 2 s →
     ∀ p f, page_table_ s !! p = Some f
            ↔ (∃ pg, page_at (pages_ s) f = Some pg ∧ page_id_ pg = p)
              ∧ p ≠ INVALID_PAGE_ID).
Proof.
  intros s.
  assert (Hs : reachable 2 2 s).
  { apply (run_reachable 2 2 new_disk [NewPage; UnpinPage 0 true; NewPage; FetchPage 0]);
      by vm_compute. }
  split; [exact Hs|]. exact (page_table_matches_frames 2 2 s Hs).
Defined.

(** The run of the witness only fetches an allocated page. *)
Example allocated_run_scenario :
  reachable_allocated 2 2
    (state_after 2 2 [NewPage; UnpinPage 0 true; NewPage; FetchPage 0]).
Proof.
  apply (run_allocated_reachable 2 2 new_disk
           [NewPage; UnpinPage 0 true; NewPage; FetchPage 0]); by vm_compute.
Qed.

(** C9, as stated: every successful [NewPgImp] inserts the new page id with
    its frame into the page table.  It fails in the state [FetchPgImp 0]
    leaves a fresh pool in: page id 0 is allocated while it is resident, and
    [emplace] keeps the entry of the resident page. *)
Lemma NewPgImp_insert_fails :
  ¬ (∀ s s' p f, reachable 2 2 s → NewPgImp s = Some (s', Some (p, f)) →
       page_table_ s' !! p = Some f).
Proof.
  intros Hclaim.
  assert (Hs : reachable 2 2 (state_after 2 2 [FetchPage 0])).
  { apply (run_reachable 2 2 new_disk [FetchPage 0]); by vm_compute. }
  specialize (Hclaim (state_after 2 2 [FetchPage 0])
                     (state_after 2 2 [FetchPage 0; NewPage]) 0 1 Hs).
  assert (Some 0 = Some 1) as [=].
  etrans; [|apply Hclaim; by vm_compute]. by vm_compute.
Qed.

(** C9, amended.  In every reachable state a successful [NewPgImp] returns
    the page id of the allocation counter and a frame that holds that id with
    pin count one, a clear dirty bit and zeroed bytes; it inserts the pair
    into the page table whenever the id is not already a key, which is always
    so when [FetchPgImp] has only been called on allocated page ids; and any
    later successful [NewPgImp] returns a strictly larger page id. *)
Theorem NewPgImp_contract (n : nat) (k : Z) (s s' : BufferPoolManagerInstance)
    (p f : Z) :
  reachable n k s → NewPgImp s = Some (s', Some (p, f)) →
  p = next_page_id_ s
  ∧ page_at (pages_ s') f = Some (mkPage zeroed p 1 false)
  ∧ (page_table_ s !! p = None → page_table_ s' !! p = Some f)
  ∧ (reachable_allocated n k s → page_table_ s' !! p = Some f)
  ∧ (∀ ops s2 s3 p2 f2, run s' ops = Some s2 →
       NewPgImp s2 = Some (s3, Some (p2, f2)) → p < p2).
Proof.
  intros Hreach Hnew. pose proof (reachable_by_inv _ _ _ _ Hreach) as Hinv.
  pose proof Hnew as Hnew'.
  apply NewPgImp_cases in Hnew
    as [(_ & _ & [=])|(_ & _ & s1 & f' & pg & Hacq & Hpg & [= -> ->] & ->)].
  destruct (acquire_frame_inv n (bump s) s1 f' (pool_inv_bump _ _ Hinv) Hacq)
    as [_ ((pg1 & Hpg1 & Hpin1 & Hdirty1 & Hdata1) & _)].
  assert (pg1 = pg) by congruence. subst pg1.
  assert (Hins : page_table_ s !! next_page_id_ s = None →
                 emplace (next_page_id_ s) f' (page_table_ s1) !! next_page_id_ s = Some f').
  { intros Hnone. unfold emplace.
    assert (page_table_ s1 !! next_page_id_ s = None) as ->.
    { apply acquire_frame_cases in Hacq
        as [(? & _ & ->)|(_ & ? & ? & pg0 & _ & _ & ->)]; simpl; [done|].
      destruct (decide (next_page_id_ s = page_id_ pg0)) as [->|];
        [by rewrite lookup_delete_eq|by rewrite lookup_delete_ne]. }
    by rewrite lookup_insert_eq. }
  assert (Hnx1 : next_page_id_ s1 = next_page_id_ s + 1).
  { apply acquire_frame_cases in Hacq
      as [(? & _ & ->)|(_ & ? & ? & pg0 & _ & _ & ->)]; done. }
  split_and!; simpl.
  - done.
  - rewrite page_at_store_eq by (by eexists). by rewrite Hdirty1, Hdata1.
  - done.
  - intros [_ [_ Hkeys _]]%reachable_allocated_inv. apply Hins.
    destruct (page_table_ s !! next_page_id_ s) eqn:Hq; [|done].
    apply Hkeys in Hq. lia.
  - intros ops s2 s3 p2 f2 Hrun Hnew2.
    apply run_next_page_id in Hrun. simpl in Hrun.
    apply NewPgImp_cases in Hnew2
      as [(_ & _ & [=])|(_ & _ & ? & ? & ? & _ & _ & [= -> _] & _)].
    lia.
Qed.

Lemma NewPgImp_contract_witness :
  let s := state_after 1 2 [NewPage; UnpinPage 0 true] in
  let s' := state_after 1 2 [NewPage; UnpinPage 0 true; NewPage] in
  reachable 1 2 s ∧ NewPgImp s = Some (s', Some (1, 0))
  ∧ 1 = next_page_id_ s
  ∧ page_at (pages_ s') 0 = Some (mkPage zeroed 1 1 false)
  ∧ (page_table_ s !! 1 = None → page_table_ s' !! 1 = Some 0)
  ∧ (reachable_allocated 1 2 s → page_table_ s' !! 1 = Some 0)
  ∧ (∀ ops s2 s3 p2 f2, run s' ops = Some s2 →
       NewPgImp s2 = Some (s3, Some (p2, f2)) → 1 < p2).
Proof.
  intros s s'.
  assert (Hs : reachable 1 2 s).
  { apply (run_reachable 1 2 new_disk [NewPage; UnpinPage 0 true]); by vm_compute. }
  assert (Hnew : NewPgImp s = Some (s', Some (1, 0))) by (by vm_compute).
  split; [exact Hs|]. split; [exact Hnew|].
  exact (NewPgImp_contract 1 2 s s' 1 0 Hs Hnew).
Defined.

(** C5.  [RecordAccess] turns away every frame id at or above the replacer
    size and the sentinel [-1], leaving the state as it is, but it accepts a
    negative frame id other than [-1] and starts tracking it: on a fresh
    replacer of three frames, [RecordAccess (-2)] creates a preliminary
    history for frame [-2] and advances the clock. *)
Theorem RecordAccess_tracks_negative_frame :
  let r := RecordAccess (Replacer.new 3 2) (-2) in
  preliminary_queue_ r !! (-2) = Some [0]
  ∧ clock_ r = 1
  ∧ r ≠ Replacer.new 3 2
  ∧ RecordAccess (Replacer.new 3 2) 3 = Replacer.new 3 2
  ∧ RecordAccess (Replacer.new 3 2) (-1) = Replacer.new 3 2.
Proof.
  split_and!; by vm_compute.
Qed.

(** * Further properties of the replacer *)

(** What holds of every run of the replacer, however long: the size is
    kept, tracked frame ids passed the guard of [RecordAccess], and only
    tracked frames are marked evictable. *)
Lemma replay_guarded (num_frames k : Z) (ops : list ReplacerOp) :
  let r := replay (Replacer.new num_frames k) ops in
  replacer_size_ r = num_frames
  ∧ (∀ f, tracked r f → f < static_cast_int num_frames ∧ f ≠ -1)
  ∧ (∀ f, marked_evictable r f → tracked r f).
Proof.
  unfold replay. induction ops as [|o ops IH] using rev_ind; simpl.
  - split_and!; [done| |].
    + intros f [[? Hf]|[? Hf]]; simpl in Hf; by rewrite lookup_empty in Hf.
    + intros f [? Hf]; simpl in Hf; by rewrite lookup_empty in Hf.
  - rewrite foldl_app. simpl.
    set (r := foldl apply_op (Replacer.new num_frames k) ops) in *.
    destruct IH as (Hsz & Hb & Hm). destruct o; simpl.
    + destruct (Evict r) as [[r' f] b] eqn:HE. simpl.
      destruct (Evict_shape _ _ _ _ HE) as (Hsz' & Hfalse & Htrue).
      destruct b; [|by destruct Hfalse as [_ ->]].
      destruct Htrue as (Hev & Htr & _ & Hoth); [done|].
      assert (Hsame : ∀ g, g ≠ f → tracked r' g ↔ tracked r g).
      { intros g Hg. unfold tracked. by destruct (Hoth g Hg) as [-> ->]. }
      split_and!; [congruence| |].
      * intros g Hg. destruct (decide (g = f)) as [->|Hne]; [by apply Hb|].
        apply Hb. by apply Hsame.
      * intros g [x Hg]. rewrite Hev in Hg.
        destruct (decide (g = f)) as [->|Hne]; [by rewrite lookup_delete_eq in Hg|].
        rewrite lookup_delete_ne in Hg by done. apply Hsame; [done|].
        apply Hm. by exists x.
    + split_and!.
      * by rewrite RecordAccess_size.
      * intros g [Hg|[-> [Ha1 Ha2]]]%RecordAccess_tracked; [by apply Hb|].
        by rewrite Hsz in Ha1.
      * intros g Hg. apply RecordAccess_tracked. left. apply Hm.
        unfold marked_evictable in *. by rewrite RecordAccess_evictable in Hg.
    + split_and!.
      * by destruct (SetEvictable_queues r frame_id flag) as (_ & _ & ->).
      * intros g Hg%SetEvictable_tracked. by apply Hb.
      * intros g Hg%SetEvictable_marked. apply SetEvictable_tracked.
        case_decide as Hd; [by destruct Hd as [-> ?]|by apply Hm].
    + split_and!; [done| |].
      * intros g [Hg _]%Remove_tracked. by apply Hb.
      * intros g [Hg ?]%Remove_marked. apply Remove_tracked. split; [by apply Hm|done].
Qed.

Lemma SetEvictable_evictable (r : LRUKReplacer) (f : Z) (b : bool) :
  (tracked r f →
     evictable_ (SetEvictable r f b)
     = if b then <[f := true]> (evictable_ r) else delete f (evictable_ r))
  ∧ (¬ tracked r f → evictable_ (SetEvictable r f b) = evictable_ r).
Proof.
  unfold SetEvictable.
  change (preliminary_queue_ (tick r)) with (preliminary_queue_ r).
  change (lru_cache_queue_ (tick r)) with (lru_cache_queue_ r).
  destruct (negb (contains (preliminary_queue_ r) f)
            && negb (contains (lru_cache_queue_ r) f)) eqn:Hc.
  - split; [|done]. intros Ht%contains_tracked. congruence.
  - apply contains_tracked in Hc. split; [by destruct b|done].
Qed.

(** X1.  In every run of the replacer only tracked frames are marked
    evictable, so [Size] is the number of tracked frames that are marked
    evictable. *)
Theorem Size_counts_tracked_evictable (num_frames k : Z) (ops : list ReplacerOp) :
  let r := replay (Replacer.new num_frames k) ops in
  (∀ f, marked_evictable r f → tracked r f)
  ∧ Size r = size (dom (evictable_ r)
                   ∩ (dom (preliminary_queue_ r) ∪ dom (lru_cache_queue_ r))).
Proof.
  intros r. destruct (replay_guarded num_frames k ops) as (_ & _ & Hm).
  fold r in Hm. split; [done|].
  assert (dom (evictable_ r) ∩ (dom (preliminary_queue_ r) ∪ dom (lru_cache_queue_ r))
          = dom (evictable_ r)) as ->.
  { apply set_eq. intros f. rewrite elem_of_intersection, elem_of_union, !elem_of_dom.
    split; [by intros [? _]|]. intros Hf. split; [done|]. by apply Hm. }
  unfold Size. by rewrite size_dom.
Qed.

(** X2.  In every run of the replacer a tracked frame id is below the
    replacer size and is not the sentinel [-1]: the bound [RecordAccess]
    checks holds of whatever the replacer tracks, and so of every frame
    [Evict] returns. *)
Theorem tracked_frames_below_size (num_frames k : Z) (ops : list ReplacerOp) :
  let r := replay (Replacer.new num_frames k) ops in
  (∀ f, tracked r f → f < static_cast_int num_frames ∧ f ≠ -1)
  ∧ (∀ r' f, Evict r = (r', f, true) → f < static_cast_int num_frames ∧ f ≠ -1).
Proof.
  intros r. destruct (replay_guarded num_frames k ops) as (_ & Hb & _).
  fold r in Hb. split; [done|].
  intros r' f HE. apply Hb.
  destruct (Evict_shape _ _ _ _ HE) as (_ & _ & Htrue).
  by destruct Htrue as (_ & ? & _).
Qed.

(** X3.  How each operation moves [Size], in every run of the replacer:
    [RecordAccess] never changes it; [SetEvictable f true] adds one when [f]
    is tracked and was not marked, and nothing otherwise;
    [SetEvictable f false] and [Remove f] take one away when [f] was marked,
    and nothing otherwise; a successful [Evict] takes one away and a failed
    one nothing. *)
Theorem Size_accounting (num_frames k : Z) (ops : list ReplacerOp) (f : Z) :
  let r := replay (Replacer.new num_frames k) ops in
  Size (RecordAccess r f) = Size r
  ∧ (tracked r f → ¬ marked_evictable r f → Size (SetEvictable r f true) = S (Size r))
  ∧ (¬ tracked r f ∨ marked_evictable r f → Size (SetEvictable r f true) = Size r)
  ∧ (marked_evictable r f →
       S (Size (SetEvictable r f false)) = Size r ∧ S (Size (Remove r f)) = Size r)
  ∧ (¬ marked_evictable r f →
       Size (SetEvictable r f false) = Size r ∧ Size (Remove r f) = Size r)
  ∧ (∀ r' g, Evict r = (r', g, true) → S (Size r') = Size r)
  ∧ (∀ r' g, Evict r = (r', g, false) → Size r' = Size r).
Proof.
  intros r. destruct (replay_guarded num_frames k ops) as (_ & Hb & Hm).
  fold r in Hb, Hm.
  assert (Hpos : ∀ g, marked_evictable r g → S (pred (Size r)) = Size r).
  { intros g [x Hg]. unfold Size.
    assert (size (evictable_ r) ≠ 0%nat); [|lia].
    apply map_size_non_empty_iff. intros He. by rewrite He, lookup_empty in Hg. }
  destruct (SetEvictable_evictable r f true) as [Hst Hsn].
  destruct (SetEvictable_evictable r f false) as [Hsf Hsn'].
  unfold Size in *. split_and!.
  - by rewrite RecordAccess_evictable.
  - intros Ht Hnm. rewrite Hst by done.
    apply map_size_insert_None. destruct (evictable_ r !! f) eqn:He; [|done].
    destruct Hnm. by eexists.
  - intros [Hnt|Hmk]; [by rewrite Hsn|].
    rewrite Hst by (by apply Hm). by apply map_size_insert_Some.
  - intros Hmk. pose proof (Hm f Hmk) as Ht. split.
    + rewrite Hsf by done. rewrite map_size_delete_Some by done. by apply (Hpos f).
    + simpl. rewrite map_size_delete_Some by done. by apply (Hpos f).
  - intros Hnm.
    assert (He : evictable_ r !! f = None).
    { destruct (evictable_ r !! f) eqn:He; [|done]. destruct Hnm. by eexists. }
    split; [|simpl; by apply map_size_delete_None].
    assert (evictable_ (SetEvictable r f false) = evictable_ r ∨
            evictable_ (SetEvictable r f false) = delete f (evictable_ r)) as [->| ->];
      [|done|by apply map_size_delete_None].
    unfold SetEvictable. repeat case_match; auto.
  - intros r' g HE. destruct (Evict_shape _ _ _ _ HE) as (_ & _ & Htrue).
    destruct Htrue as (-> & _ & [Hmk|[-> Ht]] & _); [done| |by destruct (Hb _ Ht)].
    rewrite map_size_delete_Some by done. by apply (Hpos g).
  - intros r' g HE. destruct (Evict_shape _ _ _ _ HE) as (_ & Hfalse & _).
    by destruct Hfalse as [_ ->].
Qed.

(** X4.  As long as the clock has not wrapped around, [Evict] fails exactly
    when [Size] is zero. *)
Theorem Evict_fails_iff_Size_zero (num_frames k : Z) (ops : list ReplacerOp) :
  Z.of_nat (length ops) < SIZE_MAX →
  let r := replay (Replacer.new num_frames k) ops in
  (Evict r).2 = false ↔ Size r = 0%nat.
Proof.
  intros Hlen r. destruct (wf_replay num_frames k ops Hlen) as [Hwf _]. fold r in Hwf.
  destruct (Evict_wf_spec r Hwf) as (r' & f & b & HE & _ & Hb). rewrite HE. simpl.
  unfold Size. rewrite map_size_empty_iff. destruct b.
  - split; [done|]. intros He. exfalso.
    destruct Hb as ([(h & [_ [x Hm]] & _)|(_ & h & [_ [x Hm]] & _)] & _);
      by rewrite He, lookup_empty in Hm.
  - split; [|done]. intros _. destruct Hb as (_ & _ & Hnone).
    apply map_empty. intros g. destruct (evictable_ r !! g) eqn:Hg; [|done].
    destruct (Hnone g); [by eexists|]. apply (wf_evictable r Hwf). by eexists.
Qed.

Lemma Evict_fails_iff_Size_zero_witness :
  Z.of_nat (length scenario_3) < SIZE_MAX
  ∧ ((Evict (replay (Replacer.new 3 2) scenario_3)).2 = false
     ↔ Size (replay (Replacer.new 3 2) scenario_3) = 0%nat).
Proof.
  split; [by vm_compute|].
  apply (Evict_fails_iff_Size_zero 3 2 scenario_3). by vm_compute.
Defined.

(** ** Accesses in a row *)

Lemma stamps_S (c : Z) (n : nat) : stamps c (S n) = stamps c n ++ [c + Z.of_nat n].
Proof. unfold stamps. rewrite seq_S, fmap_app. done. Qed.

Lemma stamps_1 (c : Z) : stamps c 1 = [c].
Proof. unfold stamps. simpl. f_equal. lia. Qed.

Lemma length_stamps (c : Z) (n : nat) : length (stamps c n) = n.
Proof. unfold stamps. by rewrite length_fmap, length_seq. Qed.

Lemma pop_drop_push (l : list Z) (m : nat) (x : Z) :
  (m < length l)%nat → pop_front (drop m l) ++ [x] = drop (S m) (l ++ [x]).
Proof.
  intros Hm. unfold pop_front.
  replace (tl (drop m l)) with (drop (S m) l).
  - by rewrite drop_app_le by lia.
  - clear x. revert m Hm. induction l as [|y l IH]; intros m Hm; simpl in *; [lia|].
    destruct m; simpl; [by rewrite drop_0|]. apply IH. lia.
Qed.

Lemma RecordAccess_step (r : LRUKReplacer) (f : Z) (c : Z) (n : nat) :
  accepted r f → 0 ≤ clock_ r < SIZE_MAX → clock_ r = c + Z.of_nat n →
  accessed r f c n →
  let r' := RecordAccess r f in
  accessed r' f c (S n)
  ∧ clock_ r' = c + Z.of_nat (S n)
  ∧ k_ r' = k_ r ∧ replacer_size_ r' = replacer_size_ r
  ∧ evictable_ r' = evictable_ r
  ∧ ∀ g, g ≠ f → preliminary_queue_ r' !! g = preliminary_queue_ r !! g
               ∧ lru_cache_queue_ r' !! g = lru_cache_queue_ r !! g.
Proof.
  intros [Ha1 Ha2] Hclk Hc Hacc. simpl.
  assert (Hc1 : size_incr (clock_ r) = c + Z.of_nat (S n))
    by (rewrite size_incr_small by done; lia).
  unfold RecordAccess.
  destruct (Z.leb_spec (static_cast_int (replacer_size_ r)) f); [lia|].
  destruct (Z.eqb_spec f (-1)); [done|]. simpl.
  assert (Hw : (1 ≤ window r)%nat) by (unfold window; lia).
  destruct n as [|n].
  - destruct Hacc as [Hp Hq]. rewrite Hq, Hp. simpl.
    replace (clock_ r) with c by lia.
    destruct (Z.leb_spec (k_ r) (Z.of_nat 1)) as [Hk|Hk];
      unfold accessed, window, tick, set_clock, set_preliminary, set_cache; simpl;
      rewrite ?Hc1.
    + split_and!; try done.
      * rewrite decide_False by lia.
        rewrite lookup_delete_eq, lookup_insert_eq.
        replace (Z.to_nat (Z.max (k_ r) 1)) with 1%nat by lia.
        split; [done|]. by rewrite stamps_1.
      * intros g Hg. by rewrite lookup_delete_ne, lookup_insert_ne.
    + split_and!; try done.
      * rewrite decide_True by lia.
        rewrite lookup_insert_eq. split; [|done]. by rewrite stamps_1.
      * intros g Hg. by rewrite lookup_insert_ne.
  - unfold accessed in Hacc. case_decide as Hlt.
    + destruct Hacc as [Hp Hq]. rewrite Hq, Hp. cbn [from_option id].
      rewrite length_app, length_stamps. simpl length.
      rewrite Hc, <- stamps_S.
      destruct (Z.leb_spec (k_ r) (Z.of_nat (S n + 1))) as [Hk|Hk];
        unfold accessed, window, tick, set_clock, set_preliminary, set_cache;
        cbn [k_ clock_ replacer_size_ preliminary_queue_ lru_cache_queue_ evictable_];
        rewrite ?Hc1.
      * split_and!; try done.
        -- rewrite decide_False by lia.
           rewrite lookup_delete_eq, lookup_insert_eq. split; [done|].
           replace (S (S n) - Z.to_nat (Z.max (k_ r) 1))%nat with 0%nat by lia.
           by rewrite drop_0.
        -- intros g Hg. by rewrite lookup_delete_ne, lookup_insert_ne.
      * split_and!; try done.
        -- rewrite decide_True by lia.
           by rewrite lookup_insert_eq.
        -- intros g Hg. by rewrite lookup_insert_ne.
    + destruct Hacc as [Hp Hq]. rewrite Hq.
      unfold accessed, tick, set_clock, set_preliminary, set_cache;
        cbn [k_ clock_ replacer_size_ preliminary_queue_ lru_cache_queue_ evictable_];
        rewrite ?Hc1.
      split_and!; try done.
      * rewrite decide_False by lia.
        rewrite lookup_insert_eq. split; [done|]. f_equal.
        change (window (mkReplacer _ (k_ r) _ _ _ _)) with (window r).
        rewrite Hc, (stamps_S c (S n)).
        assert (S n ≥ window r)%nat by (unfold window; lia).
        replace (S (S n) - window r)%nat with (S (S n - window r)) by lia.
        apply pop_drop_push. rewrite length_stamps. lia.
      * intros g Hg. by rewrite lookup_insert_ne.
Qed.

Lemma replay_snoc (r : LRUKReplacer) (ops : list ReplacerOp) (o : ReplacerOp) :
  replay r (ops ++ [o]) = apply_op (replay r ops) o.
Proof. unfold replay. by rewrite foldl_app. Qed.

Lemma accesses_in_a_row (r : LRUKReplacer) (f : Z) (n : nat) :
  accepted r f → ¬ tracked r f →
  0 ≤ clock_ r → clock_ r + Z.of_nat n < SIZE_MAX →
  let r' := replay r (replicate n (DoRecordAccess f)) in
  accessed r' f (clock_ r) n
  ∧ clock_ r' = clock_ r + Z.of_nat n
  ∧ k_ r' = k_ r ∧ replacer_size_ r' = replacer_size_ r
  ∧ evictable_ r' = evictable_ r
  ∧ ∀ g, g ≠ f → preliminary_queue_ r' !! g = preliminary_queue_ r !! g
               ∧ lru_cache_queue_ r' !! g = lru_cache_queue_ r !! g.
Proof.
  intros Hacc Hnt Hc0. induction n as [|n IH]; intros Hroom; cbv zeta.
  - simpl. split_and!; try done; [| |lia].
    + destruct (preliminary_queue_ r !! f) eqn:Hp; [|done]. destruct Hnt. left. by eexists.
    + destruct (lru_cache_queue_ r !! f) eqn:Hp; [|done]. destruct Hnt. right. by eexists.
  - rewrite replicate_S_end, replay_snoc. cbn [apply_op].
    destruct IH as (Ha & Hclk & Hk & Hsz & Hev & Hoth); [lia|].
    set (r1 := replay r (replicate n (DoRecordAccess f))) in *.
    destruct (RecordAccess_step r1 f (clock_ r) n) as (Ha' & Hclk' & Hk' & Hsz' & Hev' & Hoth');
      [|lia|done|done|].
    { destruct Hacc. split; [|done]. by rewrite Hsz. }
    split_and!; [done|done|congruence|congruence|congruence|].
    intros g Hg. destruct (Hoth g Hg) as [<- <-]. by apply Hoth'.
Qed.

(** X5.  A frame the replacer is not tracking, accessed [n >= 1] times in a
    row from clock [c] on, has the timestamps [c .. c + n - 1] in the
    preliminary queue while [n < k_]; from the [k_]-th access on it is in
    the cache queue with the last [k_] of them (the last one when [k_] is
    zero).  The accesses touch no other frame and no evictable flag. *)
Theorem RecordAccess_keeps_last_k (r : LRUKReplacer) (f : Z) (n : nat) :
  accepted r f → ¬ tracked r f →
  0 ≤ clock_ r → clock_ r + Z.of_nat (S n) < SIZE_MAX →
  let r' := replay r (replicate (S n) (DoRecordAccess f)) in
  (Z.of_nat (S n) < k_ r →
     preliminary_queue_ r' !! f = Some (stamps (clock_ r) (S n))
     ∧ lru_cache_queue_ r' !! f = None)
  ∧ (k_ r ≤ Z.of_nat (S n) →
     preliminary_queue_ r' !! f = None
     ∧ lru_cache_queue_ r' !! f
       = Some (drop (S n - window r) (stamps (clock_ r) (S n))))
  ∧ clock_ r' = clock_ r + Z.of_nat (S n)
  ∧ evictable_ r' = evictable_ r
  ∧ ∀ g, g ≠ f → preliminary_queue_ r' !! g = preliminary_queue_ r !! g
               ∧ lru_cache_queue_ r' !! g = lru_cache_queue_ r !! g.
Proof.
  intros Hacc Hnt Hc0 Hroom.
  destruct (accesses_in_a_row r f (S n) Hacc Hnt Hc0 Hroom)
    as (Ha & Hclk & Hk & _ & Hev & Hoth).
  cbv zeta. set (r' := replay r (replicate (S n) (DoRecordAccess f))) in *.
  unfold accessed in Ha. rewrite Hk in Ha.
  split_and!; [| |done..].
  - intros Hlt. by rewrite decide_True in Ha.
  - intros Hge. rewrite decide_False in Ha by lia.
    unfold window in *. by rewrite Hk in Ha.
Qed.

Lemma RecordAccess_keeps_last_k_witness :
  accepted (Replacer.new 3 2) 0 ∧ ¬ tracked (Replacer.new 3 2) 0
  ∧ 0 ≤ clock_ (Replacer.new 3 2)
  ∧ clock_ (Replacer.new 3 2) + Z.of_nat 3 < SIZE_MAX
  ∧ (2 ≤ Z.of_nat 3 →
     preliminary_queue_ (replay (Replacer.new 3 2) (replicate 3 (DoRecordAccess 0))) !! 0
     = None
     ∧ lru_cache_queue_ (replay (Replacer.new 3 2) (replicate 3 (DoRecordAccess 0))) !! 0
       = Some (drop (3 - window (Replacer.new 3 2)) (stamps 0 3))).
Proof.
  assert (H1 : accepted (Replacer.new 3 2) 0) by (split; by vm_compute).
  assert (H2 : ¬ tracked (Replacer.new 3 2) 0).
  { intros [[x H]|[x H]]; by vm_compute in H. }
  assert (H3 : 0 ≤ clock_ (Replacer.new 3 2)) by (by vm_compute).
  assert (H4 : clock_ (Replacer.new 3 2) + Z.of_nat 3 < SIZE_MAX) by (by vm_compute).
  split_and!; [done..|].
  exact (proj1 (proj2 (RecordAccess_keeps_last_k (Replacer.new 3 2) 0 2 H1 H2 H3 H4))).
Defined.

(** X6.  As long as the clock has not wrapped around, in every run of the
    replacer each history is non-empty and strictly increasing, all its
    timestamps lie below the clock, no timestamp occurs in the histories of
    two frames, and no frame is in both queues. *)
Theorem timestamps_unique_and_ordered (num_frames k : Z) (ops : list ReplacerOp) :
  Z.of_nat (length ops) < SIZE_MAX →
  let r := replay (Replacer.new num_frames k) ops in
  (∀ f h, history_of r f h →
     h ≠ [] ∧ StronglySorted Z.lt h ∧ ∀ t, t ∈ h → 0 ≤ t < clock_ r)
  ∧ (∀ f g hf hg t, history_of r f hf → history_of r g hg → t ∈ hf → t ∈ hg → f = g)
  ∧ (∀ f, is_Some (preliminary_queue_ r !! f) → lru_cache_queue_ r !! f = None)
  ∧ clock_ r ≤ Z.of_nat (length ops).
Proof.
  intros Hlen r. destruct (wf_replay num_frames k ops Hlen) as [Hwf Hclk].
  fold r in Hwf, Hclk. split_and!; [|by apply Hwf..|done].
  intros f h Hh. by apply (wf_history_ok r f h Hwf).
Qed.

Lemma timestamps_unique_and_ordered_witness :
  Z.of_nat (length scenario_3) < SIZE_MAX
  ∧ ∀ f h, history_of (replay (Replacer.new 3 2) scenario_3) f h →
      h ≠ [] ∧ StronglySorted Z.lt h
      ∧ ∀ t, t ∈ h → 0 ≤ t < clock_ (replay (Replacer.new 3 2) scenario_3).
Proof.
  assert (H : Z.of_nat (length scenario_3) < SIZE_MAX) by (by vm_compute).
  split; [exact H|].
  exact (proj1 (timestamps_unique_and_ordered 3 2 scenario_3 H)).
Defined.

(** * Further properties of the pool *)

Section tracking.
Variable n : nat.

Lemma tracking_inv_new (d : DiskManager) (k : Z) :
  Z.of_nat n ≤ INT_MAX → tracking_inv n (Pool.new n d k).
Proof.
  intros Hn. split; simpl.
  - intros f. rewrite new_free_list by done. split.
    + intros (i & -> & Hi%elem_of_seq)%list_elem_of_fmap. split; [lia|].
      intros [[? Hf]|[? Hf]]; simpl in Hf; by rewrite lookup_empty in Hf.
    + intros [Hf _]. apply list_elem_of_fmap. exists (Z.to_nat f).
      split; [lia|]. apply elem_of_seq. lia.
  - intros f [? Hf]. simpl in Hf. by rewrite lookup_empty in Hf.
Qed.

Lemma tracking_inv_same_memory (s s' : BufferPoolManagerInstance) :
  same_memory s s' → tracking_inv n s → tracking_inv n s'.
Proof.
  intros (Hp & Hr & Ht & Hf & _) [H1 H2]. split.
  - intros f. rewrite Hf, Hr. apply H1.
  - intros f. rewrite Hr, Hp, Ht. apply H2.
Qed.

(** After [acquire_frame] the invariant holds of every frame but the
    acquired one. *)
Lemma acquire_frame_tracking (s s1 : BufferPoolManagerInstance) (f : Z) :
  pool_inv n s → tracking_inv n s → acquire_frame s = Some (s1, f) →
  (∀ g, g ≠ f → (g ∈ free_list_ s1 ↔
                   0 ≤ g < Z.of_nat n ∧ ¬ tracked (replacer_ s1) g))
  ∧ (∀ g, g ≠ f → marked_evictable (replacer_ s1) g →
       ∃ pg, page_at (pages_ s1) g = Some pg
             ∧ page_table_ s1 !! page_id_ pg = Some g).
Proof.
  intros Hinv [Hfree Hev] Hacq.
  destruct (decide (free_list_ s = [])) as [Hfl|Hfl].
  - apply acquire_frame_evicts in Hacq as (r' & pg0 & HE & Hmk & Hpg0 & ->); [|done].
    destruct (Evict_shape _ _ _ _ HE) as (_ & _ & Htrue).
    destruct Htrue as (Hevd & _ & _ & Hoth); [done|].
    assert (Htr' : ∀ g, g ≠ f → tracked r' g ↔ tracked (replacer_ s) g).
    { intros g Hg. unfold tracked. destruct (Hoth g Hg) as [-> ->]. done. }
    destruct (Hev f Hmk) as (pgf & Hpgf & Htf).
    assert (pgf = pg0) by congruence. subst pgf.
    simpl. split.
    + intros g Hg. rewrite Htr' by done. rewrite <- Hfree, Hfl. done.
    + intros g Hg [x Hx]. rewrite Hevd, lookup_delete_ne in Hx by done.
      destruct (Hev g) as (pg & Hpg & Htg); [by eexists|].
      exists pg. rewrite page_at_store_ne by (by eexists || done).
      split; [done|]. rewrite lookup_delete_ne; [done|]. intros Heq.
      rewrite Heq in Htf. congruence.
  - apply acquire_frame_cases in Hacq as [(rest & Hfl' & ->)|(? & _)]; [|done].
    simpl. pose proof (inv_free_nodup _ _ Hinv) as Hnd. rewrite Hfl' in Hnd.
    apply NoDup_cons in Hnd as [Hnotin _]. split; [|by intros g _; apply Hev].
    intros g Hg. rewrite <- Hfree, Hfl'. rewrite elem_of_cons. tauto.
Qed.

Lemma install_tracking (s : BufferPoolManagerInstance) (f p : Z) (pg : Page)
    (nx : Z) (d : DiskManager) :
  pool_inv n s → detached s f → page_id_ pg = p →
  (∀ g, g ≠ f → (g ∈ free_list_ s ↔
                   0 ≤ g < Z.of_nat n ∧ ¬ tracked (replacer_ s) g)) →
  (∀ g, g ≠ f → marked_evictable (replacer_ s) g →
     ∃ pg', page_at (pages_ s) g = Some pg'
            ∧ page_table_ s !! page_id_ pg' = Some g) →
  tracking_inv n (mkBPM (store_page (pages_ s) f pg)
                        (SetEvictable (RecordAccess (replacer_ s) f) f false)
                        (emplace p f (page_table_ s)) (free_list_ s) nx d).
Proof.
  intros Hinv ((pg0 & Hpg0 & _) & Hnotab & Hnofree) Hid Hfree Hev.
  pose proof (page_at_range _ _ _ Hpg0) as Hrange.
  rewrite (inv_length _ _ Hinv) in Hrange.
  assert (Hacc : accepted (replacer_ s) f).
  { unfold accepted. rewrite (inv_size _ _ Hinv).
    pose proof (inv_bound _ _ Hinv). rewrite static_cast_int_small by lia. lia. }
  split; simpl.
  - intros g. rewrite SetEvictable_tracked, RecordAccess_tracked.
    destruct (decide (g = f)) as [->|Hne].
    + split; [done|]. intros [_ Hn]. destruct Hn. by right.
    + rewrite (Hfree g Hne). tauto.
  - intros g Hg%SetEvictable_marked. case_decide as Hd; [done|].
    assert (g ≠ f) as Hne.
    { intros ->. apply Hd. split; [done|]. apply RecordAccess_tracked. by right. }
    unfold marked_evictable in Hg. rewrite RecordAccess_evictable in Hg.
    destruct (Hev g Hne Hg) as (pg' & Hpg' & Htg).
    exists pg'. rewrite page_at_store_ne by (by eexists || done).
    split; [done|]. unfold emplace.
    destruct (page_table_ s !! p) eqn:Hp; [done|].
    rewrite lookup_insert_ne; [done|]. intros Heq. congruence.
Qed.

Lemma exec_tracking (s s' : BufferPoolManagerInstance) (o : Op) :
  pool_inv n s → tracking_inv n s → exec s o = Some s' → tracking_inv n s'.
Proof.
  intros Hinv Htinv. destruct o; simpl.
  - destruct (NewPgImp s) as [[s0 res]|] eqn:Hop; simpl; [|done]. intros [= <-].
    apply NewPgImp_cases in Hop
      as [(_ & -> & _)|(_ & _ & s1 & f & pg & Hacq & Hpg & _ & ->)]; [done|].
    apply pool_inv_bump in Hinv.
    destruct (acquire_frame_inv _ _ _ _ Hinv Hacq) as [Hinv1 Hdet].
    destruct (acquire_frame_tracking (bump s) s1 f) as [H1 H2]; [done| |done|].
    { destruct Htinv. by split. }
    by apply install_tracking.
  - destruct (FetchPgImp s page_id) as [[s0 res]|] eqn:Hop; simpl; [|done].
    intros [= <-].
    apply FetchPgImp_cases in Hop
      as [(f & pg & Hp & Hpg & _ & _ & ->)
         |[(_ & _ & -> & _)|(_ & _ & s1 & f & pg & Hacq & Hpg & _ & ->)]];
      [|done|].
    + destruct Htinv as [Hfree Hev].
      destruct (inv_table _ _ Hinv _ _ Hp) as (Hnf & Htr & _).
      split; simpl.
      * intros g. rewrite SetEvictable_tracked, RecordAccess_tracked, Hfree.
        split; intros [? Hn]; (split; [done|]).
        -- intros [?|[-> _]]; done.
        -- intros ?. apply Hn. by left.
      * intros g Hg%SetEvictable_marked. case_decide as Hd; [done|].
        assert (g ≠ f) as Hne.
        { intros ->. apply Hd. split; [done|]. apply RecordAccess_tracked. by left. }
        unfold marked_evictable in Hg. rewrite RecordAccess_evictable in Hg.
        destruct (Hev g Hg) as (pg' & Hpg' & Htg).
        exists pg'. by rewrite page_at_store_ne by (by eexists || done).
    + destruct (acquire_frame_inv _ _ _ _ Hinv Hacq) as [Hinv1 Hdet].
      destruct (acquire_frame_tracking s s1 f) as [H1 H2]; [done..|].
      by apply install_tracking.
  - destruct (UnpinPgImp s page_id is_dirty) as [[s0 res]|] eqn:Hop; simpl; [|done].
    intros [= <-].
    apply UnpinPgImp_cases in Hop
      as [(_ & -> & _)|(f & pg & Hp & Hpg & [(_ & -> & _)|(Hpos & _ & ->)])];
      [done..|].
    destruct Htinv as [Hfree Hev].
    destruct (inv_table _ _ Hinv _ _ Hp) as (Hnf & Htr & pg0 & Hpg0 & Hid0).
    assert (pg0 = pg) by congruence. subst pg0.
    split; simpl.
    + intros g. rewrite Hfree. case_match; [by rewrite SetEvictable_tracked|done].
    + intros g Hg. rewrite page_at_store by (by eexists).
      case_decide as Hd.
      * subst g. eexists. split; [done|]. simpl. by rewrite Hid0.
      * apply Hev. destruct (pin_count_ pg - 1 =? 0); [|done].
        apply SetEvictable_marked in Hg. case_decide as Hd'; [by destruct Hd'|done].
  - destruct (FlushPgImp s page_id) as [[s0 res]|] eqn:Hop; simpl; [|done].
    intros [= <-]. eapply tracking_inv_same_memory; [|done].
    by eapply FlushPgImp_same_memory.
  - intros Hop. eapply tracking_inv_same_memory; [|done].
    by eapply FlushAllPgsImp_same_memory.
  - destruct (DeletePgImp s page_id) as [[s0 res]|] eqn:Hop; simpl; [|done].
    intros [= <-].
    apply DeletePgImp_cases in Hop
      as [(_ & -> & _)|(f & pg & Hp & Hpg & [(_ & -> & _)|(Hpos & _ & ->)])];
      [done..|].
    destruct Htinv as [Hfree Hev].
    destruct (inv_table _ _ Hinv _ _ Hp) as (Hnf & Htr & _).
    pose proof (page_at_range _ _ _ Hpg) as Hrange.
    rewrite (inv_length _ _ Hinv) in Hrange.
    split; simpl.
    + intros g. rewrite elem_of_app, list_elem_of_singleton, Remove_tracked, Hfree.
      destruct (decide (g = f)) as [->|Hne]; [|tauto].
      split; [|intros _; by right]. intros _. split; [done|]. by intros [_ ?].
    + intros g [Hg Hne]%Remove_marked.
      destruct (Hev g Hg) as (pg' & Hpg' & Htg).
      exists pg'. rewrite page_at_store_ne by (by eexists || done).
      split; [done|]. rewrite lookup_delete_ne; [done|]. intros Heq.
      rewrite <- Heq in Htg. congruence.
  - intros (pg & Hpg & Hpos & _ & ->)%write_bytes_cases.
    destruct Htinv as [Hfree Hev]. split; simpl; [done|].
    intros g Hg. destruct (Hev g Hg) as (pg' & Hpg' & Htg).
    rewrite page_at_store by (by eexists). case_decide as Hd.
    + subst g. eexists. split; [done|]. simpl. congruence.
    + by exists pg'.
Qed.

End tracking.

Lemma reachable_tracking (allowed : BufferPoolManagerInstance → Op → Prop)
    (n : nat) (k : Z) (s : BufferPoolManagerInstance) :
  reachable_by allowed n k s → tracking_inv n s.
Proof.
  induction 1 as [d Hn|s o s' Hr IH _ Hex].
  - by apply tracking_inv_new.
  - eapply exec_tracking; [by eapply reachable_by_inv|done..].
Qed.

(** X7.  In every state the pool reaches, the free list has no duplicates;
    a frame in it is empty (invalid page id, pin count zero, clean, zeroed),
    is the target of no page-table entry and is not tracked by the replacer;
    and every frame of the pool the replacer does not track is in it. *)
Theorem free_list_is_the_untracked_frames (n : nat) (k : Z)
    (s : BufferPoolManagerInstance) :
  reachable n k s →
  NoDup (free_list_ s)
  ∧ (∀ f, f ∈ free_list_ s →
       page_at (pages_ s) f = Some empty_page
       ∧ (∀ p, page_table_ s !! p ≠ Some f)
       ∧ ¬ tracked (replacer_ s) f)
  ∧ (∀ f, 0 ≤ f < Z.of_nat n → ¬ tracked (replacer_ s) f → f ∈ free_list_ s).
Proof.
  intros Hreach.
  pose proof (reachable_by_inv _ _ _ _ Hreach) as Hinv.
  pose proof (reachable_tracking _ _ _ _ Hreach) as [Hfree _].
  split_and!.
  - apply Hinv.
  - intros f Hf. split_and!.
    + by apply Hinv.
    + intros p Hp. by destruct (inv_table _ _ Hinv p f Hp) as [? _].
    + by apply Hfree.
  - intros f Hr Hnt. by apply Hfree.
Qed.

Lemma free_list_is_the_untracked_frames_witness :
  let s := state_after 3 2 [NewPage; NewPage; UnpinPage 0 false; DeletePage 0] in
  reachable 3 2 s
  ∧ NoDup (free_list_ s)
  ∧ (∀ f, f ∈ free_list_ s →
       page_at (pages_ s) f = Some empty_page
       ∧ (∀ p, page_table_ s !! p ≠ Some f)
       ∧ ¬ tracked (replacer_ s) f)
  ∧ (∀ f, 0 ≤ f < Z.of_nat 3 → ¬ tracked (replacer_ s) f → f ∈ free_list_ s).
Proof.
  intros s.
  assert (Hs : reachable 3 2 s).
  { apply (run_reachable 3 2 new_disk
             [NewPage; NewPage; UnpinPage 0 false; DeletePage 0]); by vm_compute. }
  split; [exact Hs|]. exact (free_list_is_the_untracked_frames 3 2 s Hs).
Defined.

(** X8.  In every state the pool reaches, a frame is marked evictable in the
    replacer exactly when it is unpinned and not in the free list; such a
    frame is the page-table entry of the page it holds. *)
Theorem evictable_iff_unpinned_resident (n : nat) (k : Z)
    (s : BufferPoolManagerInstance) :
  reachable n k s →
  ∀ f, (marked_evictable (replacer_ s) f ↔
          ∃ pg, page_at (pages_ s) f = Some pg ∧ pin_count_ pg = 0
                ∧ f ∉ free_list_ s)
       ∧ (marked_evictable (replacer_ s) f →
          ∃ pg, page_at (pages_ s) f = Some pg
                ∧ page_table_ s !! page_id_ pg = Some f).
Proof.
  intros Hreach f.
  pose proof (reachable_by_inv _ _ _ _ Hreach) as Hinv.
  pose proof (reachable_tracking _ _ _ _ Hreach) as [Hfree Hev].
  pose proof (reachable_at_hand _ _ _ _ Hreach) as Hat.
  split; [|apply Hev]. split.
  - intros Hm. destruct (inv_evictable _ _ Hinv f Hm) as (Ht & pg & Hpg & Hpin).
    exists pg. split_and!; [done..|]. intros [_ Hnt]%Hfree. done.
  - intros (pg & Hpg & Hpin & Hnf). by destruct (Hat f pg Hpg Hpin).
Qed.

Lemma evictable_iff_unpinned_resident_witness :
  let s := state_after 2 2 [NewPage; NewPage; UnpinPage 0 false] in
  reachable 2 2 s
  ∧ ∀ f, (marked_evictable (replacer_ s) f ↔
            ∃ pg, page_at (pages_ s) f = Some pg ∧ pin_count_ pg = 0
                  ∧ f ∉ free_list_ s)
         ∧ (marked_evictable (replacer_ s) f →
            ∃ pg, page_at (pages_ s) f = Some pg
                  ∧ page_table_ s !! page_id_ pg = Some f).
Proof.
  intros s.
  assert (Hs : reachable 2 2 s).
  { apply (run_reachable 2 2 new_disk [NewPage; NewPage; UnpinPage 0 false]);
      by vm_compute. }
  split; [exact Hs|]. exact (evictable_iff_unpinned_resident 2 2 s Hs).
Defined.

(** X9.  In every state the pool reaches, the resident pages and the free
    frames together never outnumber the frames of the pool. *)
Theorem resident_and_free_within_pool (n : nat) (k : Z)
    (s : BufferPoolManagerInstance) :
  reachable n k s →
  (size (page_table_ s) + length (free_list_ s) ≤ n)%nat.
Proof.
  intros Hinv%reachable_by_inv.
  set (frames := (map_to_list (page_table_ s)).*2 ++ free_list_ s).
  assert (Hentry : ∀ p f, (p, f) ∈ map_to_list (page_table_ s) →
            (f ∉ free_list_ s)
            ∧ ∃ pg, page_at (pages_ s) f = Some pg ∧ page_id_ pg = p).
  { intros p f Hp%elem_of_map_to_list.
    by destruct (inv_table _ _ Hinv p f Hp) as (? & _ & ?). }
  assert (Hnd : NoDup frames).
  { apply NoDup_app. split_and!.
    - apply NoDup_fmap_2_strong; [|apply NoDup_map_to_list].
      intros [p f] [q g] Hp Hq. simpl. intros <-.
      destruct (Hentry p f Hp) as (_ & pg & Hpg & <-).
      destruct (Hentry q f Hq) as (_ & pg' & Hpg' & <-). congruence.
    - intros f ([p g] & -> & Hp)%list_elem_of_fmap. simpl.
      by destruct (Hentry p g Hp).
    - apply Hinv. }
  assert (Hsub : ∀ f, f ∈ frames → f ∈ Z.of_nat <$> seq 0 n).
  { intros f Hf.
    assert (is_Some (page_at (pages_ s) f)) as [pg Hpg].
    { apply elem_of_app in Hf as [([p g] & -> & Hp)%list_elem_of_fmap|Hf].
      - destruct (Hentry p g Hp) as (_ & pg & ? & _). by eexists.
      - rewrite (inv_free _ _ Hinv f Hf). by eexists. }
    apply page_at_range in Hpg. rewrite (inv_length _ _ Hinv) in Hpg.
    apply list_elem_of_fmap. exists (Z.to_nat f). split; [lia|].
    apply elem_of_seq. lia. }
  pose proof (submseteq_length _ _ (NoDup_submseteq _ _ Hnd Hsub)) as Hlen.
  unfold frames in Hlen.
  rewrite length_app, !length_fmap, length_map_to_list, length_seq in Hlen.
  done.
Qed.

Lemma resident_and_free_within_pool_witness :
  let s := state_after 2 2 [NewPage; UnpinPage 0 false; NewPage; NewPage] in
  reachable 2 2 s ∧ (size (page_table_ s) + length (free_list_ s) ≤ 2)%nat.
Proof.
  intros s.
  assert (Hs : reachable 2 2 s).
  { apply (run_reachable 2 2 new_disk [NewPage; UnpinPage 0 false; NewPage; NewPage]);
      by vm_compute. }
  split; [exact Hs|]. exact (resident_and_free_within_pool 2 2 s Hs).
Defined.

Lemma num_free_pages_zero (pages : list Page) :
  num_free_pages pages = 0%nat ↔
  ∀ f pg, page_at pages f = Some pg → pin_count_ pg ≠ 0.
Proof.
  unfold num_free_pages. rewrite length_zero_iff_nil. split.
  - intros Hnil f pg Hpg Hpin.
    assert (pg ∈ filter (λ p, pin_count_ p = 0) pages) as Hin.
    { apply list_elem_of_filter. split; [done|].
      unfold page_at in Hpg. case_match; [done|]. by eapply list_elem_of_lookup_2. }
    rewrite Hnil in Hin. by apply elem_of_nil in Hin.
  - intros Hall. destruct (filter _ pages) as [|pg l] eqn:Hf; [done|].
    destruct (num_free_pages_pos pages) as (f & pg' & Hpg' & Hpin').
    + unfold num_free_pages. by rewrite Hf.
    + by destruct (Hall f pg' Hpg').
Qed.

(** X10.  In a reachable state whose replacer clock has not wrapped around
    and whose allocation counter has room, [NewPgImp] returns no page
    exactly when every frame is pinned, and then it changes nothing, the
    allocation counter included; the miss path of [FetchPgImp] likewise. *)
Theorem pool_exhausted_iff_all_pinned (n : nat) (k : Z)
    (s : BufferPoolManagerInstance) :
  reachable n k s → wf (replacer_ s) → next_page_id_ s ≠ INT_MAX →
  (∃ s' res, NewPgImp s = Some (s', res)
     ∧ (res = None ↔ ∀ f pg, page_at (pages_ s) f = Some pg → pin_count_ pg ≠ 0)
     ∧ (res = None → s' = s))
  ∧ (∀ p, page_table_ s !! p = None →
     ∃ s' res, FetchPgImp s p = Some (s', res)
       ∧ (res = None ↔ ∀ f pg, page_at (pages_ s) f = Some pg → pin_count_ pg ≠ 0)
       ∧ (res = None → s' = s)).
Proof.
  intros Hreach Hwf Hnext.
  pose proof (reachable_by_inv _ _ _ _ Hreach) as Hinv.
  pose proof (reachable_at_hand _ _ _ _ Hreach) as Hat.
  split.
  - destruct (NewPgImp_defined n k s Hreach Hwf Hnext) as [[s' res] Hnew].
    exists s', res. split; [done|].
    apply NewPgImp_cases in Hnew
      as [(Hz & -> & ->)|(Hnz & _ & s1 & f & pg & _ & _ & -> & _)].
    + split; [|done]. split; [intros _; by apply num_free_pages_zero|done].
    + split; [|done]. split; [done|]. intros Hall%num_free_pages_zero. done.
  - intros p Hmiss. unfold FetchPgImp. rewrite Hmiss.
    case_bool_decide as Hfree.
    + exists s, None. split; [done|]. split; [|done].
      split; [intros _; by apply num_free_pages_zero|done].
    + destruct (acquire_frame_defined n s Hinv Hat Hwf Hfree) as (s1 & f & -> & pg & Hpg).
      simpl. rewrite Hpg. simpl. eexists _, _. split; [done|]. split; [|done].
      split; [done|]. intros Hall%num_free_pages_zero. done.
Qed.

Lemma pool_exhausted_iff_all_pinned_witness :
  let s := state_after 1 2 [NewPage] in
  reachable 1 2 s ∧ wf (replacer_ s) ∧ next_page_id_ s ≠ INT_MAX
  ∧ ∃ s' res, NewPgImp s = Some (s', res)
      ∧ (res = None ↔ ∀ f pg, page_at (pages_ s) f = Some pg → pin_count_ pg ≠ 0)
      ∧ (res = None → s' = s).
Proof.
  intros s.
  assert (Hs : reachable 1 2 s).
  { apply (run_reachable 1 2 new_disk [NewPage]); by vm_compute. }
  assert (Hwf : wf (replacer_ s)).
  { apply (run_wf 1 2 new_disk [NewPage] s); by vm_compute. }
  assert (Hn : next_page_id_ s ≠ INT_MAX) by (by vm_compute).
  split; [exact Hs|]. split; [exact Hwf|]. split; [exact Hn|].
  exact (proj1 (pool_exhausted_iff_all_pinned 1 2 s Hs Hwf Hn)).
Defined.

(** X11.  In every state the pool reaches, [FetchPgImp] of a resident page
    returns the frame the page table names, with its pin count raised by
    one and its bytes, page id and dirty bit as they were; it makes no disk
    call, leaves the page table and the free list alone, and the frame is
    not evictable afterwards.  No other frame changes. *)
Theorem FetchPgImp_hit (n : nat) (k : Z) (s : BufferPoolManagerInstance) (p f : Z) :
  reachable n k s → page_table_ s !! p = Some f →
  ∃ pg, page_at (pages_ s) f = Some pg ∧ page_id_ pg = p
    ∧ (pin_count_ pg ≠ INT_MAX →
       ∃ s', FetchPgImp s p = Some (s', Some f)
         ∧ page_at (pages_ s') f
           = Some (mkPage (data_ pg) p (pin_count_ pg + 1) (is_dirty_ pg))
         ∧ ¬ marked_evictable (replacer_ s') f
         ∧ (∀ g, g ≠ f →
              page_at (pages_ s') g = page_at (pages_ s) g
              ∧ (marked_evictable (replacer_ s') g
                 ↔ marked_evictable (replacer_ s) g))
         ∧ disk_manager_ s' = disk_manager_ s
         ∧ page_table_ s' = page_table_ s
         ∧ free_list_ s' = free_list_ s
         ∧ next_page_id_ s' = next_page_id_ s).
Proof.
  intros Hinv%reachable_by_inv Hp.
  destruct (inv_table _ _ Hinv p f Hp) as (_ & Htr & pg & Hpg & Hid).
  exists pg. split_and!; [done..|]. intros Hmax.
  unfold FetchPgImp. rewrite Hp, Hpg. simpl.
  rewrite bool_decide_eq_false_2 by done.
  eexists. split; [done|]. simpl. split_and!; try done.
  - rewrite page_at_store_eq by (by eexists). by rewrite <- Hid.
  - rewrite SetEvictable_marked. rewrite decide_True; [done|].
    split; [done|]. apply RecordAccess_tracked. by left.
  - intros g Hg. split; [by apply page_at_store_ne; [eexists|]|].
    rewrite SetEvictable_marked. rewrite decide_False by (by intros [? _]).
    unfold marked_evictable. by rewrite RecordAccess_evictable.
Qed.

Lemma FetchPgImp_hit_witness :
  let s := state_after 2 2 [NewPage; UnpinPage 0 true] in
  reachable 2 2 s ∧ page_table_ s !! 0 = Some 0
  ∧ ∃ pg, page_at (pages_ s) 0 = Some pg ∧ page_id_ pg = 0
      ∧ (pin_count_ pg ≠ INT_MAX →
         ∃ s', FetchPgImp s 0 = Some (s', Some 0)
           ∧ page_at (pages_ s') 0
             = Some (mkPage (data_ pg) 0 (pin_count_ pg + 1) (is_dirty_ pg))
           ∧ ¬ marked_evictable (replacer_ s') 0
           ∧ (∀ g, g ≠ 0 →
                page_at (pages_ s') g = page_at (pages_ s) g
                ∧ (marked_evictable (replacer_ s') g
                   ↔ marked_evictable (replacer_ s) g))
           ∧ disk_manager_ s' = disk_manager_ s
           ∧ page_table_ s' = page_table_ s
           ∧ free_list_ s' = free_list_ s
           ∧ next_page_id_ s' = next_page_id_ s).
Proof.
  intros s.
  assert (Hs : reachable 2 2 s).
  { apply (run_reachable 2 2 new_disk [NewPage; UnpinPage 0 true]); by vm_compute. }
  assert (Hp : page_table_ s !! 0 = Some 0) by (by vm_compute).
  split; [exact Hs|]. split; [exact Hp|].
  exact (FetchPgImp_hit 2 2 s 0 0 Hs Hp).
Defined.

(** The frame a miss of [FetchPgImp] returns holds what the disk stores
    under the page id, or zeroes if nothing was ever written under it. *)
Lemma fetch_miss_bytes (n : nat) (k : Z) (s s' : BufferPoolManagerInstance) (p f : Z) :
  reachable n k s → page_table_ s !! p = None →
  FetchPgImp s p = Some (s', Some f) →
  page_at (pages_ s') f
  = Some (mkPage (default zeroed (stored (disk_manager_ s) !! p)) p 1 false)
  ∧ page_table_ s' !! p = Some f
  ∧ stored (disk_manager_ s') !! p = stored (disk_manager_ s) !! p.
Proof.
  intros Hreach Hmiss Hfetch.
  pose proof (reachable_by_inv _ _ _ _ Hreach) as Hinv.
  pose proof (reachable_tracking _ _ _ _ Hreach) as [_ Hev].
  apply FetchPgImp_cases in Hfetch
    as [(f' & pg & Hp & _)
       |[(_ & _ & _ & [=])|(_ & _ & s1 & f' & pg & Hacq & Hpg & [= <-] & ->)]];
    [congruence|].
  destruct (acquire_frame_inv _ _ _ _ Hinv Hacq)
    as [_ ((pg1 & Hpg1 & _ & Hdirty & Hdata) & _)].
  assert (pg1 = pg) by congruence. subst pg1.
  assert (Hstored : stored (disk_manager_ s1) !! p = stored (disk_manager_ s) !! p
                    ∧ page_table_ s1 !! p = None).
  { apply acquire_frame_cases in Hacq
      as [(rest & _ & ->)|(Hfl & r' & b & pg0 & HE & Hpg0 & ->)]; [done|]. simpl.
    assert (Hs1 : acquire_frame s = acquire_frame s) by done.
    destruct (Evict_shape _ _ _ _ HE) as (_ & Hfalse & Htrue).
    pose proof (page_at_range _ _ _ Hpg0) as Hrange.
    destruct b; [|destruct Hfalse as [-> _]; [done|lia]].
    destruct Htrue as (_ & _ & [Hmk|[-> _]] & _); [done| |lia].
    destruct (Hev f Hmk) as (pgf & Hpgf & Htf).
    assert (pgf = pg0) by congruence. subst pgf.
    assert (page_id_ pg0 ≠ p) by (intros <-; congruence).
    split.
    - destruct (is_dirty_ pg0); [|done]. simpl. by rewrite lookup_insert_ne.
    - by rewrite lookup_delete_ne. }
  destruct Hstored as [Hst Hnone]. simpl. split_and!.
  - rewrite page_at_store_eq by (by eexists). by rewrite Hst, Hdirty, Hdata.
  - unfold emplace. rewrite Hnone. by rewrite lookup_insert_eq.
  - done.
Qed.

(** X12.  In every state the pool reaches, [FetchPgImp] of a page that is
    not resident, when it returns a frame, returns it holding the bytes the
    disk stores under that page id (zeroes if the page was never written),
    pinned once and clean, and enters it in the page table; the disk copy of
    the page is not changed by the fetch. *)
Theorem FetchPgImp_miss_reads_disk (n : nat) (k : Z)
    (s s' : BufferPoolManagerInstance) (p f : Z) :
  reachable n k s → page_table_ s !! p = None →
  FetchPgImp s p = Some (s', Some f) →
  page_at (pages_ s') f
  = Some (mkPage (default zeroed (stored (disk_manager_ s) !! p)) p 1 false)
  ∧ page_table_ s' !! p = Some f
  ∧ stored (disk_manager_ s') !! p = stored (disk_manager_ s) !! p.
Proof. apply fetch_miss_bytes. Qed.

Lemma FetchPgImp_miss_reads_disk_witness :
  let s := state_after 1 2 [NewPage; WriteBytes 0 (replicate BUSTUB_PAGE_SIZE x61);
                            UnpinPage 0 true; NewPage; UnpinPage 1 false] in
  let s' := default s (fst <$> FetchPgImp s 0) in
  reachable 1 2 s ∧ page_table_ s !! 0 = None
  ∧ FetchPgImp s 0 = Some (s', Some 0)
  ∧ page_at (pages_ s') 0
    = Some (mkPage (default zeroed (stored (disk_manager_ s) !! 0)) 0 1 false)
  ∧ page_table_ s' !! 0 = Some 0
  ∧ stored (disk_manager_ s') !! 0 = stored (disk_manager_ s) !! 0.
Proof.
  intros s s'.
  assert (Hs : reachable 1 2 s).
  { apply (run_reachable 1 2 new_disk
             [NewPage; WriteBytes 0 (replicate BUSTUB_PAGE_SIZE x61);
              UnpinPage 0 true; NewPage; UnpinPage 1 false]); by vm_compute. }
  assert (Hmiss : page_table_ s !! 0 = None) by (by vm_compute).
  assert (Hfetch : FetchPgImp s 0 = Some (s', Some 0)) by (by vm_compute).
  split; [exact Hs|]. split; [exact Hmiss|]. split; [exact Hfetch|].
  exact (FetchPgImp_miss_reads_disk 1 2 s s' 0 0 Hs Hmiss Hfetch).
Defined.

(** The bytes the pool writes into a pinned frame reach the disk when the
    frame is evicted dirty, and a later fetch reads them back. *)
Example written_bytes_survive_eviction :
  let s := state_after 1 2 [NewPage; WriteBytes 0 (replicate BUSTUB_PAGE_SIZE x61);
                            UnpinPage 0 true; NewPage; UnpinPage 1 false;
                            FetchPage 0] in
  data_ <$> page_at (pages_ s) 0 = Some (replicate BUSTUB_PAGE_SIZE x61).
Proof. by vm_compute. Qed.

(** X13.  [DeletePgImp] writes nothing back.  In every state the pool
    reaches, after a successful deletion of a resident page a [FetchPgImp]
    of the same page id takes the frame at the front of the free list and
    fills it with what the disk held before the deletion (zeroes if the page
    was never written), whatever the deleted frame held in memory and
    whether or not it was dirty; the two calls make one [DeallocatePage] and
    one [ReadPage] call on the disk and no other. *)
Theorem DeletePgImp_then_FetchPgImp (n : nat) (k : Z)
    (s s1 : BufferPoolManagerInstance) (p f : Z) :
  reachable n k s → page_table_ s !! p = Some f →
  DeletePgImp s p = Some (s1, true) →
  ∃ s2 f', FetchPgImp s1 p = Some (s2, Some f')
    ∧ head (free_list_ s ++ [f]) = Some f'
    ∧ page_at (pages_ s2) f'
      = Some (mkPage (default zeroed (stored (disk_manager_ s) !! p)) p 1 false)
    ∧ page_table_ s2 !! p = Some f'
    ∧ calls (disk_manager_ s2)
      = calls (disk_manager_ s) ++ [DeallocatePageCall p; ReadPageCall p].
Proof.
  intros Hreach Hp Hdel.
  assert (Hreach1 : reachable n k s1).
  { eapply (reachable_exec _ _ _ s (DeletePage p)); [done|done|].
    simpl. by rewrite Hdel. }
  pose proof (reachable_by_inv _ _ _ _ Hreach1) as Hinv1.
  apply DeletePgImp_cases in Hdel
    as [(? & _)|(f0 & pg & Hp' & Hpg & [(_ & _ & [=])|(Hpin & _ & Hs1)])];
    [congruence|].
  assert (f0 = f) by congruence. subst f0.
  assert (Hmiss : page_table_ s1 !! p = None).
  { rewrite Hs1. simpl. apply lookup_delete_eq. }
  assert (Hfl : ∃ f' rest, free_list_ s1 = f' :: rest
                           ∧ head (free_list_ s ++ [f]) = Some f') .
  { rewrite Hs1. simpl. destruct (free_list_ s) as [|g rest]; simpl; eauto. }
  destruct Hfl as (f' & rest & Hfl1 & Hhead).
  assert (Hf' : page_at (pages_ s1) f' = Some empty_page).
  { apply (inv_free _ _ Hinv1). rewrite Hfl1. by left. }
  assert (Hfree : num_free_pages (pages_ s1) ≠ 0%nat).
  { intros Hz. by apply (proj1 (num_free_pages_zero _) Hz f' empty_page Hf'). }
  assert (Hfetch : ∃ s2, FetchPgImp s1 p = Some (s2, Some f')
            ∧ calls (disk_manager_ s2)
              = calls (disk_manager_ s1) ++ [ReadPageCall p]).
  { unfold FetchPgImp, acquire_frame. rewrite Hmiss, Hfl1.
    rewrite bool_decide_eq_false_2 by done. simpl. rewrite Hf'. simpl.
    eexists. split; done. }
  destruct Hfetch as (s2 & Hfetch & Hcalls).
  destruct (fetch_miss_bytes n k s1 s2 p f' Hreach1 Hmiss Hfetch) as (Hbytes & Htab & _).
  exists s2, f'. split_and!; [done|done| |done|].
  - rewrite Hbytes. by rewrite Hs1.
  - rewrite Hcalls, Hs1. simpl. by rewrite <- app_assoc.
Qed.

Lemma DeletePgImp_then_FetchPgImp_witness :
  let s := state_after 2 2 [NewPage; WriteBytes 0 (replicate BUSTUB_PAGE_SIZE x61);
                            UnpinPage 0 true] in
  let s1 := default s (fst <$> DeletePgImp s 0) in
  reachable 2 2 s ∧ page_table_ s !! 0 = Some 0
  ∧ DeletePgImp s 0 = Some (s1, true)
  ∧ ∃ s2 f', FetchPgImp s1 0 = Some (s2, Some f')
      ∧ head (free_list_ s ++ [0]) = Some f'
      ∧ page_at (pages_ s2) f'
        = Some (mkPage (default zeroed (stored (disk_manager_ s) !! 0)) 0 1 false)
      ∧ page_table_ s2 !! 0 = Some f'
      ∧ calls (disk_manager_ s2)
        = calls (disk_manager_ s) ++ [DeallocatePageCall 0; ReadPageCall 0].
Proof.
  intros s s1.
  assert (Hs : reachable 2 2 s).
  { apply (run_reachable 2 2 new_disk
             [NewPage; WriteBytes 0 (replicate BUSTUB_PAGE_SIZE x61);
              UnpinPage 0 true]); by vm_compute. }
  assert (Hp : page_table_ s !! 0 = Some 0) by (by vm_compute).
  assert (Hdel : DeletePgImp s 0 = Some (s1, true)) by (by vm_compute).
  split; [exact Hs|]. split; [exact Hp|]. split; [exact Hdel|].
  exact (DeletePgImp_then_FetchPgImp 2 2 s s1 0 0 Hs Hp Hdel).
Defined.

(** The dirty bytes of a deleted page are lost: the fetch that follows
    finds zeroes. *)
Example deleted_dirty_bytes_lost :
  let s := state_after 2 2 [NewPage; WriteBytes 0 (replicate BUSTUB_PAGE_SIZE x61);
                            UnpinPage 0 true; DeletePage 0; FetchPage 0] in
  page_at (pages_ s) 1 = Some (mkPage zeroed 0 1 false)
  ∧ calls (disk_manager_ s) = [DeallocatePageCall 0; ReadPageCall 0].
Proof. by vm_compute. Qed.

(** X14.  In every state the pool reaches, a [FetchPgImp] of a resident
    page followed by [UnpinPgImp] of it with [is_dirty = false] succeeds and
    restores the frames, the page table, the free list, the allocation
    counter and the disk, and the same frames are evictable as before; only
    the access history of the replacer has moved on. *)
Theorem FetchPgImp_UnpinPgImp_round_trip (n : nat) (k : Z)
    (s : BufferPoolManagerInstance) (p f : Z) (pg : Page) :
  reachable n k s → page_table_ s !! p = Some f →
  page_at (pages_ s) f = Some pg → pin_count_ pg ≠ INT_MAX →
  ∃ s1 s2, FetchPgImp s p = Some (s1, Some f)
    ∧ UnpinPgImp s1 p false = Some (s2, true)
    ∧ pages_ s2 = pages_ s
    ∧ page_table_ s2 = page_table_ s
    ∧ free_list_ s2 = free_list_ s
    ∧ next_page_id_ s2 = next_page_id_ s
    ∧ disk_manager_ s2 = disk_manager_ s
    ∧ (∀ g, marked_evictable (replacer_ s2) g ↔ marked_evictable (replacer_ s) g)
    ∧ (∀ g, tracked (replacer_ s2) g ↔ tracked (replacer_ s) g).
Proof.
  intros Hreach Hp Hpg Hmax.
  pose proof (reachable_by_inv _ _ _ _ Hreach) as Hinv.
  pose proof (reachable_at_hand _ _ _ _ Hreach) as Hat.
  destruct (inv_table _ _ Hinv p f Hp) as (Hnfree & Htr & pg0 & Hpg0 & Hid).
  assert (pg0 = pg) by congruence. subst pg0.
  pose proof (inv_pin _ _ Hinv f pg Hpg) as Hpin.
  pose proof (page_at_range _ _ _ Hpg) as Hrange.
  unfold FetchPgImp. rewrite Hp, Hpg. simpl.
  rewrite bool_decide_eq_false_2 by done.
  eexists _, _. split; [done|].
  unfold UnpinPgImp. simpl. rewrite Hp.
  rewrite page_at_store_eq by (by eexists). simpl.
  destruct (Z.leb_spec (pin_count_ pg + 1) 0) as [|_]; [lia|].
  replace (pin_count_ pg + 1 - 1) with (pin_count_ pg) by lia.
  split; [done|]. simpl. split_and!; try done.
  - unfold store_page. rewrite list_insert_insert_eq.
    apply list_insert_id. unfold page_at in Hpg.
    destruct (Z.ltb_spec f 0); [lia|]. rewrite Hpg. by destruct pg.
  - intros g.
    assert (Hin : marked_evictable (SetEvictable (RecordAccess (replacer_ s) f) f false) g
                       ↔ g ≠ f ∧ marked_evictable (replacer_ s) g).
    { rewrite SetEvictable_marked. case_decide as Hd.
      - destruct Hd as [-> _]. split; [done|by intros [? _]].
      - unfold marked_evictable at 1. rewrite RecordAccess_evictable.
        split; [|tauto]. intros Hm. split; [|done]. intros ->.
        apply Hd. split; [done|]. apply RecordAccess_tracked. by left. }
    destruct (Z.eqb_spec (pin_count_ pg) 0) as [Hz|Hnz].
    + rewrite SetEvictable_marked. case_decide as Hd.
      * destruct Hd as [-> _]. split; [|done]. intros _.
        destruct (Hat f pg Hpg Hz); [done|done].
      * rewrite Hin. split; [tauto|]. intros Hm. split; [|done].
        intros ->. apply Hd. split; [done|]. apply SetEvictable_tracked.
        apply RecordAccess_tracked. by left.
    + rewrite Hin. split; [tauto|]. intros Hm. split; [|done].
      intros ->. destruct (inv_evictable _ _ Hinv f Hm) as (_ & pg' & Hpg' & Hz).
      congruence.
  - intros g.
    assert (Hfg : tracked (SetEvictable (RecordAccess (replacer_ s) f) f false) g
                  ↔ tracked (replacer_ s) g).
    { rewrite SetEvictable_tracked, RecordAccess_tracked.
      split; [intros [?|[-> _]]; done|by left]. }
    destruct (pin_count_ pg =? 0); [rewrite SetEvictable_tracked|]; done.
Qed.

Lemma FetchPgImp_UnpinPgImp_round_trip_witness :
  let s := state_after 2 2 [NewPage; UnpinPage 0 true; NewPage] in
  reachable 2 2 s ∧ page_table_ s !! 0 = Some 0
  ∧ page_at (pages_ s) 0 = Some (mkPage zeroed 0 0 true) ∧ 0 ≠ INT_MAX
  ∧ ∃ s1 s2, FetchPgImp s 0 = Some (s1, Some 0)
      ∧ UnpinPgImp s1 0 false = Some (s2, true)
      ∧ pages_ s2 = pages_ s
      ∧ page_table_ s2 = page_table_ s
      ∧ free_list_ s2 = free_list_ s
      ∧ next_page_id_ s2 = next_page_id_ s
      ∧ disk_manager_ s2 = disk_manager_ s
      ∧ (∀ g, marked_evictable (replacer_ s2) g ↔ marked_evictable (replacer_ s) g)
      ∧ (∀ g, tracked (replacer_ s2) g ↔ tracked (replacer_ s) g).
Proof.
  intros s.
  assert (Hs : reachable 2 2 s).
  { apply (run_reachable 2 2 new_disk [NewPage; UnpinPage 0 true; NewPage]);
      by vm_compute. }
  assert (Hp : page_table_ s !! 0 = Some 0) by (by vm_compute).
  assert (Hpg : page_at (pages_ s) 0 = Some (mkPage zeroed 0 0 true)) by (by vm_compute).
  assert (Hmax : 0 ≠ INT_MAX) by (by vm_compute).
  split; [exact Hs|]. split; [exact Hp|]. split; [exact Hpg|]. split; [exact Hmax|].
  exact (FetchPgImp_UnpinPgImp_round_trip 2 2 s 0 0 _ Hs Hp Hpg Hmax).
Defined.

(** ** Pinned frames *)

Lemma emplace_lookup_Some (t : gmap Z Z) (p q f g : Z) :
  t !! q = Some g → emplace p f t !! q = Some g.
Proof.
  intros Hq. unfold emplace. destruct (t !! p) eqn:Hp; [done|].
  rewrite lookup_insert_ne; [done|]. intros <-. congruence.
Qed.

(** The frame selection never takes a pinned frame, and leaves it and its
    page-table entries alone. *)
Lemma acquire_frame_keeps_pinned (n : nat) (s s1 : BufferPoolManagerInstance)
    (f f' : Z) (pg : Page) :
  pool_inv n s → tracking_inv n s →
  page_at (pages_ s) f = Some pg → 0 < pin_count_ pg →
  acquire_frame s = Some (s1, f') →
  f' ≠ f ∧ page_at (pages_ s1) f = Some pg
  ∧ (∀ q, page_table_ s !! q = Some f → page_table_ s1 !! q = Some f)
  ∧ (f ∉ free_list_ s1).
Proof.
  intros Hinv [_ Hev] Hpg Hpin Hacq.
  assert (Hnf : ∀ g, g ∈ free_list_ s → g ≠ f).
  { intros g Hg ->. rewrite (inv_free _ _ Hinv f Hg) in Hpg.
    injection Hpg as <-. simpl in Hpin. lia. }
  destruct (free_list_ s) as [|g rest] eqn:Hfl.
  - apply acquire_frame_evicts in Hacq as (r' & pgv & _ & Hmk & Hpgv & ->); [|done].
    destruct (inv_evictable _ _ Hinv f' Hmk) as (_ & pg0 & Hpg0 & Hz).
    assert (pg0 = pgv) by congruence. subst pg0.
    assert (f' ≠ f) by (intros ->; assert (pgv = pg) by congruence; subst; lia).
    simpl. split_and!; [done| | |apply not_elem_of_nil].
    + rewrite page_at_store_ne; [done|by eexists|done].
    + intros q Hq. rewrite lookup_delete_ne; [done|]. intros <-.
      destruct (Hev f' Hmk) as (pg1 & Hpg1 & Ht). congruence.
  - apply acquire_frame_cases in Hacq as [(rest' & Hfl' & ->)|(Hfl' & _)];
      [|congruence].
    rewrite Hfl in Hfl'. injection Hfl' as -> ->. simpl.
    split_and!; [|done|done|].
    + apply Hnf. by left.
    + intros Hin. apply (Hnf f); [by right|done].
Qed.

(** X16.  In every state the pool reaches, no operation of the pool takes
    a pinned frame away.  After any call the frame still holds the same
    page id; its pin count has dropped by at most one; it is dirty if it was
    dirty; unless the holder of the pin wrote into it, it holds the same
    bytes; a page-table entry of its page that points to it is still there;
    and it is not in the free list. *)
Theorem pinned_frame_is_stable (n : nat) (k : Z)
    (s s' : BufferPoolManagerInstance) (o : Op) (f : Z) (pg : Page) :
  reachable n k s → page_at (pages_ s) f = Some pg → 0 < pin_count_ pg →
  exec s o = Some s' →
  ∃ pg', page_at (pages_ s') f = Some pg'
    ∧ page_id_ pg' = page_id_ pg
    ∧ pin_count_ pg - 1 ≤ pin_count_ pg'
    ∧ (is_dirty_ pg = true → is_dirty_ pg' = true)
    ∧ ((∀ b, o ≠ WriteBytes f b) → data_ pg' = data_ pg)
    ∧ (page_table_ s !! page_id_ pg = Some f →
       page_table_ s' !! page_id_ pg = Some f)
    ∧ (f ∉ free_list_ s').
Proof.
  intros Hreach Hpg Hpin Hex.
  pose proof (reachable_by_inv _ _ _ _ Hreach) as Hinv.
  pose proof (reachable_tracking _ _ _ _ Hreach) as Htr.
  assert (Hnf : f ∉ free_list_ s).
  { intros Hin. rewrite (inv_free _ _ Hinv f Hin) in Hpg.
    injection Hpg as <-. simpl in Hpin. lia. }
  assert (Hsame : ∀ s0, same_memory s s0 →
    ∃ pg', page_at (pages_ s0) f = Some pg'
      ∧ page_id_ pg' = page_id_ pg
      ∧ pin_count_ pg - 1 ≤ pin_count_ pg'
      ∧ (is_dirty_ pg = true → is_dirty_ pg' = true)
      ∧ ((∀ b, o ≠ WriteBytes f b) → data_ pg' = data_ pg)
      ∧ (page_table_ s !! page_id_ pg = Some f →
         page_table_ s0 !! page_id_ pg = Some f)
      ∧ (f ∉ free_list_ s0)).
  { intros s0 (Hp & _ & Ht & Hf & _). rewrite Hp, Ht, Hf.
    exists pg. split_and!; try done. lia. }
  assert (Hrefl : same_memory s s) by (by repeat split).
  destruct o as [|p|p d|p| |p|g bytes]; simpl in Hex.
  - destruct (NewPgImp s) as [[s0 res]|] eqn:Hop; simpl in Hex; [|done].
    injection Hex as ->.
    apply NewPgImp_cases in Hop
      as [(_ & -> & _)|(_ & _ & s1 & f' & pg1 & Hacq & Hpg1 & _ & ->)];
      [by apply Hsame|].
    destruct (acquire_frame_keeps_pinned n (bump s) s1 f f' pg)
      as (Hne & Hpg' & Htab & Hfree); [by apply pool_inv_bump| |done..|].
    { destruct Htr as [H1 H2]. by split. }
    exists pg. simpl. split_and!; try done.
    + rewrite page_at_store_ne; [done|by eexists|done].
    + lia.
    + intros Ht. apply emplace_lookup_Some. by apply Htab.
  - destruct (FetchPgImp s p) as [[s0 res]|] eqn:Hop; simpl in Hex; [|done].
    injection Hex as ->.
    apply FetchPgImp_cases in Hop
      as [(g & pgg & Hp & Hpgg & _ & _ & ->)
         |[(_ & _ & -> & _)|(_ & _ & s1 & f' & pg1 & Hacq & Hpg1 & _ & ->)]].
    + simpl. destruct (decide (g = f)) as [->|Hne].
      * assert (pgg = pg) by congruence. subst pgg.
        eexists. split; [apply page_at_store_eq; by eexists|]. simpl.
        split_and!; try done. lia.
      * exists pg. split; [rewrite page_at_store_ne; [done|by eexists|done]|].
        split_and!; try done. lia.
    + by apply Hsame.
    + destruct (acquire_frame_keeps_pinned n s s1 f f' pg)
        as (Hne & Hpg' & Htab & Hfree); [done..|].
      exists pg. simpl. split_and!; try done.
      * rewrite page_at_store_ne; [done|by eexists|done].
      * lia.
      * intros Ht. apply emplace_lookup_Some. by apply Htab.
  - destruct (UnpinPgImp s p d) as [[s0 res]|] eqn:Hop; simpl in Hex; [|done].
    injection Hex as ->.
    apply UnpinPgImp_cases in Hop
      as [(_ & -> & _)|(g & pgg & Hp & Hpgg & [(_ & -> & _)|(_ & _ & ->)])];
      [by apply Hsame..|].
    simpl. destruct (decide (g = f)) as [->|Hne].
    + assert (pgg = pg) by congruence. subst pgg.
      eexists. split; [apply page_at_store_eq; by eexists|]. simpl.
      split_and!; try done; try lia. intros ->. by destruct d.
    + exists pg. split; [rewrite page_at_store_ne; [done|by eexists|done]|].
      split_and!; try done. lia.
  - destruct (FlushPgImp s p) as [[s0 res]|] eqn:Hop; simpl in Hex; [|done].
    injection Hex as ->. apply Hsame. by eapply FlushPgImp_same_memory.
  - apply Hsame. by apply FlushAllPgsImp_same_memory.
  - destruct (DeletePgImp s p) as [[s0 res]|] eqn:Hop; simpl in Hex; [|done].
    injection Hex as ->.
    apply DeletePgImp_cases in Hop
      as [(_ & -> & _)|(g & pgg & Hp & Hpgg & [(_ & -> & _)|(Hle & _ & ->)])];
      [by apply Hsame..|].
    assert (g ≠ f) by (intros ->; assert (pgg = pg) by congruence; subst; lia).
    exists pg. simpl. split_and!; try done.
    + rewrite page_at_store_ne; [done|by eexists|done].
    + lia.
    + intros Ht. rewrite lookup_delete_ne; [done|]. intros Heq. congruence.
    + intros [Hin|Hin%list_elem_of_singleton]%elem_of_app; [done|congruence].
  - apply write_bytes_cases in Hex as (pgg & Hpgg & _ & _ & ->). simpl.
    destruct (decide (g = f)) as [->|Hne].
    + assert (pgg = pg) by congruence. subst pgg.
      eexists. split; [apply page_at_store_eq; by eexists|]. simpl.
      split_and!; try done; try lia. intros Hno. by destruct (Hno bytes).
    + exists pg. split; [rewrite page_at_store_ne; [done|by eexists|done]|].
      split_and!; try done. lia.
Qed.

Lemma pinned_frame_is_stable_witness :
  let s := state_after 2 2 [NewPage; NewPage; UnpinPage 1 true] in
  let s' := default s (exec s NewPage) in
  reachable 2 2 s ∧ page_at (pages_ s) 0 = Some (mkPage zeroed 0 1 false)
  ∧ 0 < 1 ∧ exec s NewPage = Some s'
  ∧ ∃ pg', page_at (pages_ s') 0 = Some pg'
      ∧ page_id_ pg' = 0
      ∧ 1 - 1 ≤ pin_count_ pg'
      ∧ (false = true → is_dirty_ pg' = true)
      ∧ ((∀ b, NewPage ≠ WriteBytes 0 b) → data_ pg' = zeroed)
      ∧ (page_table_ s !! 0 = Some 0 → page_table_ s' !! 0 = Some 0)
      ∧ (0 ∉ free_list_ s').
Proof.
  intros s s'.
  assert (Hs : reachable 2 2 s).
  { apply (run_reachable 2 2 new_disk [NewPage; NewPage; UnpinPage 1 true]);
      by vm_compute. }
  assert (Hpg : page_at (pages_ s) 0 = Some (mkPage zeroed 0 1 false))
    by (by vm_compute).
  assert (Hpin : 0 < 1) by lia.
  assert (Hex : exec s NewPage = Some s') by (by vm_compute).
  split; [exact Hs|]. split; [exact Hpg|]. split; [exact Hpin|]. split; [exact Hex|].
  exact (pinned_frame_is_stable 2 2 s s' NewPage 0 _ Hs Hpg Hpin Hex).
Defined.

(** ** Flushing every frame *)

(** The loop of [FlushAllPgsImp] over any list of frame indices. *)
Lemma flush_fold_spec (n : nat) (s : BufferPoolManagerInstance) (l : list nat) :
  pool_inv n s → Forall (λ i, (i < n)%nat) l →
  ∃ s', foldl (λ acc (frame_id : nat),
                 s ← acc;
                 page ← page_at (pages_ s) (Z.of_nat frame_id);
                 fst <$> FlushPgImp s (page_id_ page)) (Some s) l = Some s'
    ∧ same_memory s s'
    ∧ (∀ p f pg i pgi, p ≠ -1 → page_table_ s !! p = Some f →
         page_at (pages_ s) f = Some pg →
         i ∈ l → page_at (pages_ s) (Z.of_nat i) = Some pgi → page_id_ pgi = p →
         stored (disk_manager_ s') !! p = Some (data_ pg))
    ∧ (∀ p, p = -1 ∨ page_table_ s !! p = None →
         stored (disk_manager_ s') !! p = stored (disk_manager_ s) !! p)
    ∧ ∃ ws, calls (disk_manager_ s') = calls (disk_manager_ s) ++ ws
        ∧ (length ws ≤ length l)%nat
        ∧ Forall (λ c, ∃ p f pg, c = WritePageCall p (data_ pg)
                    ∧ page_table_ s !! p = Some f
                    ∧ page_at (pages_ s) f = Some pg) ws.
Proof.
  intros Hinv. induction l as [|i l IH] using rev_ind; intros Hl.
  - exists s. split; [done|]. split; [by repeat split|].
    split; [intros ? ? ? ? ? _ _ _ Hin; by apply elem_of_nil in Hin|].
    split; [done|]. exists []. by rewrite app_nil_r.
  - apply Forall_app in Hl as [Hl Hi]. rewrite Forall_singleton in Hi.
    destruct (IH Hl) as (s1 & Hfold & Hsame & Hres & Hnon & ws & Hcalls & Hlen & Hws).
    pose proof (pool_inv_same_memory n s s1 Hsame Hinv) as Hinv1.
    destruct Hsame as (Hpages & Hrepl & Htab & Hfree & Hnext).
    rewrite foldl_app, Hfold. simpl.
    destruct (page_at_in_range (pages_ s1) (Z.of_nat i)) as [pgi Hpgi].
    { rewrite (inv_length _ _ Hinv1). lia. }
    rewrite Hpgi. simpl.
    destruct (FlushPgImp_defined n s1 Hinv1 (page_id_ pgi)) as [[s2 b] Hflush].
    rewrite Hflush. simpl. exists s2. split; [done|].
    rewrite Hpages in Hpgi.
    apply FlushPgImp_cases in Hflush
      as [(Hno & -> & _)|(Hne & _ & f & pg & Hp & Hpg & ->)].
    + split; [by repeat split|]. split.
      { intros p f pg j pgj Hp1 Hp Hpg [Hj|Hj%list_elem_of_singleton]%elem_of_app Hpgj Hid.
        - by eapply Hres.
        - subst j. assert (pgj = pgi) by congruence. subst pgj.
          rewrite Htab in Hno. destruct Hno; congruence. }
      split; [done|]. exists ws. split; [done|]. split; [|done].
      rewrite length_app. lia.
    + rewrite Htab in Hp. rewrite Hpages in Hpg.
      split; [by repeat split|]. simpl. split.
      { intros p f' pg' j pgj Hp1 Hp' Hpg' Hj Hpgj Hid.
        destruct (decide (p = page_id_ pgi)) as [->|Hnp].
        - rewrite lookup_insert_eq. congruence.
        - rewrite lookup_insert_ne by done.
          apply elem_of_app in Hj as [Hj|Hj%list_elem_of_singleton].
          + by eapply Hres.
          + subst j. congruence. }
      split.
      { intros p Hp'. rewrite lookup_insert_ne; [by apply Hnon|].
        intros <-. destruct Hp'; congruence. }
      exists (ws ++ [WritePageCall (page_id_ pgi) (data_ pg)]).
      split; [by rewrite Hcalls, app_assoc|].
      split; [rewrite !length_app; simpl; lia|].
      apply Forall_app. split; [done|]. apply Forall_singleton.
      by exists (page_id_ pgi), f, pg.
Qed.

(** X15.  In every state the pool reaches, [FlushAllPgsImp] is defined and
    changes nothing but the disk: frames, dirty bits included, replacer,
    page table, free list and allocation counter are as before.  Afterwards
    the disk holds, under the id of every resident page other than -1, the
    bytes of the frame the page table names for it; what it holds under -1
    and under the ids of pages that are not resident is unchanged.  The
    calls it makes are [WritePage] calls of resident pages, at most one per
    frame. *)
Theorem FlushAllPgsImp_persists_resident (n : nat) (k : Z)
    (s : BufferPoolManagerInstance) :
  reachable n k s →
  ∃ s', FlushAllPgsImp s = Some s'
    ∧ same_memory s s'
    ∧ (∀ p f pg, p ≠ -1 → page_table_ s !! p = Some f →
         page_at (pages_ s) f = Some pg →
         stored (disk_manager_ s') !! p = Some (data_ pg))
    ∧ (∀ p, p = -1 ∨ page_table_ s !! p = None →
         stored (disk_manager_ s') !! p = stored (disk_manager_ s) !! p)
    ∧ ∃ ws, calls (disk_manager_ s') = calls (disk_manager_ s) ++ ws
        ∧ (length ws ≤ n)%nat
        ∧ Forall (λ c, ∃ p f pg, c = WritePageCall p (data_ pg)
                    ∧ page_table_ s !! p = Some f
                    ∧ page_at (pages_ s) f = Some pg) ws.
Proof.
  intros Hinv%reachable_by_inv.
  destruct (flush_fold_spec n s (seq 0 (length (pages_ s))) Hinv)
    as (s' & Hfold & Hsame & Hres & Hnon & ws & Hcalls & Hlen & Hws).
  { apply Forall_forall. intros i Hi%elem_of_seq.
    rewrite (inv_length _ _ Hinv) in Hi. lia. }
  exists s'. split; [done|]. split; [done|]. split; [|split; [done|]].
  - intros p f pg Hp1 Hp Hpg.
    destruct (inv_table _ _ Hinv p f Hp) as (_ & _ & pg0 & Hpg0 & Hid).
    pose proof (page_at_range _ _ _ Hpg) as Hrange.
    apply (Hres p f pg (Z.to_nat f) pg0); try done.
    + apply elem_of_seq. lia.
    + by rewrite Z2Nat.id by lia.
  - exists ws. split; [done|]. split; [|done].
    rewrite length_seq, (inv_length _ _ Hinv) in Hlen. done.
Qed.

(** Two resident pages, one of them modified in memory: [FlushAllPgsImp]
    writes both, in frame order, and the frames stay as they are. *)
Example flush_all_scenario :
  let s := state_after 3 2 [NewPage; NewPage;
                            WriteBytes 1 (replicate BUSTUB_PAGE_SIZE x61);
                            UnpinPage 1 true] in
  let s' := state_after 3 2 [NewPage; NewPage;
                             WriteBytes 1 (replicate BUSTUB_PAGE_SIZE x61);
                             UnpinPage 1 true; FlushAllPages] in
  calls (disk_manager_ s')
  = [WritePageCall 0 zeroed; WritePageCall 1 (replicate BUSTUB_PAGE_SIZE x61)]
  ∧ pages_ s' = pages_ s
  ∧ (is_dirty_ <$> page_at (pages_ s') 1) = Some true.
Proof. by vm_compute. Qed.

Lemma FlushAllPgsImp_persists_resident_witness :
  let s := state_after 3 2 [NewPage; NewPage;
                            WriteBytes 1 (replicate BUSTUB_PAGE_SIZE x61);
                            UnpinPage 1 true] in
  reachable 3 2 s
  ∧ ∃ s', FlushAllPgsImp s = Some s'
      ∧ same_memory s s'
      ∧ (∀ p f pg, p ≠ -1 → page_table_ s !! p = Some f →
           page_at (pages_ s) f = Some pg →
           stored (disk_manager_ s') !! p = Some (data_ pg))
      ∧ (∀ p, p = -1 ∨ page_table_ s !! p = None →
           stored (disk_manager_ s') !! p = stored (disk_manager_ s) !! p)
      ∧ ∃ ws, calls (disk_manager_ s') = calls (disk_manager_ s) ++ ws
          ∧ (length ws ≤ 3)%nat
          ∧ Forall (λ c, ∃ p f pg, c = WritePageCall p (data_ pg)
                      ∧ page_table_ s !! p = Some f
                      ∧ page_at (pages_ s) f = Some pg) ws.
Proof.
  intros s.
  assert (Hs : reachable 3 2 s).
  { apply (run_reachable 3 2 new_disk
             [NewPage; NewPage; WriteBytes 1 (replicate BUSTUB_PAGE_SIZE x61);
              UnpinPage 1 true]); by vm_compute. }
  split; [exact Hs|]. exact (FlushAllPgsImp_persists_resident 3 2 s Hs).
Defined.

(** ** Filling a fresh pool *)

(** X17.  A fresh pool hands out its frames in index order and touches no
    disk: the first [m] calls of [NewPgImp] on a pool of [n >= m] frames all
    succeed, page [i] lands in frame [i], zeroed, pinned once and clean, the
    page table maps exactly the ids below [m], each to itself, the free list
    holds the remaining frames in ascending order, the allocation counter is
    [m] and the disk manager has received no call. *)
Theorem fresh_pool_fills_in_order (n m : nat) (k : Z) (d : DiskManager) :
  Z.of_nat n ≤ INT_MAX → (m ≤ n)%nat →
  ∃ s, run (Pool.new n d k) (replicate m NewPage) = Some s
    ∧ pages_ s
      = ((λ i : nat, mkPage zeroed (Z.of_nat i) 1 false) <$> seq 0 m)
        ++ replicate (n - m) empty_page
    ∧ (∀ p, page_table_ s !! p
            = if decide (0 ≤ p < Z.of_nat m) then Some p else None)
    ∧ free_list_ s = Z.of_nat <$> seq m (n - m)
    ∧ next_page_id_ s = Z.of_nat m
    ∧ disk_manager_ s = d.
Proof.
  intros Hn. induction m as [|m IH]; intros Hm.
  - exists (Pool.new n d k). split; [done|]. simpl.
    rewrite Nat.sub_0_r. split; [done|]. split.
    { intros p. rewrite lookup_empty. case_decide; [lia|done]. }
    split; [by apply new_free_list|done].
  - destruct IH as (s & Hrun & Hpages & Htab & Hfree & Hnext & Hdisk); [lia|].
    assert (Hreach : reachable n k s) by (by eapply run_reachable).
    assert (Hwf : wf (replacer_ s)).
    { apply (run_wf n k d (replicate m NewPage) s Hrun).
      rewrite length_replicate. unfold INT_MAX, SIZE_MAX in *. lia. }
    assert (Hmax : next_page_id_ s ≠ INT_MAX) by lia.
    destruct (NewPgImp_defined n k s Hreach Hwf Hmax) as [[s' res] Hnew].
    exists s'.
    split; [by rewrite replicate_S_end, run_snoc, Hrun; simpl; rewrite Hnew|].
    assert (Hlen : length ((λ i : nat, mkPage zeroed (Z.of_nat i) 1 false) <$> seq 0 m) = m).
    { by rewrite length_fmap, length_seq. }
    assert (Hrest : (n - m = S (n - S m))%nat) by lia.
    assert (Hat : page_at (pages_ s) (Z.of_nat m) = Some empty_page).
    { unfold page_at. destruct (Z.ltb_spec (Z.of_nat m) 0); [lia|].
      rewrite Nat2Z.id, Hpages, Hrest.
      rewrite lookup_app_r by lia. rewrite Hlen, Nat.sub_diag. done. }
    apply NewPgImp_cases in Hnew
      as [(Hz & _)|(_ & _ & s1 & f & pg & Hacq & Hpg & _ & ->)].
    { by destruct (proj1 (num_free_pages_zero _) Hz _ _ Hat). }
    apply acquire_frame_cases in Hacq as [(rest & Hfl & ->)|(Hfl & _)].
    2:{ unfold bump in Hfl. cbn [free_list_] in Hfl. rewrite Hfree, Hrest in Hfl. done. }
    unfold bump in *.
    cbn [pages_ replacer_ page_table_ free_list_ next_page_id_ disk_manager_
         data_ is_dirty_] in *.
    rewrite Hfree, Hrest in Hfl. simpl in Hfl.
    injection Hfl as <- <-.
    assert (pg = empty_page) by congruence. subst pg.
    split_and!.
    + unfold store_page. rewrite Nat2Z.id, Hpages, Hrest.
      rewrite insert_app_r_alt by lia. rewrite Hlen, Nat.sub_diag.
      rewrite seq_S, fmap_app, <- app_assoc. simpl. by rewrite Hnext.
    + intros p. unfold emplace. rewrite Hnext, (Htab (Z.of_nat m)).
      rewrite decide_False by lia.
      destruct (decide (p = Z.of_nat m)) as [->|Hne].
      * rewrite lookup_insert_eq. rewrite decide_True by lia. done.
      * rewrite lookup_insert_ne by done. rewrite Htab.
        repeat case_decide; try done; lia.
    + done.
    + lia.
    + done.
Qed.

Lemma fresh_pool_fills_in_order_witness :
  3 ≤ INT_MAX ∧ (2 ≤ 3)%nat
  ∧ ∃ s, run (Pool.new 3 new_disk 2) (replicate 2 NewPage) = Some s
      ∧ pages_ s
        = ((λ i : nat, mkPage zeroed (Z.of_nat i) 1 false) <$> seq 0 2)
          ++ replicate (3 - 2) empty_page
      ∧ (∀ p, page_table_ s !! p
              = if decide (0 ≤ p < Z.of_nat 2) then Some p else None)
      ∧ free_list_ s = Z.of_nat <$> seq 2 (3 - 2)
      ∧ next_page_id_ s = Z.of_nat 2
      ∧ disk_manager_ s = new_disk.
Proof.
  assert (Hn : Z.of_nat 3 ≤ INT_MAX) by (by vm_compute).
  assert (Hm : (2 ≤ 3)%nat) by lia.
  split; [exact Hn|]. split; [exact Hm|].
  exact (fresh_pool_fills_in_order 3 2 2 new_disk Hn Hm).
Defined.

(** ** The iteration order of the queues *)

(** A loop of [Evict] over the entries of a queue, taken in any order. *)
Lemma scan_any_order (r : LRUKReplacer) (q : gmap Z (list Z))
    (l : list (Z * list Z)) (acc : Z * Z) :
  wf r → (∀ f h, q !! f = Some h → history_of r f h) →
  l ≡ₚ map_to_list q →
  foldl (scan_step (evictable_ r)) acc l = scan (evictable_ r) q acc.
Proof.
  intros Hwf Hq Hperm. unfold scan.
  destruct (scan_list_spec (evictable_ r) l acc)
    as [[Hres1 Hall1]|(e1 & He1 & Hc1 & Hres1 & Hlt1 & Hmin1)];
  destruct (scan_list_spec (evictable_ r) (map_to_list q) acc)
    as [[Hres2 Hall2]|(e2 & He2 & Hc2 & Hres2 & Hlt2 & Hmin2)];
  rewrite Hres1, Hres2.
  - done.
  - rewrite <- Hperm in He2. specialize (Hall1 e2 He2 Hc2). lia.
  - rewrite Hperm in He1. specialize (Hall2 e1 He1 Hc1). lia.
  - pose proof He1 as He1'. rewrite Hperm in He1'.
    pose proof He2 as He2'. rewrite <- Hperm in He2'.
    pose proof (Hmin1 e2 He2' Hc2). pose proof (Hmin2 e1 He1' Hc1).
    assert (Hfront : front e1.2 = front e2.2) by lia.
    destruct e1 as [f1 h1], e2 as [f2 h2]. simpl in *.
    apply elem_of_map_to_list in He1', He2.
    destruct (decide (f2 = f1)) as [->|Hne]; [congruence|].
    destruct (distinct_fronts r f1 f2 h1 h2 Hwf); auto.
Qed.

(** X18.  The two range-for loops of [Evict] run over hash maps, whose
    iteration order is not specified.  As long as the clock has not wrapped
    around the order does not matter: over the entries of the preliminary
    queue, and over those of the mature queue, taken in any order and
    started from any accumulator, the loop ends with the same frame and the
    same reference clock. *)
Theorem Evict_scan_order_irrelevant (r : LRUKReplacer) (acc : Z * Z) :
  wf r →
  (∀ l, l ≡ₚ map_to_list (preliminary_queue_ r) →
     foldl (scan_step (evictable_ r)) acc l
     = scan (evictable_ r) (preliminary_queue_ r) acc)
  ∧ (∀ l, l ≡ₚ map_to_list (lru_cache_queue_ r) →
     foldl (scan_step (evictable_ r)) acc l
     = scan (evictable_ r) (lru_cache_queue_ r) acc).
Proof.
  intros Hwf. split; intros l Hperm; apply scan_any_order; try done.
  - intros f h Hq. by left.
  - intros f h Hq. by right.
Qed.

Lemma Evict_scan_order_irrelevant_witness :
  let r := replay (Replacer.new 3 2) scenario_3 in
  wf r
  ∧ foldl (scan_step (evictable_ r)) (-1, clock_ r + 1)
          (reverse (map_to_list (preliminary_queue_ r)))
    = scan (evictable_ r) (preliminary_queue_ r) (-1, clock_ r + 1).
Proof.
  intros r.
  assert (Hwf : wf r).
  { apply (wf_replay 3 2 scenario_3). by vm_compute. }
  split; [exact Hwf|].
  apply (proj1 (Evict_scan_order_irrelevant r (-1, clock_ r + 1) Hwf)).
  apply reverse_Permutation.
Defined.

(** ** What reaches the disk *)

(** X19.  In every state the pool reaches, whatever an operation changes
    in the bytes the disk stores under a page id, it changes by writing the
    bytes of a frame that holds that page id at the time of the call:
    nothing is persisted under an id no frame carries, and nothing but frame
    contents. *)
Theorem stored_bytes_come_from_frames (n : nat) (k : Z)
    (s s' : BufferPoolManagerInstance) (o : Op) (p : Z) :
  reachable n k s → exec s o = Some s' →
  stored (disk_manager_ s') !! p = stored (disk_manager_ s) !! p
  ∨ ∃ f pg, page_at (pages_ s) f = Some pg ∧ page_id_ pg = p
      ∧ stored (disk_manager_ s') !! p = Some (data_ pg).
Proof.
  intros Hreach Hex.
  pose proof (reachable_by_inv _ _ _ _ Hreach) as Hinv.
  assert (Hacq : ∀ s0 s1 f, pages_ s0 = pages_ s → disk_manager_ s0 = disk_manager_ s →
            acquire_frame s0 = Some (s1, f) →
            stored (disk_manager_ s1) !! p = stored (disk_manager_ s) !! p
            ∨ ∃ f pg, page_at (pages_ s) f = Some pg ∧ page_id_ pg = p
                ∧ stored (disk_manager_ s1) !! p = Some (data_ pg)).
  { intros s0 s1 f Hp Hd
      [(rest & _ & ->)|(_ & r' & b & pg & _ & Hpg & ->)]%acquire_frame_cases;
      simpl; rewrite Hd; [by left|].
    destruct (is_dirty_ pg); [|by left]. simpl.
    destruct (decide (p = page_id_ pg)) as [->|Hne].
    - right. exists f, pg. rewrite <- Hp. by rewrite lookup_insert_eq.
    - left. by rewrite lookup_insert_ne. }
  destruct o as [|q|q d|q| |q|g bytes]; simpl in Hex.
  - destruct (NewPgImp s) as [[s0 res]|] eqn:Hop; simpl in Hex; [|done].
    injection Hex as ->.
    apply NewPgImp_cases in Hop
      as [(_ & -> & _)|(_ & _ & s1 & f' & pg1 & Hacq1 & _ & _ & ->)];
      [by left|].
    simpl. by apply (Hacq (bump s) s1 f').
  - destruct (FetchPgImp s q) as [[s0 res]|] eqn:Hop; simpl in Hex; [|done].
    injection Hex as ->.
    apply FetchPgImp_cases in Hop
      as [(g & pgg & _ & _ & _ & _ & ->)
         |[(_ & _ & -> & _)|(_ & _ & s1 & f' & pg1 & Hacq1 & _ & _ & ->)]];
      [by left..|].
    simpl. by apply (Hacq s s1 f').
  - destruct (UnpinPgImp s q d) as [[s0 res]|] eqn:Hop; simpl in Hex; [|done].
    injection Hex as ->.
    apply UnpinPgImp_cases in Hop
      as [(_ & -> & _)|(g & pgg & _ & _ & [(_ & -> & _)|(_ & _ & ->)])];
      by left.
  - destruct (FlushPgImp s q) as [[s0 res]|] eqn:Hop; simpl in Hex; [|done].
    injection Hex as ->.
    apply FlushPgImp_cases in Hop
      as [(_ & -> & _)|(_ & _ & f & pg & Hq & Hpg & ->)]; [by left|].
    simpl. destruct (decide (p = q)) as [->|Hne].
    + right. exists f, pg. rewrite lookup_insert_eq.
      destruct (inv_table _ _ Hinv q f Hq) as (_ & _ & pg0 & Hpg0 & Hid).
      split_and!; [done|congruence|done].
    + left. by rewrite lookup_insert_ne.
  - destruct (flush_fold_spec n s (seq 0 (length (pages_ s))) Hinv)
      as (s0 & Hfold & _ & Hres & Hnon & _).
    { apply Forall_forall. intros i Hi%elem_of_seq.
      rewrite (inv_length _ _ Hinv) in Hi. lia. }
    unfold FlushAllPgsImp in Hex. rewrite Hfold in Hex. injection Hex as ->.
    destruct (decide (p = -1)) as [->|Hp1]; [left; apply Hnon; by left|].
    destruct (page_table_ s !! p) as [f|] eqn:Hp; [|left; apply Hnon; by right].
    destruct (inv_table _ _ Hinv p f Hp) as (_ & _ & pg & Hpg & Hid).
    pose proof (page_at_range _ _ _ Hpg) as Hrange.
    right. exists f, pg. split_and!; [done..|].
    apply (Hres p f pg (Z.to_nat f) pg); try done.
    + apply elem_of_seq. lia.
    + by rewrite Z2Nat.id by lia.
  - destruct (DeletePgImp s q) as [[s0 res]|] eqn:Hop; simpl in Hex; [|done].
    injection Hex as ->.
    apply DeletePgImp_cases in Hop
      as [(_ & -> & _)|(g & pgg & _ & _ & [(_ & -> & _)|(_ & _ & ->)])];
      by left.
  - apply write_bytes_cases in Hex as (pgg & _ & _ & _ & ->). by left.
Qed.

Lemma stored_bytes_come_from_frames_witness :
  let s := state_after 1 2 [NewPage; WriteBytes 0 (replicate BUSTUB_PAGE_SIZE x61);
                            UnpinPage 0 true] in
  let s' := default s (exec s NewPage) in
  reachable 1 2 s ∧ exec s NewPage = Some s'
  ∧ (stored (disk_manager_ s') !! 0 = stored (disk_manager_ s) !! 0
     ∨ ∃ f pg, page_at (pages_ s) f = Some pg ∧ page_id_ pg = 0
         ∧ stored (disk_manager_ s') !! 0 = Some (data_ pg)).
Proof.
  intros s s'.
  assert (Hs : reachable 1 2 s).
  { apply (run_reachable 1 2 new_disk
             [NewPage; WriteBytes 0 (replicate BUSTUB_PAGE_SIZE x61);
              UnpinPage 0 true]); by vm_compute. }
  assert (Hex : exec s NewPage = Some s') by (by vm_compute).
  split; [exact Hs|]. split; [exact Hex|].
  exact (stored_bytes_come_from_frames 1 2 s s' NewPage 0 Hs Hex).
Defined.

(** ** Counting the unpinned frames *)

Lemma length_filter_imap {A B : Type} (P : A → Prop) `{∀ x, Decision (P x)}
    (g : nat → B) (l : list A) :
  length (filter (λ x : B * A, P x.2) (imap (λ i y, (g i, y)) l))
  = length (filter P l).
Proof.
  revert g. induction l as [|x l IH]; intros g; [done|].
  rewrite imap_cons, !filter_cons. simpl.
  case_decide; simpl; [f_equal|]; apply (IH (g ∘ S)).
Qed.

Lemma fst_imap {A B : Type} (g : nat → B) (l : list A) :
  (imap (λ i y, (g i, y)) l).*1 = g <$> seq 0 (length l).
Proof.
  revert g. induction l as [|x l IH]; intros g; [done|].
  rewrite imap_cons. simpl. f_equal.
  rewrite <- fmap_S_seq, <- list_fmap_compose. apply (IH (g ∘ S)).
Qed.

Lemma length_unpinned_frames (pages : list Page) :
  length (unpinned_frames pages) = num_free_pages pages.
Proof.
  unfold unpinned_frames, num_free_pages. rewrite length_fmap.
  exact (length_filter_imap (λ pg : Page, pin_count_ pg = 0) Z.of_nat pages).
Qed.

Lemma NoDup_unpinned_frames (pages : list Page) : NoDup (unpinned_frames pages).
Proof.
  unfold unpinned_frames.
  apply (sublist_NoDup _ ((imap (λ (i : nat) (pg : Page), (Z.of_nat i, pg)) pages).*1)).
  - rewrite fst_imap. apply NoDup_fmap; [apply _|apply NoDup_seq].
  - apply fmap_sublist, sublist_filter.
Qed.

Lemma elem_of_unpinned_frames (pages : list Page) (f : Z) :
  f ∈ unpinned_frames pages ↔ ∃ pg, page_at pages f = Some pg ∧ pin_count_ pg = 0.
Proof.
  unfold unpinned_frames. rewrite list_elem_of_fmap. split.
  - intros ([g pg] & -> & [Hpin Hin]%list_elem_of_filter). simpl in *.
    apply elem_of_lookup_imap in Hin as (i & y & [= -> ->] & Hi).
    exists y. split; [|done]. unfold page_at.
    destruct (Z.ltb_spec (Z.of_nat i) 0); [lia|]. by rewrite Nat2Z.id.
  - intros (pg & Hpg & Hpin). pose proof (page_at_range _ _ _ Hpg) as Hr.
    exists (f, pg). split; [done|]. apply list_elem_of_filter. split; [done|].
    apply elem_of_lookup_imap. exists (Z.to_nat f), pg.
    split; [by rewrite Z2Nat.id by lia|].
    unfold page_at in Hpg. by destruct (Z.ltb_spec f 0); [lia|].
Qed.

(** X20.  In every state the pool reaches, the frames without a pin are
    the frames of the free list together with the frames the replacer marks
    evictable, each counted once: the count that opens [NewPgImp] and the
    miss path of [FetchPgImp] is the length of the free list plus the [Size]
    of the replacer. *)
Theorem unpinned_frames_accounted (n : nat) (k : Z) (s : BufferPoolManagerInstance) :
  reachable n k s →
  unpinned_frames (pages_ s)
    ≡ₚ free_list_ s ++ (map_to_list (evictable_ (replacer_ s))).*1
  ∧ num_free_pages (pages_ s)
    = (length (free_list_ s) + Size (replacer_ s))%nat.
Proof.
  intros Hreach.
  pose proof (reachable_by_inv _ _ _ _ Hreach) as Hinv.
  pose proof (reachable_at_hand _ _ _ _ Hreach) as Hat.
  pose proof (reachable_tracking _ _ _ _ Hreach) as [Hfree _].
  assert (Hkeys : ∀ f, f ∈ (map_to_list (evictable_ (replacer_ s))).*1
                       ↔ marked_evictable (replacer_ s) f).
  { intros f. rewrite list_elem_of_fmap. unfold marked_evictable. split.
    - intros ([g b] & -> & Hin%elem_of_map_to_list). by eexists.
    - intros [b Hb]. exists (f, b). split; [done|]. by apply elem_of_map_to_list. }
  assert (Hperm : unpinned_frames (pages_ s)
            ≡ₚ free_list_ s ++ (map_to_list (evictable_ (replacer_ s))).*1).
  { apply NoDup_Permutation.
    - apply NoDup_unpinned_frames.
    - apply NoDup_app. split_and!.
      + apply (inv_free_nodup _ _ Hinv).
      + intros f Hf Hk%Hkeys. apply Hfree in Hf as [_ Hnt]. apply Hnt.
        by destruct (inv_evictable _ _ Hinv f Hk).
      + apply NoDup_fst_map_to_list.
    - intros f. rewrite elem_of_unpinned_frames, elem_of_app, Hkeys. split.
      + intros (pg & Hpg & Hpin). by eapply Hat.
      + intros [Hf|Hk].
        * exists empty_page. split; [by apply (inv_free _ _ Hinv)|done].
        * by destruct (inv_evictable _ _ Hinv f Hk). }
  split; [done|].
  rewrite <- length_unpinned_frames, Hperm, length_app, length_fmap.
  unfold Size. by rewrite length_map_to_list.
Qed.

Lemma unpinned_frames_accounted_witness :
  let s := state_after 3 2 [NewPage; NewPage; UnpinPage 0 false] in
  reachable 3 2 s
  ∧ unpinned_frames (pages_ s)
      ≡ₚ free_list_ s ++ (map_to_list (evictable_ (replacer_ s))).*1
  ∧ num_free_pages (pages_ s)
    = (length (free_list_ s) + Size (replacer_ s))%nat.
Proof.
  intros s.
  assert (Hs : reachable 3 2 s).
  { apply (run_reachable 3 2 new_disk [NewPage; NewPage; UnpinPage 0 false]);
      by vm_compute. }
  split; [exact Hs|]. exact (unpinned_frames_accounted 3 2 s Hs).
Defined.
